(** * nginx-js traffic-control engines: a shallow embedding

    The development follows the TypeScript sources of the repository:
    - [packages/features/src/CircuitBreaker.ts]  -> [Module CircuitBreaker]
    - [packages/core/src/PluginManager.ts] and [src/core/PluginManager.ts]
                                                 -> [Module PluginManager]
    - [packages/features/src/RateLimiter.ts]     -> [Module RateLimiter]
    - [packages/features/src/LoadBalancer.ts]    -> [Module LoadBalancer]
    - [src/features/Router.ts]                   -> [Module Router]

    The models come first, one module per source file; the properties
    proved of them follow, one module of facts per model.

    Conventions.  A class instance is a record holding its private fields; a
    method is a function from the old instance to the new one (and a result).
    [Date.now()] and [Math.random()] are inputs of the method that reads them.
    An optional field [x?: T] is an [option]; the JavaScript idiom [x || d]
    is written out with its truthiness test (0 and [undefined] are falsy). *)

From Stdlib Require Import ZArith QArith Qround Floats Lia Lqa Bool List Sorted Permutation.
From Stdlib Require Import String Ascii DecimalString.
From stdpp Require Import gmap strings.
Import ListNotations.

(** [x || d] on an optional integer: [undefined] and [0] select the default. *)
Definition or_defaultZ (x : option Z) (d : Z) : Z :=
  match x with
  | Some v => if (v =? 0)%Z then d else v
  | None => d
  end.

(** [x || d] on an optional fraction. *)
Definition or_defaultQ (x : option Q) (d : Q) : Q :=
  match x with
  | Some v => if Qeq_bool v 0 then d else v
  | None => d
  end.

(** * Circuit breaker *)
Module CircuitBreaker.
Local Open Scope Z_scope.

Inductive CircuitState := CLOSED | OPEN | HALF_OPEN.

Record CircuitBreakerConfig := {
  cfg_failureThreshold : option Q;
  cfg_successThreshold : option Z;
  cfg_timeout : option Z;
  cfg_resetTimeout : option Z;
  cfg_monitoringPeriod : option Z
}.

(** The instance: counters are JavaScript numbers holding integers, times are
    milliseconds, [failureThreshold] is a fraction. *)
Record t := mk {
  state : CircuitState;
  failureCount : Z;
  successCount : Z;
  totalRequests : Z;
  lastFailureTime : option Z;
  requestTimestamps : list Z;
  failureThreshold : Q;
  successThreshold : Z;
  timeout : Z;
  resetTimeout : Z;
  monitoringPeriod : Z
}.

Definition set_state (s : CircuitState) (cb : t) : t :=
  mk s (failureCount cb) (successCount cb) (totalRequests cb) (lastFailureTime cb)
     (requestTimestamps cb) (failureThreshold cb) (successThreshold cb) (timeout cb)
     (resetTimeout cb) (monitoringPeriod cb).
Definition set_failureCount (n : Z) (cb : t) : t :=
  mk (state cb) n (successCount cb) (totalRequests cb) (lastFailureTime cb)
     (requestTimestamps cb) (failureThreshold cb) (successThreshold cb) (timeout cb)
     (resetTimeout cb) (monitoringPeriod cb).
Definition set_successCount (n : Z) (cb : t) : t :=
  mk (state cb) (failureCount cb) n (totalRequests cb) (lastFailureTime cb)
     (requestTimestamps cb) (failureThreshold cb) (successThreshold cb) (timeout cb)
     (resetTimeout cb) (monitoringPeriod cb).
Definition set_totalRequests (n : Z) (cb : t) : t :=
  mk (state cb) (failureCount cb) (successCount cb) n (lastFailureTime cb)
     (requestTimestamps cb) (failureThreshold cb) (successThreshold cb) (timeout cb)
     (resetTimeout cb) (monitoringPeriod cb).
Definition set_lastFailureTime (o : option Z) (cb : t) : t :=
  mk (state cb) (failureCount cb) (successCount cb) (totalRequests cb) o
     (requestTimestamps cb) (failureThreshold cb) (successThreshold cb) (timeout cb)
     (resetTimeout cb) (monitoringPeriod cb).
Definition set_requestTimestamps (l : list Z) (cb : t) : t :=
  mk (state cb) (failureCount cb) (successCount cb) (totalRequests cb) (lastFailureTime cb)
     l (failureThreshold cb) (successThreshold cb) (timeout cb)
     (resetTimeout cb) (monitoringPeriod cb).

(** [constructor(config)] *)
Definition create (config : CircuitBreakerConfig) : t :=
  {| state := CLOSED;
     failureCount := 0;
     successCount := 0;
     totalRequests := 0;
     lastFailureTime := None;
     requestTimestamps := [];
     failureThreshold := or_defaultQ (cfg_failureThreshold config) (1 # 2);
     successThreshold := or_defaultZ (cfg_successThreshold config) 5;
     timeout := or_defaultZ (cfg_timeout config) 30000;
     resetTimeout := or_defaultZ (cfg_resetTimeout config) 60000;
     monitoringPeriod := or_defaultZ (cfg_monitoringPeriod config) 10000 |}.

Definition emptyConfig : CircuitBreakerConfig :=
  {| cfg_failureThreshold := None; cfg_successThreshold := None; cfg_timeout := None;
     cfg_resetTimeout := None; cfg_monitoringPeriod := None |}.

Definition getState (cb : t) : CircuitState := state cb.

(** [reset()] *)
Definition reset (cb : t) : t :=
  set_requestTimestamps []
    (set_totalRequests 0 (set_successCount 0 (set_failureCount 0 (set_state CLOSED cb)))).

(** [_cleanOldRequests()]: the timestamps not newer than the cutoff go; when
    fewer timestamps than [totalRequests] remain, the total becomes their
    number and the failure count is capped by it. *)
Definition _cleanOldRequests (now : Z) (cb : t) : t :=
  let cutoff := now - monitoringPeriod cb in
  let kept := List.filter (fun ts => cutoff <? ts) (requestTimestamps cb) in
  let cb1 := set_requestTimestamps kept cb in
  if Z.of_nat (length kept) <? totalRequests cb1 then
    let cb2 := set_totalRequests (Z.of_nat (length kept)) cb1 in
    set_failureCount (Z.min (failureCount cb2) (totalRequests cb2)) cb2
  else cb1.

(** [_onSuccess()] *)
Definition _onSuccess (now : Z) (cb : t) : t :=
  let cb1 := set_totalRequests (totalRequests cb + 1) cb in
  let cb2 := _cleanOldRequests now cb1 in
  match state cb2 with
  | HALF_OPEN =>
      let cb3 := set_successCount (successCount cb2 + 1) cb2 in
      if successThreshold cb3 <=? successCount cb3 then
        set_successCount 0 (set_failureCount 0 (set_state CLOSED cb3))
      else cb3
  | _ => cb2
  end.

(** [failureCount / totalRequests >= failureThreshold] on JavaScript numbers:
    a zero divisor gives [NaN] (0/0, every comparison false), [Infinity]
    (above every threshold) or [-Infinity]. *)
Definition rate_reaches (failures total : Z) (threshold : Q) : bool :=
  if total =? 0 then 0 <? failures
  else Qle_bool threshold (inject_Z failures / inject_Z total).

(** [_onFailure()] *)
Definition _onFailure (now : Z) (cb : t) : t :=
  let cb1 := set_totalRequests (totalRequests cb + 1) cb in
  let cb2 := set_failureCount (failureCount cb1 + 1) cb1 in
  let cb3 := set_lastFailureTime (Some now) cb2 in
  let cb4 := set_requestTimestamps (requestTimestamps cb3 ++ [now]) cb3 in
  let cb5 := _cleanOldRequests now cb4 in
  match state cb5 with
  | HALF_OPEN => set_successCount 0 (set_state OPEN cb5)
  | _ =>
      if rate_reaches (failureCount cb5) (totalRequests cb5) (failureThreshold cb5)
         && (10 <=? totalRequests cb5)
      then set_state OPEN cb5
      else cb5
  end.

(** [_shouldAttemptReset()]: [!this.lastFailureTime] also holds for the time 0. *)
Definition _shouldAttemptReset (now : Z) (cb : t) : bool :=
  match lastFailureTime cb with
  | None => false
  | Some last => if last =? 0 then false else resetTimeout cb <=? now - last
  end.

(** ** [allow]

    [allow(fn)] is asynchronous.  Its body runs up to the [await] when it is
    called: the state test, and the call [fn()] that starts the operation.
    It resumes when the race between the operation and the timeout settles.
    Calls of several [allow]s may interleave between these two halves, so
    the two halves are modelled apart, [allow_enter] and [allow_settle];
    [allow] is one call run to its end with nothing in between. *)
Section Allow.
Context {W T E : Type}.

(** How the race [Promise.race([fn(), this._timeout()])] ends. *)
Inductive Outcome := Resolved (v : T) | Rejected (e : E) | TimedOut.

(** What [allow] throws. *)
Inductive AllowError := CircuitOpenError | OperationError (e : E) | RequestTimeout.

Inductive AllowResult := Returned (v : T) | Threw (e : AllowError).

(** A caller-supplied operation: calling it acts on the caller's world
    [W] and fixes how its promise will settle. *)
Definition Operation := W -> W * Outcome.

(** First half: [None] when the call is rejected with
    'Circuit breaker is OPEN', else the pending race. *)
Definition allow_enter (now : Z) (fn : Operation) (st : t * W) : (t * W) * option Outcome :=
  let '(cb, w) := st in
  match state cb with
  | OPEN =>
      if _shouldAttemptReset now cb then
        let cb' := set_state HALF_OPEN cb in
        let '(w', o) := fn w in ((cb', w'), Some o)
      else ((cb, w), None)
  | _ => let '(w', o) := fn w in ((cb, w'), Some o)
  end.

(** Second half: the [try]/[catch] around the awaited race. *)
Definition allow_settle (now : Z) (o : Outcome) (cb : t) : t * AllowResult :=
  match o with
  | Resolved v => (_onSuccess now cb, Returned v)
  | Rejected e => (_onFailure now cb, Threw (OperationError e))
  | TimedOut => (_onFailure now cb, Threw RequestTimeout)
  end.

(** One call from start to end: entered at [now], settled at [later]. *)
Definition allow (now later : Z) (fn : Operation) (st : t * W) : (t * W) * AllowResult :=
  match allow_enter now fn st with
  | ((cb, w), None) => ((cb, w), Threw CircuitOpenError)
  | ((cb, w), Some o) => let '(cb', r) := allow_settle later o cb in ((cb', w), r)
  end.
End Allow.

Arguments Outcome : clear implicits.
Arguments AllowError : clear implicits.
Arguments AllowResult : clear implicits.
Arguments Operation : clear implicits.

(** An operation that counts its invocations in the world and settles as told. *)
Definition counting {T E} (o : Outcome T E) : Operation nat T E := fun n => (S n, o).

(** A run of sequential calls, each given as (time, outcome of its operation);
    a call settles at the time it is entered. *)
Fixpoint run_calls (calls : list (Z * Outcome unit unit)) (st : t * nat) : t * nat :=
  match calls with
  | [] => st
  | (now, o) :: rest => run_calls rest (fst (allow now now (counting o) st))
  end.

Definition ok : Outcome unit unit := Resolved tt.
Definition ko : Outcome unit unit := Rejected tt.

End CircuitBreaker.

(** * Request contexts ([packages/types/src/index.ts]) *)

Inductive RequestType := XHR | FETCH | WEBSOCKET.

Definition RequestType_eqb (a b : RequestType) : bool :=
  match a, b with
  | XHR, XHR | FETCH, FETCH | WEBSOCKET, WEBSOCKET => true
  | _, _ => false
  end.

(** The values kept in a metadata bag ([Record<string, any>]). *)
Inductive JsValue :=
| JsUndefined
| JsString (s : string)
| JsNumber (z : Z)
| JsBool (b : bool).

(** [BaseRequestContext]; [metadata] is optional. *)
Record RequestContext := mkContext {
  ctx_id : string;
  ctx_type : RequestType;
  ctx_timestamp : Z;
  ctx_url : string;
  ctx_method : option string;
  ctx_headers : option (gmap string string);
  ctx_metadata : option (gmap string JsValue)
}.

(** * Load balancer *)
Module LoadBalancer.

Record BackendServer := mkServer {
  url : string;
  weight : option Q;
  enabled : option bool;
  healthy : option bool;
  maxFails : option Z;
  currentFails : option Z;
  failTimeout : option Z;
  lastFailTime : option Z
}.

Inductive BalanceStrategy :=
| ROUND_ROBIN
| WEIGHTED_ROUND_ROBIN
| LEAST_CONNECTIONS
| IP_HASH
| RANDOM
| FASTEST.

Record t := mk {
  servers : list BackendServer;
  strategy : BalanceStrategy;
  currentIndex : nat;
  connectionCounts : gmap string Z;
  responseTimes : gmap string (list Q)
}.

(** [constructor(strategy)] *)
Definition create (strategy : BalanceStrategy) : t :=
  {| servers := []; strategy := strategy; currentIndex := 0;
     connectionCounts := ∅; responseTimes := ∅ |}.

Definition default {A} (d : A) (o : option A) : option A :=
  match o with
  | Some v => Some v
  | None => Some d
  end.

(** [addServer(server)]: the defaults, overridden by the fields the caller gave. *)
Definition addServer (server : BackendServer) (lb : t) : t :=
  let stored :=
    {| url := url server;
       weight := default 1%Q (weight server);
       enabled := default true (enabled server);
       healthy := default true (healthy server);
       maxFails := default 3%Z (maxFails server);
       currentFails := default 0%Z (currentFails server);
       failTimeout := default 10000%Z (failTimeout server);
       lastFailTime := lastFailTime server |} in
  {| servers := servers lb ++ [stored];
     strategy := strategy lb;
     currentIndex := currentIndex lb;
     connectionCounts := <[url server := 0%Z]> (connectionCounts lb);
     responseTimes := <[url server := []]> (responseTimes lb) |}.

Definition addServers (l : list BackendServer) (lb : t) : t :=
  fold_left (fun acc s => addServer s acc) l lb.

(** [removeServer(url)] *)
Definition removeServer (u : string) (lb : t) : t :=
  {| servers := List.filter (fun s => negb (String.eqb (url s) u)) (servers lb);
     strategy := strategy lb;
     currentIndex := currentIndex lb;
     connectionCounts := delete u (connectionCounts lb);
     responseTimes := delete u (responseTimes lb) |}.

(** Truthiness of an optional boolean field. *)
Definition truthy (o : option bool) : bool :=
  match o with
  | Some true => true
  | _ => false
  end.

(** [_getHealthyServers()] *)
Definition _getHealthyServers (lb : t) : list BackendServer :=
  List.filter (fun s => truthy (enabled s) && truthy (healthy s)) (servers lb).

(** What a selection returns: [null], a server, or [undefined] (an array
    read outside its bounds). *)
Inductive Selection :=
| Null
| Picked (s : BackendServer)
| Undefined.

(** [servers[i]] *)
Definition at_index (l : list BackendServer) (i : Z) : Selection :=
  if (i <? 0)%Z then Undefined
  else match nth_error l (Z.to_nat i) with
       | Some s => Picked s
       | None => Undefined
       end.

(** [_roundRobin(servers)]: the index is read, then advanced. *)
Definition _roundRobin (l : list BackendServer) (lb : t) : t * Selection :=
  let server := at_index l (Z.of_nat (currentIndex lb mod length l)) in
  ({| servers := servers lb; strategy := strategy lb; currentIndex := S (currentIndex lb);
      connectionCounts := connectionCounts lb; responseTimes := responseTimes lb |},
   server).

(** [s.weight || 1] *)
Definition weight_or_1 (s : BackendServer) : Q := or_defaultQ (weight s) 1.

Fixpoint weighted_walk (random : Q) (l : list BackendServer) : option BackendServer :=
  match l with
  | [] => None
  | s :: rest =>
      let random' := (random - weight_or_1 s)%Q in
      if Qle_bool random' 0 then Some s else weighted_walk random' rest
  end.

(** [_weightedRoundRobin(servers)], [rand] being the value of [Math.random()]. *)
Definition _weightedRoundRobin (rand : Q) (l : list BackendServer) : Selection :=
  let totalWeight := fold_left (fun sum s => (sum + weight_or_1 s)%Q) l 0%Q in
  match weighted_walk (rand * totalWeight)%Q l with
  | Some s => Picked s
  | None => at_index l 0
  end.

(** [this.connectionCounts.get(url) || 0] *)
Definition connections (lb : t) (u : string) : Z :=
  or_defaultZ (connectionCounts lb !! u) 0.

(** [array.reduce(f)] without an initial value; it throws on an empty array. *)
Definition reduce1 (f : BackendServer -> BackendServer -> BackendServer)
  (l : list BackendServer) : option BackendServer :=
  match l with
  | [] => None
  | first :: rest => Some (fold_left f rest first)
  end.

Definition of_reduce (o : option BackendServer) : Selection :=
  match o with
  | Some s => Picked s
  | None => Undefined
  end.

(** [_leastConnections(servers)] *)
Definition _leastConnections (lb : t) (l : list BackendServer) : Selection :=
  of_reduce (reduce1 (fun min server =>
    if (connections lb (url server) <? connections lb (url min))%Z then server else min) l).

(** A 32-bit signed integer from an integer ([x | 0]). *)
Definition toInt32 (z : Z) : Z := ((z + 2 ^ 31) mod 2 ^ 32 - 2 ^ 31)%Z.

(** [_hashCode(str)]; the characters are taken as their codes. *)
Definition _hashCode (str : string) : Z :=
  fold_left (fun hash c =>
               let hash1 := (toInt32 (hash * 32) - hash + Z.of_N (N_of_ascii c))%Z in
               toInt32 hash1)
            (list_ascii_of_string str) 0%Z.

(** [typeof context.metadata?.clientIp === 'string' ? ... : context.url] *)
Definition clientIp (context : RequestContext) : string :=
  match ctx_metadata context with
  | Some md => match md !! "clientIp"%string with
               | Some (JsString ip) => ip
               | _ => ctx_url context
               end
  | None => ctx_url context
  end.

(** [_ipHash(servers, context)] *)
Definition _ipHash (l : list BackendServer) (context : RequestContext) : Selection :=
  let hash := _hashCode (clientIp context) in
  at_index l (Z.rem (Z.abs hash) (Z.of_nat (length l))).

(** [_random(servers)], [rand] being the value of [Math.random()]. *)
Definition _random (rand : Q) (l : list BackendServer) : Selection :=
  at_index l (Qfloor (rand * inject_Z (Z.of_nat (length l)))).

(** [_getAverageResponseTime(url)]; [None] is [Infinity]. *)
Definition _getAverageResponseTime (lb : t) (u : string) : option Q :=
  match responseTimes lb !! u with
  | None | Some [] => None
  | Some times =>
      Some (fold_left Qplus times 0%Q / inject_Z (Z.of_nat (length times)))%Q
  end.

(** [a < b] where [None] is [Infinity]. *)
Definition time_lt (a b : option Q) : bool :=
  match a, b with
  | Some x, Some y => negb (Qle_bool y x)
  | Some _, None => true
  | None, _ => false
  end.

(** [_fastest(servers)] *)
Definition _fastest (lb : t) (l : list BackendServer) : Selection :=
  of_reduce (reduce1 (fun fastest server =>
    if time_lt (_getAverageResponseTime lb (url server))
               (_getAverageResponseTime lb (url fastest))
    then server else fastest) l).

(** [getNextServer(context)] *)
Definition getNextServer (rand : Q) (context : RequestContext) (lb : t) : t * Selection :=
  let availableServers := _getHealthyServers lb in
  match availableServers with
  | [] => (lb, Null)
  | _ =>
      match strategy lb with
      | ROUND_ROBIN => _roundRobin availableServers lb
      | WEIGHTED_ROUND_ROBIN => (lb, _weightedRoundRobin rand availableServers)
      | LEAST_CONNECTIONS => (lb, _leastConnections lb availableServers)
      | IP_HASH => (lb, _ipHash availableServers context)
      | RANDOM => (lb, _random rand availableServers)
      | FASTEST => (lb, _fastest lb availableServers)
      end
  end.

(** [n] consecutive calls of [getNextServer]: the selections, in order, and
    the balancer left behind. *)
Fixpoint selections (n : nat) (rand : Q) (context : RequestContext) (lb : t)
  : list Selection * t :=
  match n with
  | O => ([], lb)
  | S n' =>
      let '(lb1, sel) := getNextServer rand context lb in
      let '(sels, lb2) := selections n' rand context lb1 in
      (sel :: sels, lb2)
  end.

(** ** Connection counts, response times and health *)

Definition set_connectionCounts (m : gmap string Z) (lb : t) : t :=
  {| servers := servers lb; strategy := strategy lb; currentIndex := currentIndex lb;
     connectionCounts := m; responseTimes := responseTimes lb |}.

Definition set_responseTimes (m : gmap string (list Q)) (lb : t) : t :=
  {| servers := servers lb; strategy := strategy lb; currentIndex := currentIndex lb;
     connectionCounts := connectionCounts lb; responseTimes := m |}.

Definition set_servers (l : list BackendServer) (lb : t) : t :=
  {| servers := l; strategy := strategy lb; currentIndex := currentIndex lb;
     connectionCounts := connectionCounts lb; responseTimes := responseTimes lb |}.

(** [incrementConnections(url)] *)
Definition incrementConnections (u : string) (lb : t) : t :=
  set_connectionCounts (<[u := (connections lb u + 1)%Z]> (connectionCounts lb)) lb.

(** [decrementConnections(url)] *)
Definition decrementConnections (u : string) (lb : t) : t :=
  set_connectionCounts (<[u := Z.max 0 (connections lb u - 1)]> (connectionCounts lb)) lb.

(** [recordResponseTime(url, time)]: the time is pushed, and the oldest one
    shifted out once more than 100 are held. *)
Definition recordResponseTime (u : string) (time : Q) (lb : t) : t :=
  let times := match responseTimes lb !! u with
               | Some l => l
               | None => []
               end in
  let times1 := times ++ [time] in
  let times2 := if (100 <? length times1)%nat then tl times1 else times1 in
  set_responseTimes (<[u := times2]> (responseTimes lb)) lb.

(** [times.slice(-100)] *)
Definition last_100 (times : list Q) : list Q := skipn (length times - 100) times.

(** [_cleanupOldData()], run every ten minutes by the timer of the constructor. *)
Definition _cleanupOldData (lb : t) : t :=
  set_responseTimes
    ((fun times => if (100 <? length times)%nat then last_100 times else times)
       <$> responseTimes lb) lb.

(** [setStrategy(strategy)] *)
Definition setStrategy (strategy : BalanceStrategy) (lb : t) : t :=
  {| servers := servers lb; strategy := strategy; currentIndex := currentIndex lb;
     connectionCounts := connectionCounts lb; responseTimes := responseTimes lb |}.

(** [this.servers.find((s) => s.url === url)] *)
Definition find_server (u : string) (l : list BackendServer) : option BackendServer :=
  List.find (fun s => String.eqb (url s) u) l.

(** The server that [find] returns is updated where it stands in the list. *)
Fixpoint update_found (u : string) (f : BackendServer -> BackendServer)
  (l : list BackendServer) : list BackendServer :=
  match l with
  | [] => []
  | s :: rest => if String.eqb (url s) u then f s :: rest else s :: update_found u f rest
  end.

(** What [markFailed] does to the server it found: one more failure, at
    [now]; unhealthy once [maxFails ?? 3] failures are counted. *)
Definition failed (now : Z) (s : BackendServer) : BackendServer :=
  let fails := (or_defaultZ (currentFails s) 0 + 1)%Z in
  let limit := match maxFails s with
               | Some m => m
               | None => 3%Z
               end in
  {| url := url s; weight := weight s; enabled := enabled s;
     healthy := if (limit <=? fails)%Z then Some false else healthy s;
     maxFails := maxFails s; currentFails := Some fails;
     failTimeout := failTimeout s; lastFailTime := Some now |}.

(** [markFailed(url)].  The second component is the timer set when the
    limit is reached: the delay [server.failTimeout] after which
    [_tryRecoverServer] is run on the server. *)
Definition markFailed (now : Z) (u : string) (lb : t) : t * option (option Z) :=
  match find_server u (servers lb) with
  | None => (lb, None)
  | Some server =>
      let fails := (or_defaultZ (currentFails server) 0 + 1)%Z in
      let limit := match maxFails server with
                   | Some m => m
                   | None => 3%Z
                   end in
      (set_servers (update_found u (failed now) (servers lb)) lb,
       if (limit <=? fails)%Z then Some (failTimeout server) else None)
  end.

(** What [markSuccess] does to the server it found. *)
Definition succeeded (s : BackendServer) : BackendServer :=
  {| url := url s; weight := weight s; enabled := enabled s;
     healthy := if truthy (healthy s) then healthy s else Some true;
     maxFails := maxFails s; currentFails := Some 0%Z;
     failTimeout := failTimeout s; lastFailTime := lastFailTime s |}.

(** [markSuccess(url)] *)
Definition markSuccess (u : string) (lb : t) : t :=
  set_servers (update_found u succeeded (servers lb)) lb.

(** [_tryRecoverServer(server)], on the server object the timer holds. *)
Definition _tryRecoverServer (s : BackendServer) : BackendServer :=
  {| url := url s; weight := weight s; enabled := enabled s; healthy := Some true;
     maxFails := maxFails s; currentFails := Some 0%Z;
     failTimeout := failTimeout s; lastFailTime := lastFailTime s |}.

End LoadBalancer.

(** * Plugin manager *)
Module PluginManager.
Local Open Scope Z_scope.

Inductive PluginType := INTERCEPTOR | BUSINESS.

(** The keys of [PluginLifecycle]. *)
Inductive HookName :=
| onInit | beforeRequest | beforeSend | afterResponse | onError | onComplete
| beforeWebSocketOpen | onWebSocketOpen | beforeWebSocketSend | onWebSocketMessage
| onWebSocketError | onWebSocketClose | onDestroy.

Inductive ErrorStrategy := Continue | Stop | Throw.

(** What [firstArg && typeof firstArg === 'object' && 'type' in firstArg]
    finds: no such field, a field holding a request type, or a field holding
    something else. *)
Inductive TypeField := NoTypeField | TypeIs (t : RequestType) | TypeOther.

Section Chain.
Context {V Err : Type}.
Variable typeField : V -> TypeField.

(** A hook is called with the argument list; it returns a value, returns
    nothing ([None]), or throws.  A promise it returns is awaited before the
    next plugin runs, so only its settlement matters. *)
Inductive HookOutcome := Returns (v : option V) | Throws (e : Err).

Definition Hook := list (option V) -> HookOutcome.

(** [Plugin]: the optional fields, and the optional lifecycle functions by name. *)
Record Plugin := mkPlugin {
  name : string;
  version : option string;
  enabled : option bool;
  type : option PluginType;
  priority : option Z;
  requestTypes : option (list RequestType);
  hooks : HookName -> option Hook
}.

(** [Map<string, Plugin>]: iteration follows insertion order; setting a key
    that is present replaces its value where it stands. *)
Fixpoint map_set (key : string) (p : Plugin) (m : list (string * Plugin))
  : list (string * Plugin) :=
  match m with
  | [] => [(key, p)]
  | (k, q) :: rest => if String.eqb k key then (k, p) :: rest else (k, q) :: map_set key p rest
  end.

Definition map_values (m : list (string * Plugin)) : list Plugin := map snd m.

Record t := mk {
  plugins : list (string * Plugin);
  debug : bool;
  errorStrategy : ErrorStrategy
}.

(** [constructor(debug, errorStrategy)] with its default arguments. *)
Definition create : t := {| plugins := []; debug := false; errorStrategy := Continue |}.

Definition setErrorStrategy (strategy : ErrorStrategy) (pm : t) : t :=
  {| plugins := plugins pm; debug := debug pm; errorStrategy := strategy |}.

(** [register(plugin)]: the defaults are written into the plugin, which is
    then set under its name.  ([onInit] is started and not awaited.) *)
Definition register (plugin : Plugin) (pm : t) : t :=
  let enabled' := match enabled plugin with None => Some true | e => e end in
  let type' := match type plugin with None => Some BUSINESS | ty => ty end in
  let priority' :=
    match priority plugin with
    | None => match type' with Some INTERCEPTOR => Some 0 | _ => Some 100 end
    | pr => pr
    end in
  let plugin' :=
    {| name := name plugin; version := version plugin; enabled := enabled';
       type := type'; priority := priority'; requestTypes := requestTypes plugin;
       hooks := hooks plugin |} in
  {| plugins := map_set (name plugin) plugin' (plugins pm);
     debug := debug pm; errorStrategy := errorStrategy pm |}.

Definition registerMultiple (l : list Plugin) (pm : t) : t :=
  fold_left (fun acc p => register p acc) l pm.

(** [plugin.enabled !== false] *)
Definition is_enabled (p : Plugin) : bool :=
  match enabled p with
  | Some false => false
  | _ => true
  end.

(** [a.priority || 100], the key of the comparator
    [(a, b) => (a.priority || 100) - (b.priority || 100)]. *)
Definition sort_key (p : Plugin) : Z := or_defaultZ (priority p) 100.

(** [Array.prototype.sort] with that comparator.  The sort is stable: the
    plugins come out by ascending key, those of equal key in the order they
    had.  Inserting each plugin before the first one of a key not below its
    own, from the last plugin to the first, computes that arrangement. *)
Fixpoint insert_by_key (p : Plugin) (l : list Plugin) : list Plugin :=
  match l with
  | [] => [p]
  | q :: rest => if sort_key p <=? sort_key q then p :: q :: rest
                 else q :: insert_by_key p rest
  end.

Definition sort_by_key (l : list Plugin) : list Plugin := fold_right insert_by_key [] l.

(** [plugin.requestTypes.includes(requestType)] *)
Definition includes (rt : RequestType) (l : list RequestType) : bool :=
  existsb (RequestType_eqb rt) l.

(** The type filter of [packages/core]: a plugin with a non-empty
    [requestTypes] is passed over when the first argument carries a type
    that the list does not include. *)
Definition skipped_by_requestTypes (args : list (option V)) (p : Plugin) : bool :=
  match requestTypes p with
  | Some (rt :: rts) =>
      match args with
      | Some firstArg :: _ =>
          match typeField firstArg with
          | NoTypeField => false
          | TypeIs ty => negb (includes ty (rt :: rts))
          | TypeOther => true
          end
      | _ => false
      end
  | _ => false
  end.

(** [s.endsWith(suffix)] and [s.includes(part)] on strings. *)
Definition endsWith (s suffix : string) : bool :=
  String.prefix (String.rev suffix) (String.rev s).

Definition str_includes (s part : string) : bool :=
  match String.index 0 part s with
  | Some _ => true
  | None => false
  end.

(** The type filter of [src/core]: a callback plugin, named [__...__], is
    passed over when its name mentions a request kind other than the one
    the first argument carries. *)
Definition skipped_by_name (args : list (option V)) (p : Plugin) : bool :=
  if String.prefix "__" (name p) && endsWith (name p) "__" then
    match args with
    | Some firstArg :: _ =>
        let mismatch (kind : string) (rt : RequestType) :=
          str_includes (name p) kind &&
          match typeField firstArg with
          | TypeIs ty => negb (RequestType_eqb ty rt)
          | _ => true
          end in
        match typeField firstArg with
        | NoTypeField => false
        | _ => mismatch "Fetch"%string FETCH || mismatch "XHR"%string XHR
               || mismatch "WebSocket"%string WEBSOCKET
        end
    | _ => false
    end
  else false.

(** How [executeHook] ends: its promise resolves with the running value, or
    rejects with the error a hook threw. *)
Inductive Executed := Fulfilled (result : option V) | Failed (e : Err).

(** [result !== undefined ? [result, ...args.slice(1)] : args] *)
Definition call_args (result : option V) (args : list (option V)) : list (option V) :=
  match result with
  | Some r => Some r :: tl args
  | None => args
  end.

(** The loop [for (const plugin of enabledPlugins)].  [ran] lists the plugins
    whose hook has been called, in the order of the calls. *)
Fixpoint run_hooks (skipped : list (option V) -> Plugin -> bool) (strategy : ErrorStrategy)
  (hookName : HookName) (args : list (option V)) (chain : list Plugin)
  (result : option V) (ran : list Plugin) : Executed * list Plugin :=
  match chain with
  | [] => (Fulfilled result, ran)
  | plugin :: rest =>
      match hooks plugin hookName with
      | None => run_hooks skipped strategy hookName args rest result ran
      | Some hook =>
          if skipped args plugin then run_hooks skipped strategy hookName args rest result ran
          else
            match hook (call_args result args) with
            | Returns (Some hookResult) =>
                run_hooks skipped strategy hookName args rest (Some hookResult) (ran ++ [plugin])
            | Returns None =>
                run_hooks skipped strategy hookName args rest result (ran ++ [plugin])
            | Throws error =>
                match strategy with
                | Stop => (Fulfilled result, ran ++ [plugin])
                | Throw => (Failed error, ran ++ [plugin])
                | Continue =>
                    run_hooks skipped strategy hookName args rest result (ran ++ [plugin])
                end
            end
      end
  end.

(** [args[0]] *)
Definition first_arg (args : list (option V)) : option V :=
  match args with
  | a :: _ => a
  | [] => None
  end.

(** The body shared by the two versions of [executeHook]. *)
Definition execute (skipped : list (option V) -> Plugin -> bool) (strategy : ErrorStrategy)
  (registered : list Plugin) (hookName : HookName) (args : list (option V))
  : Executed * list Plugin :=
  let enabledPlugins := sort_by_key (List.filter is_enabled registered) in
  run_hooks skipped strategy hookName args enabledPlugins (first_arg args) [].

(** [executeHook(hookName, ...args)] of [packages/core/src/PluginManager.ts]. *)
Definition executeHook (pm : t) (hookName : HookName) (args : list (option V))
  : Executed * list Plugin :=
  execute skipped_by_requestTypes (errorStrategy pm) (map_values (plugins pm)) hookName args.

(** [executeHook(hookName, ...args)] of [src/core/PluginManager.ts]: the
    filter goes by the plugin's name, and an error is logged and passed over. *)
Definition executeHook_legacy (pm : t) (hookName : HookName) (args : list (option V))
  : Executed * list Plugin :=
  execute skipped_by_name Continue (map_values (plugins pm)) hookName args.

End Chain.

Arguments Plugin : clear implicits.
Arguments Hook : clear implicits.
Arguments HookOutcome : clear implicits.
Arguments Executed : clear implicits.
Arguments t : clear implicits.

(** ** Queries *)
Section Registry.
Context {V Err : Type}.

(** [Map.prototype.get] *)
Fixpoint map_get (key : string) (m : list (string * Plugin V Err)) : option (Plugin V Err) :=
  match m with
  | [] => None
  | (k, p) :: rest => if String.eqb k key then Some p else map_get key rest
  end.

(** [getPlugin(pluginName)] *)
Definition getPlugin (pluginName : string) (pm : t V Err) : option (Plugin V Err) :=
  map_get pluginName (plugins pm).

(** [getAllPlugins()] *)
Definition getAllPlugins (pm : t V Err) : list (Plugin V Err) := map_values (plugins pm).

(** [plugin.type === type] *)
Definition has_type (ty : PluginType) (p : Plugin V Err) : bool :=
  match type p, ty with
  | Some INTERCEPTOR, INTERCEPTOR | Some BUSINESS, BUSINESS => true
  | _, _ => false
  end.

(** [getPluginsByType(type)] *)
Definition getPluginsByType (ty : PluginType) (pm : t V Err) : list (Plugin V Err) :=
  List.filter (has_type ty) (map_values (plugins pm)).

(** [getEnabledCount()] *)
Definition getEnabledCount (pm : t V Err) : nat :=
  length (List.filter is_enabled (map_values (plugins pm))).

End Registry.

End PluginManager.

(** * Rate limiter *)
Module RateLimiter.

(** ** JavaScript numbers

    The limiter computes with [number]s: times, counts, and fractional token
    and leak levels.  The operations it uses are gathered in an interface
    with two instances: IEEE 754 binary64, which is what a JavaScript
    [number] is, and the rationals, which is the same arithmetic without
    rounding. *)
Class JsNumber (N : Type) := {
  zero : N;
  one : N;
  add : N -> N -> N;
  sub : N -> N -> N;
  mul : N -> N -> N;
  div : N -> N -> N;
  (** [a < b] *)
  ltb : N -> N -> bool;
  (** [a >= b] *)
  geb : N -> N -> bool;
  (** [Math.min(a, b)] and [Math.max(a, b)] *)
  min : N -> N -> N;
  max : N -> N -> N;
  (** the truthiness of a number: false for 0 and NaN *)
  truthy : N -> bool;
  (** an integer, such as the length of an array, as a number *)
  of_Z : Z -> N
}.

(** binary64 *)
#[export] Instance Float_JsNumber : JsNumber float := {|
  zero := 0%float;
  one := 1%float;
  add := PrimFloat.add;
  sub := PrimFloat.sub;
  mul := PrimFloat.mul;
  div := PrimFloat.div;
  ltb := PrimFloat.ltb;
  geb := fun a b => PrimFloat.leb b a;
  min := fun a b =>
    if PrimFloat.is_nan a || PrimFloat.is_nan b then nan
    else if PrimFloat.ltb a b then a
    else if PrimFloat.ltb b a then b
    else if PrimFloat.get_sign a then a else b;
  max := fun a b =>
    if PrimFloat.is_nan a || PrimFloat.is_nan b then nan
    else if PrimFloat.ltb b a then a
    else if PrimFloat.ltb a b then b
    else if PrimFloat.get_sign a then b else a;
  truthy := fun a => negb (PrimFloat.is_nan a || PrimFloat.is_zero a);
  of_Z := fun z => PrimFloat.of_uint63 (Uint63.of_Z z)
|}.

(** exact arithmetic *)
#[export] Instance Q_JsNumber : JsNumber Q := {|
  zero := 0%Q;
  one := 1%Q;
  add := Qplus;
  sub := Qminus;
  mul := Qmult;
  div := Qdiv;
  ltb := fun a b => negb (Qle_bool b a);
  geb := fun a b => Qle_bool b a;
  min := fun a b => if Qle_bool a b then a else b;
  max := fun a b => if Qle_bool a b then b else a;
  truthy := fun a => negb (Qeq_bool a 0);
  of_Z := inject_Z
|}.

Inductive RateLimitAlgorithm :=
| FIXED_WINDOW
| SLIDING_WINDOW
| TOKEN_BUCKET
| LEAKY_BUCKET.

Section Limiter.
Context {N : Type} `{JsNumber N}.

Record RateLimitConfig := {
  cfg_algorithm : option RateLimitAlgorithm;
  cfg_windowMs : option N;
  cfg_maxRequests : option N;
  cfg_keyGenerator : option (RequestContext -> string);
  cfg_onLimitReached : bool
}.

Record RequestRecord := mkRecord {
  count : N;
  resetTime : N;
  timestamps : list N;
  tokens : option N;
  lastRefill : option N
}.

(** The instance.  [notified] lists the contexts [onLimitReached] has been
    called with, the last one first. *)
Record t := mk {
  algorithm : RateLimitAlgorithm;
  windowMs : N;
  maxRequests : N;
  keyGenerator : RequestContext -> string;
  onLimitReached : bool;
  records : gmap string RequestRecord;
  notified : list RequestContext
}.

(** [x || d] on an optional number. *)
Definition or_num (x : option N) (d : N) : N :=
  match x with
  | Some v => if truthy v then v else d
  | None => d
  end.

(** [array.length] *)
Definition length_of {A} (l : list A) : N := of_Z (Z.of_nat (length l)).

(** [_defaultKeyGenerator(context)] *)
Definition _defaultKeyGenerator (context : RequestContext) : string := ctx_url context.

(** [constructor(config)] *)
Definition create (config : RateLimitConfig) : t :=
  {| algorithm := match cfg_algorithm config with Some a => a | None => SLIDING_WINDOW end;
     windowMs := or_num (cfg_windowMs config) (of_Z 60000);
     maxRequests := or_num (cfg_maxRequests config) (of_Z 100);
     keyGenerator := match cfg_keyGenerator config with
                     | Some g => g
                     | None => _defaultKeyGenerator
                     end;
     onLimitReached := cfg_onLimitReached config;
     records := ∅;
     notified := [] |}.

(** [_createRecord()], [now] being its own reading of [Date.now()]. *)
Definition _createRecord (rl : t) (now : N) : RequestRecord :=
  {| count := zero;
     resetTime := add now (windowMs rl);
     timestamps := [];
     tokens := Some (maxRequests rl);
     lastRefill := Some now |}.

(** [_fixedWindow(record, now)] *)
Definition _fixedWindow (rl : t) (record : RequestRecord) (now : N) : RequestRecord * bool :=
  let record1 :=
    if geb now (resetTime record) then
      {| count := zero; resetTime := add now (windowMs rl);
         timestamps := timestamps record; tokens := tokens record;
         lastRefill := lastRefill record |}
    else record in
  if geb (count record1) (maxRequests rl) then (record1, false)
  else ({| count := add (count record1) one; resetTime := resetTime record1;
           timestamps := timestamps record1; tokens := tokens record1;
           lastRefill := lastRefill record1 |}, true).

(** [_slidingWindow(record, now)] *)
Definition _slidingWindow (rl : t) (record : RequestRecord) (now : N) : RequestRecord * bool :=
  let windowStart := sub now (windowMs rl) in
  let kept := List.filter (fun ts => ltb windowStart ts) (timestamps record) in
  let record1 :=
    {| count := count record; resetTime := resetTime record; timestamps := kept;
       tokens := tokens record; lastRefill := lastRefill record |} in
  if geb (length_of kept) (maxRequests rl) then (record1, false)
  else ({| count := length_of (kept ++ [now]); resetTime := resetTime record;
           timestamps := kept ++ [now]; tokens := tokens record;
           lastRefill := lastRefill record |}, true).

(** [_tokenBucket(record, now)] *)
Definition _tokenBucket (rl : t) (record : RequestRecord) (now : N) : RequestRecord * bool :=
  let timePassed := sub now (or_num (lastRefill record) now) in
  let tokensToAdd := mul (div timePassed (windowMs rl)) (maxRequests rl) in
  let refilled := min (maxRequests rl) (add (or_num (tokens record) zero) tokensToAdd) in
  let record1 :=
    {| count := count record; resetTime := resetTime record; timestamps := timestamps record;
       tokens := Some refilled; lastRefill := Some now |} in
  if ltb refilled one then (record1, false)
  else ({| count := count record; resetTime := resetTime record;
           timestamps := timestamps record;
           tokens := Some (sub refilled one); lastRefill := Some now |}, true).

(** [_leakyBucket(record, now)] *)
Definition _leakyBucket (rl : t) (record : RequestRecord) (now : N) : RequestRecord * bool :=
  let timePassed := sub now (or_num (lastRefill record) now) in
  let leakedRequests := mul (div timePassed (windowMs rl)) (maxRequests rl) in
  let level := max zero (sub (count record) leakedRequests) in
  let record1 :=
    {| count := level; resetTime := resetTime record; timestamps := timestamps record;
       tokens := tokens record; lastRefill := Some now |} in
  if geb level (maxRequests rl) then (record1, false)
  else ({| count := add level one; resetTime := resetTime record;
           timestamps := timestamps record; tokens := tokens record;
           lastRefill := Some now |}, true).

(** The [switch] on the algorithm. *)
Definition decide_request (rl : t) (record : RequestRecord) (now : N) : RequestRecord * bool :=
  match algorithm rl with
  | FIXED_WINDOW => _fixedWindow rl record now
  | SLIDING_WINDOW => _slidingWindow rl record now
  | TOKEN_BUCKET => _tokenBucket rl record now
  | LEAKY_BUCKET => _leakyBucket rl record now
  end.

(** The record a call finds, or makes, for a key. *)
Definition record_for (rl : t) (key : string) (created : N) : RequestRecord :=
  match records rl !! key with
  | Some record => record
  | None => _createRecord rl created
  end.

(** [allowRequest(context)].  [now] is the reading of [Date.now()] at the
    start of the call, [created] the one [_createRecord] takes when the key
    is new.  The record object is updated in place, so the map holds the
    updated record whatever the answer. *)
Definition allowRequest (now created : N) (context : RequestContext) (rl : t) : t * bool :=
  let key := keyGenerator rl context in
  let record := record_for rl key created in
  let '(record', allowed) := decide_request rl record now in
  ({| algorithm := algorithm rl; windowMs := windowMs rl; maxRequests := maxRequests rl;
      keyGenerator := keyGenerator rl; onLimitReached := onLimitReached rl;
      records := <[key := record']> (records rl);
      notified := if negb allowed && onLimitReached rl then context :: notified rl
                  else notified rl |},
   allowed).

(** [reset(key)] and [resetAll()] *)
Definition reset (key : string) (rl : t) : t :=
  {| algorithm := algorithm rl; windowMs := windowMs rl; maxRequests := maxRequests rl;
     keyGenerator := keyGenerator rl; onLimitReached := onLimitReached rl;
     records := delete key (records rl); notified := notified rl |}.

Definition resetAll (rl : t) : t :=
  {| algorithm := algorithm rl; windowMs := windowMs rl; maxRequests := maxRequests rl;
     keyGenerator := keyGenerator rl; onLimitReached := onLimitReached rl;
     records := ∅; notified := notified rl |}.

(** Calls of [allowRequest] for one context at the given times, one after
    the other; the clock does not move during a call. *)
Fixpoint requests (times : list N) (context : RequestContext) (rl : t) : list bool * t :=
  match times with
  | [] => ([], rl)
  | now :: rest =>
      let '(rl1, allowed) := allowRequest now now context rl in
      let '(answers, rl2) := requests rest context rl1 in
      (allowed :: answers, rl2)
  end.

End Limiter.

Arguments RateLimitConfig : clear implicits.
Arguments RequestRecord : clear implicits.
Arguments t : clear implicits.

End RateLimiter.

(** * Strings and regular expressions of the host language

    The router leans on three built-ins: [String.prototype.replace] with a
    global regular expression that matches one literal text,
    [new RegExp(source)] and [String.prototype.match].  Strings are taken
    as sequences of character codes below 256. *)
Module JsString.
Local Open Scope string_scope.

(** The decimal digits of an index, as [`${index}`] prints them. *)
Definition show_nat (n : nat) : string := NilEmpty.string_of_uint (Nat.to_uint n).

Fixpoint drop (n : nat) (s : string) : string :=
  match n, s with
  | O, _ => s
  | S n', String _ rest => drop n' rest
  | S _, EmptyString => EmptyString
  end.

(** The replacement text for one match (the abstract operation
    GetSubstitution of the language, for a regular expression without
    groups): in the template, "$$" stands for a dollar sign, "$&" for the
    matched text, "$`" for the text before the match and "$'" for the text
    after it; any other character stands for itself. *)
Fixpoint get_substitution (template matched before after : string) : string :=
  match template with
  | EmptyString => EmptyString
  | String "$" (String "$" rest) =>
      String "$" (get_substitution rest matched before after)
  | String "$" (String "&" rest) =>
      matched ++ get_substitution rest matched before after
  | String "$" (String "`" rest) =>
      before ++ get_substitution rest matched before after
  | String "$" (String "'" rest) =>
      after ++ get_substitution rest matched before after
  | String c rest => String c (get_substitution rest matched before after)
  end.

(** [s.replace(new RegExp(escaped needle, 'g'), template)]: every occurrence
    of the literal [needle], found from left to right without overlap, is
    replaced by the substitution of [template] at that occurrence.
    [skip] counts the characters of an occurrence still to be passed over,
    [before] is the text already passed. *)
Fixpoint replace_from (needle template : string) (skip : nat) (before s : string) : string :=
  match s with
  | EmptyString => EmptyString
  | String c rest =>
      match skip with
      | S skip' => replace_from needle template skip' (before ++ String c EmptyString) rest
      | O =>
          if String.prefix needle s then
            get_substitution template needle before (drop (String.length needle) s)
            ++ replace_from needle template (String.length needle - 1)
                 (before ++ String c EmptyString) rest
          else String c (replace_from needle template 0 (before ++ String c EmptyString) rest)
      end
  end.

(** A needle is never empty here. *)
Definition replace_all (needle template s : string) : string :=
  match needle with
  | EmptyString => s
  | _ => replace_from needle template 0 EmptyString s
  end.

End JsString.

(** ** A fragment of regular expressions

    Sources built from literal characters, escaped characters, ".", the
    greedy quantifiers "*", "+" and "?" on a single character or ".",
    capturing groups around sequences, and the assertions "^" and "$".
    Matching backtracks as the language prescribes: a quantifier takes as
    many characters as it can and gives them back one at a time. *)
Module RegExp.

Inductive Atom :=
| Lit (c : ascii)
| AnyChar.

Inductive Item :=
| One (a : Atom)
| Star (a : Atom)
| Opt (a : Atom)
| Open (group : nat)
| Close (group : nat)
| Bol
| Eol.

(** A compiled expression: its items and the number of its groups. *)
Record t := mk { items : list Item; groups : nat }.

(** Line terminators, which "." does not match. *)
Definition is_line_terminator (c : ascii) : bool :=
  (Ascii.eqb c "010" || Ascii.eqb c "013")%char.

Definition atom_matches (a : Atom) (c : ascii) : bool :=
  match a with
  | Lit l => Ascii.eqb l c
  | AnyChar => negb (is_line_terminator c)
  end.

(** Characters with a meaning of their own in a source. *)
Definition is_syntax (c : ascii) : bool :=
  existsb (Ascii.eqb c)
    ["^"; "$"; "\"; "."; "*"; "+"; "?"; "("; ")"; "["; "]"; "{"; "}"; "|"; "/"]%char.

(** The parser reads the source from left to right.  [acc] holds the items
    read so far, the last one first; [opened] the groups not closed yet, the
    innermost first; [next] the number of the next group.  [None]: the
    source is outside the fragment (or is no regular expression at all). *)
Fixpoint parse_from (src : list ascii) (acc : list Item) (opened : list nat) (next : nat)
  : option t :=
  match src with
  | [] => match opened with
          | [] => Some {| items := rev acc; groups := next - 1 |}
          | _ => None
          end
  | c :: rest =>
      let quantify (q : Atom -> Item) :=
        match acc with
        | One a :: acc' => parse_from rest (q a :: acc') opened next
        | _ => None
        end in
      if Ascii.eqb c "\" then
        match rest with
        | e :: rest' => if is_syntax e then parse_from rest' (One (Lit e) :: acc) opened next
                        else None
        | [] => None
        end
      else if Ascii.eqb c "." then parse_from rest (One AnyChar :: acc) opened next
      else if Ascii.eqb c "*" then quantify Star
      else if Ascii.eqb c "+" then
        match acc with
        | One a :: acc' => parse_from rest (Star a :: One a :: acc') opened next
        | _ => None
        end
      else if Ascii.eqb c "?" then quantify Opt
      else if Ascii.eqb c "(" then
        match rest with
        | "?"%char :: _ => None
        | _ => parse_from rest (Open next :: acc) (next :: opened) (S next)
        end
      else if Ascii.eqb c ")" then
        match opened with
        | g :: opened' => parse_from rest (Close g :: acc) opened' next
        | [] => None
        end
      else if Ascii.eqb c "^" then parse_from rest (Bol :: acc) opened next
      else if Ascii.eqb c "$" then parse_from rest (Eol :: acc) opened next
      else if is_syntax c && negb (Ascii.eqb c "/") then None
      else parse_from rest (One (Lit c) :: acc) opened next
  end.

(** [new RegExp(source)] *)
Definition compile (source : string) : option t :=
  parse_from (list_ascii_of_string source) [] [] 1.

(** The captures of a match in progress: for each group the position where
    it was opened, and the span it closed on. *)
Record Captures := mkCaptures {
  started : list (nat * nat);
  closed : list (nat * (nat * nat))
}.

Fixpoint lookup {A} (g : nat) (l : list (nat * A)) : option A :=
  match l with
  | [] => None
  | (k, v) :: rest => if Nat.eqb k g then Some v else lookup g rest
  end.

(** The matcher proper: [run items s pos caps] matches [items] against the
    text [s] that starts at position [pos], and returns the position where
    the match ends and its captures. *)
Fixpoint run (its : list Item) : list ascii -> nat -> Captures -> option (nat * Captures) :=
  match its with
  | [] => fun s pos caps => Some (pos, caps)
  | One a :: rest => fun s pos caps =>
      match s with
      | c :: s' => if atom_matches a c then run rest s' (S pos) caps else None
      | [] => None
      end
  | Star a :: rest =>
      fix star (s : list ascii) (pos : nat) (caps : Captures) : option (nat * Captures) :=
        match s with
        | c :: s' =>
            if atom_matches a c then
              match star s' (S pos) caps with
              | Some r => Some r
              | None => run rest s pos caps
              end
            else run rest s pos caps
        | [] => run rest s pos caps
        end
  | Opt a :: rest => fun s pos caps =>
      match s with
      | c :: s' =>
          if atom_matches a c then
            match run rest s' (S pos) caps with
            | Some r => Some r
            | None => run rest s pos caps
            end
          else run rest s pos caps
      | [] => run rest s pos caps
      end
  | Open g :: rest => fun s pos caps =>
      run rest s pos {| started := (g, pos) :: started caps; closed := closed caps |}
  | Close g :: rest => fun s pos caps =>
      match lookup g (started caps) with
      | Some from =>
          run rest s pos {| started := started caps;
                            closed := (g, (from, pos)) :: closed caps |}
      | None => None
      end
  | Bol :: rest => fun s pos caps => if Nat.eqb pos 0 then run rest s pos caps else None
  | Eol :: rest => fun s pos caps =>
      match s with
      | [] => run rest s pos caps
      | _ => None
      end
  end.

(** The first position from which the expression matches. *)
Fixpoint search (its : list Item) (s : list ascii) (pos : nat)
  : option (nat * (nat * Captures)) :=
  match run its s pos {| started := []; closed := [] |} with
  | Some r => Some (pos, r)
  | None =>
      match s with
      | _ :: s' => search its s' (S pos)
      | [] => None
      end
  end.

(** The result of [text.match(regexp)] for an expression without flags. *)
Inductive ExecResult :=
| ExecThrown
| ExecNull
| ExecArray (matches : list (option string)).

Definition span (text : string) (from to : nat) : string :=
  String.substring from (to - from) text.

(** The match array: the matched text, then the text of each group
    ([None], that is [undefined], for a group that took no part). *)
Definition match_array (re : t) (text : string) (from to : nat) (caps : Captures)
  : list (option string) :=
  Some (span text from to)
  :: map (fun g => match lookup g (closed caps) with
                   | Some (a, b) => Some (span text a b)
                   | None => None
                   end)
         (seq 1 (groups re)).

(** [text.match(new RegExp(source))]; a source outside the fragment is
    answered as if the constructor threw. *)
Definition exec (source text : string) : ExecResult :=
  match compile source with
  | None => ExecThrown
  | Some re =>
      match search (items re) (list_ascii_of_string text) 0 with
      | Some (from, (to, caps)) => ExecArray (match_array re text from to caps)
      | None => ExecNull
      end
  end.

End RegExp.

(** * Router *)
Module Router.
Import RegExp.
Local Open Scope string_scope.

(** [string | RegExp]; a regular expression is given by its source (it has
    no flags). *)
Inductive Pattern :=
| PString (s : string)
| PRegExp (source : string).

(** [string | ((context, matches) => string)] *)
Inductive Target :=
| TString (s : string)
| TFunction (f : RequestContext -> list (option string) -> string).

Inductive RouteType := redirect | rewrite | proxy.

Definition RouteType_name (ty : RouteType) : string :=
  match ty with
  | redirect => "redirect"
  | rewrite => "rewrite"
  | proxy => "proxy"
  end.

Record RouteRule := mkRule {
  name : string;
  pattern : Pattern;
  target : Target;
  weight : option Z;
  enabled : option bool;
  condition : option (RequestContext -> bool);
  type : option RouteType
}.

Record RouteMatch := mkMatch {
  rule : RouteRule;
  targetUrl : string;
  matches : list (option string)
}.

Record t := mk { rules : list RouteRule }.

Definition create : t := {| rules := [] |}.

(** [addRule(rule)]: the defaults, overridden by the fields the caller gave. *)
Definition addRule (r : RouteRule) (router : t) : t :=
  {| rules := rules router ++
       [{| name := name r; pattern := pattern r; target := target r;
           weight := match weight r with None => Some 1%Z | w => w end;
           enabled := match enabled r with None => Some true | e => e end;
           condition := condition r;
           type := match type r with None => Some rewrite | ty => ty end |}] |}.

Definition addRules (l : list RouteRule) (router : t) : t :=
  fold_left (fun acc r => addRule r acc) l router.

(** [removeRule(name)] *)
Definition removeRule (n : string) (router : t) : t :=
  {| rules := List.filter (fun r => negb (String.eqb (name r) n)) (rules router) |}.

(** [rules.find(r => r.name === name)], then [rule.enabled = value]. *)
Fixpoint set_enabled (n : string) (value : bool) (l : list RouteRule) : list RouteRule :=
  match l with
  | [] => []
  | r :: rest =>
      if String.eqb (name r) n then
        {| name := name r; pattern := pattern r; target := target r; weight := weight r;
           enabled := Some value; condition := condition r; type := type r |} :: rest
      else r :: set_enabled n value rest
  end.

Definition enableRule (n : string) (router : t) : t :=
  {| rules := set_enabled n true (rules router) |}.

Definition disableRule (n : string) (router : t) : t :=
  {| rules := set_enabled n false (rules router) |}.

Section Engine.
(** [text.match(new RegExp(source))] of the host; the first argument is the
    source. *)
Variable host_exec : string -> string -> ExecResult.

(** [_matchPattern(url, pattern)] *)
Definition _matchPattern (url : string) (p : Pattern) : ExecResult :=
  match p with
  | PString s =>
      let regexPattern := JsString.replace_all "?" "." (JsString.replace_all "*" ".*" s) in
      host_exec ("^" ++ regexPattern ++ "$") url
  | PRegExp source => host_exec source url
  end.

(** The text a match array entry is replaced with: [String(match)]. *)
Definition to_text (o : option string) : string :=
  match o with
  | Some s => s
  | None => "undefined"
  end.

(** [matches.forEach((match, index) => { result = result.replace(...) })] *)
Fixpoint substitute (l : list (option string)) (index : nat) (result : string) : string :=
  match l with
  | [] => result
  | m :: rest =>
      substitute rest (S index)
        (JsString.replace_all ("$" ++ JsString.show_nat index) (to_text m) result)
  end.

(** [_resolveTarget(target, context, matches)] *)
Definition _resolveTarget (tg : Target) (context : RequestContext)
  (l : list (option string)) : string :=
  match tg with
  | TFunction f => f context l
  | TString s => substitute l 0 s
  end.

(** What [match] gives: an exception of the host's [RegExp] let through,
    [null], or the match. *)
Inductive MatchResult :=
| Thrown
| NoRoute
| Route (m : RouteMatch).

(** [rule.enabled] read as a condition. *)
Definition is_enabled (r : RouteRule) : bool :=
  match enabled r with
  | Some true => true
  | _ => false
  end.

(** [rule.condition && !rule.condition(context)] *)
Definition condition_fails (r : RouteRule) (context : RequestContext) : bool :=
  match condition r with
  | Some c => negb (c context)
  | None => false
  end.

(** The loop of [match(context)] over the rules. *)
Fixpoint match_rules (l : list RouteRule) (context : RequestContext) : MatchResult :=
  match l with
  | [] => NoRoute
  | r :: rest =>
      if negb (is_enabled r) then match_rules rest context
      else if condition_fails r context then match_rules rest context
      else
        match _matchPattern (ctx_url context) (pattern r) with
        | ExecThrown => Thrown
        | ExecNull => match_rules rest context
        | ExecArray l' =>
            Route {| rule := r;
                     targetUrl := _resolveTarget (target r) context l';
                     matches := l' |}
        end
  end.

(** [match(context)] *)
Definition match_ (router : t) (context : RequestContext) : MatchResult :=
  match_rules (rules router) context.

(** [rule.type] as the value stored in the metadata. *)
Definition type_value (r : RouteRule) : JsValue :=
  match type r with
  | Some ty => JsString (RouteType_name ty)
  | None => JsUndefined
  end.

(** [route(context)]; [None] when [match] threw. *)
Definition route (router : t) (context : RequestContext) : option RequestContext :=
  match match_ router context with
  | Thrown => None
  | NoRoute => Some context
  | Route m =>
      let metadata := match ctx_metadata context with Some md => md | None => ∅ end in
      let metadata1 := <["originalUrl" := JsString (ctx_url context)]> metadata in
      let metadata2 := <["routeRule" := JsString (name (rule m))]> metadata1 in
      let metadata3 := <["routeType" := type_value (rule m)]> metadata2 in
      Some {| ctx_id := ctx_id context; ctx_type := ctx_type context;
              ctx_timestamp := ctx_timestamp context;
              ctx_url := targetUrl m;
              ctx_method := ctx_method context; ctx_headers := ctx_headers context;
              ctx_metadata := Some metadata3 |}
  end.

End Engine.

(** ** [RouterBuilder] *)

Definition plainRule (n : string) (p : Pattern) (tg : string) (ty : RouteType) : RouteRule :=
  {| name := n; pattern := p; target := TString tg; weight := None; enabled := None;
     condition := None; type := Some ty |}.

Definition builder_redirect (from to : string) (router : t) : t :=
  addRule (plainRule ("redirect-" ++ from) (PString from) to redirect) router.

Definition builder_rewrite (source to : string) (router : t) : t :=
  addRule (plainRule ("rewrite-" ++ source) (PRegExp source) to rewrite) router.

Definition builder_proxy (from to : string) (router : t) : t :=
  addRule (plainRule ("proxy-" ++ from) (PString from) to proxy) router.

(** [apiVersion(fromVersion, toVersion)] *)
Definition builder_apiVersion (fromVersion toVersion : string) (router : t) : t :=
  addRule (plainRule ("api-migration-" ++ fromVersion ++ "-to-" ++ toVersion)
             (PRegExp ("/api/" ++ fromVersion ++ "/(.*)"))
             ("/api/" ++ toVersion ++ "/$1") rewrite) router.

End Router.

(** * Decorators

    The second half of [packages/core]: the chain of request decorators and
    the decorators that come with it.  A decorator changes the context
    object it is given and returns it; here it is a function from the old
    context to the new one.  [TimestampDecorator], whose response side
    subtracts a metadata value of any type from a time, is not part of the
    model. *)
Module Decorators.
Local Open Scope string_scope.

(** [ResponseContext]; a header may hold any value once a decorator has
    copied one from the metadata. *)
Record ResponseContext := mkResponse {
  res_id : string;
  res_status : option Z;
  res_statusText : option string;
  res_headers : option (gmap string JsValue);
  res_data : option JsValue;
  res_error : option string;
  res_timestamp : Z;
  res_duration : Z;
  res_metadata : option (gmap string JsValue)
}.

(** [RequestDecorator]; [decorateResponse] is optional.  A decorator is
    taken to leave the request context alone when it decorates a response,
    as the ones below do. *)
Record RequestDecorator := mkDecorator {
  decorateRequest : RequestContext -> RequestContext;
  decorateResponse : option (RequestContext -> ResponseContext -> ResponseContext)
}.

(** ** [DecoratorChain] *)
Record DecoratorChain := mkChain { decorators : list RequestDecorator }.

Definition create : DecoratorChain := {| decorators := [] |}.

(** [add(decorator)] *)
Definition add (decorator : RequestDecorator) (chain : DecoratorChain) : DecoratorChain :=
  {| decorators := decorators chain ++ [decorator] |}.

(** [applyToRequest(context)] *)
Definition applyToRequest (chain : DecoratorChain) (context : RequestContext) : RequestContext :=
  fold_left (fun result decorator => decorateRequest decorator result) (decorators chain) context.

(** [applyToResponse(context, response)] *)
Definition applyToResponse (chain : DecoratorChain) (context : RequestContext)
  (response : ResponseContext) : ResponseContext :=
  fold_left (fun result decorator =>
               match decorateResponse decorator with
               | Some decorate => decorate context result
               | None => result
               end)
            (decorators chain) response.

(** ** The decorators *)

(** [context.headers || {}] and [context.metadata || {}] *)
Definition headers_or_empty (context : RequestContext) : gmap string string :=
  match ctx_headers context with
  | Some h => h
  | None => ∅
  end.

Definition metadata_or_empty (context : RequestContext) : gmap string JsValue :=
  match ctx_metadata context with
  | Some md => md
  | None => ∅
  end.

Definition response_headers_or_empty (response : ResponseContext) : gmap string JsValue :=
  match res_headers response with
  | Some h => h
  | None => ∅
  end.

Definition response_metadata_or_empty (response : ResponseContext) : gmap string JsValue :=
  match res_metadata response with
  | Some md => md
  | None => ∅
  end.

Definition set_headers (h : gmap string string) (context : RequestContext) : RequestContext :=
  {| ctx_id := ctx_id context; ctx_type := ctx_type context;
     ctx_timestamp := ctx_timestamp context; ctx_url := ctx_url context;
     ctx_method := ctx_method context; ctx_headers := Some h;
     ctx_metadata := ctx_metadata context |}.

Definition set_metadata (md : gmap string JsValue) (context : RequestContext) : RequestContext :=
  {| ctx_id := ctx_id context; ctx_type := ctx_type context;
     ctx_timestamp := ctx_timestamp context; ctx_url := ctx_url context;
     ctx_method := ctx_method context; ctx_headers := ctx_headers context;
     ctx_metadata := Some md |}.

Definition set_response_headers (h : gmap string JsValue) (response : ResponseContext)
  : ResponseContext :=
  {| res_id := res_id response; res_status := res_status response;
     res_statusText := res_statusText response; res_headers := Some h;
     res_data := res_data response; res_error := res_error response;
     res_timestamp := res_timestamp response; res_duration := res_duration response;
     res_metadata := res_metadata response |}.

Definition set_response_metadata (md : gmap string JsValue) (response : ResponseContext)
  : ResponseContext :=
  {| res_id := res_id response; res_status := res_status response;
     res_statusText := res_statusText response; res_headers := res_headers response;
     res_data := res_data response; res_error := res_error response;
     res_timestamp := res_timestamp response; res_duration := res_duration response;
     res_metadata := Some md |}.

(** The truthiness of a value. *)
Definition js_truthy (v : JsValue) : bool :=
  match v with
  | JsUndefined => false
  | JsString s => negb (String.eqb s "")
  | JsNumber z => negb (z =? 0)%Z
  | JsBool b => b
  end.

(** [this.traceId || context.id] *)
Definition traceId_or_id (traceId : option string) (context : RequestContext) : string :=
  match traceId with
  | Some s => if String.eqb s "" then ctx_id context else s
  | None => ctx_id context
  end.

(** [TracingDecorator]; [requestTime] is the value of
    [new Date().toISOString()] when the request is decorated. *)
Definition TracingDecorator (traceId : option string) (requestTime : string)
  : RequestDecorator :=
  {| decorateRequest := fun context =>
       let headers1 := <["x-trace-id" := traceId_or_id traceId context]>
                         (headers_or_empty context) in
       let headers2 := <["x-request-time" := requestTime]> headers1 in
       let context1 := set_headers headers2 context in
       set_metadata (<["traceId" := JsString (traceId_or_id traceId context)]>
                       (metadata_or_empty context1)) context1;
     decorateResponse := Some (fun context response =>
       let traced := match metadata_or_empty context !! "traceId" with
                     | Some v => if js_truthy v then v else JsString (ctx_id context)
                     | None => JsString (ctx_id context)
                     end in
       set_response_headers (<["x-trace-id" := traced]> (response_headers_or_empty response))
         response) |}.

(** [CompressionDecorator] *)
Definition CompressionDecorator : RequestDecorator :=
  {| decorateRequest := fun context =>
       set_headers (<["accept-encoding" := "gzip, deflate, br"]> (headers_or_empty context))
         context;
     decorateResponse := Some (fun _context response =>
       match response_headers_or_empty response !! "content-encoding" with
       | Some encoding =>
           if js_truthy encoding then
             let metadata1 := <["compressed" := JsBool true]>
                                (response_metadata_or_empty response) in
             set_response_metadata (<["encoding" := encoding]> metadata1) response
           else response
       | None => response
       end) |}.

(** [SecurityHeadersDecorator] *)
Definition SecurityHeadersDecorator : RequestDecorator :=
  {| decorateRequest := fun context =>
       let headers1 := <["x-content-type-options" := "nosniff"]> (headers_or_empty context) in
       let headers2 := <["x-frame-options" := "DENY"]> headers1 in
       set_headers (<["x-xss-protection" := "1; mode=block"]> headers2) context;
     decorateResponse := None |}.

(** [CorsDecorator]; the constructor's default origin is "*". *)
Definition CorsDecorator (origin : string) : RequestDecorator :=
  {| decorateRequest := fun context =>
       set_headers (<["origin" := origin]> (headers_or_empty context)) context;
     decorateResponse := Some (fun _context response =>
       set_response_headers
         (<["access-control-allow-origin" := JsString origin]>
            (response_headers_or_empty response)) response) |}.

End Decorators.

(** * Properties

    ** Comparisons of fractions *)

Lemma Qle_bool_false (a b : Q) : (b < a)%Q -> Qle_bool a b = false.
Proof.
  intros Hlt. destruct (Qle_bool a b) eqn:E; [|reflexivity].
  apply Qle_bool_iff in E. lra.
Qed.

Lemma Qle_bool_true (a b : Q) : (a <= b)%Q -> Qle_bool a b = true.
Proof. apply Qle_bool_iff. Qed.

(** ** Properties of the circuit breaker *)
Module CircuitBreakerFacts.
Import CircuitBreaker.
Local Open Scope Z_scope.

(** A failing outcome: the operation rejected, or the timeout won the race. *)
Definition is_failure {T E} (o : Outcome T E) : bool :=
  match o with
  | Resolved _ => false
  | _ => true
  end.

(** The timestamps that [_onFailure] keeps at [now]. *)
Definition kept_at (now : Z) (cb : t) : list Z :=
  List.filter (fun ts => now - monitoringPeriod cb <? ts) (requestTimestamps cb ++ [now]).

(** The state reached by [k] failures inside one window, none pruned. *)
Definition counting_failures (k : Z) (lo hi : Z) (cb : t) : Prop :=
  state cb = CLOSED /\ totalRequests cb = k /\ failureCount cb = k /\
  Z.of_nat (length (requestTimestamps cb)) = k /\
  Forall (fun ts => lo <= ts) (requestTimestamps cb) /\
  monitoringPeriod cb = hi - lo /\
  (failureThreshold cb <= 1)%Q.

Lemma filter_all_kept (f : Z -> bool) (l : list Z) :
  Forall (fun x => f x = true) l -> List.filter f l = l.
Proof.
  induction 1 as [|x l Hx _ IH]; simpl; [reflexivity|].
  rewrite Hx, IH. reflexivity.
Qed.

Lemma settle_failure {T E} (o : Outcome T E) now cb :
  is_failure o = true -> fst (allow_settle now o cb) = _onFailure now cb.
Proof. destruct o; simpl; intros H; try discriminate; reflexivity. Qed.

Lemma allow_closed_failure {T E} (o : Outcome T E) now later cb (w : nat) :
  state cb = CLOSED -> is_failure o = true ->
  fst (allow now later (counting o) (cb, w)) = (_onFailure later cb, S w).
Proof.
  intros Hs Ho. unfold allow, allow_enter. rewrite Hs. simpl.
  destruct o; simpl in *; try discriminate; reflexivity.
Qed.

Lemma rate_reaches_full k thr : 0 < k -> (thr <= 1)%Q -> rate_reaches k k thr = true.
Proof.
  intros Hk Hthr. unfold rate_reaches.
  destruct (Z.eqb_spec k 0); [lia|].
  apply Qle_bool_iff.
  assert (Hone : (inject_Z k / inject_Z k == 1)%Q).
  { apply Qmult_inv_r. intros H. apply n.
    unfold Qeq, inject_Z in H. simpl in H. lia. }
  rewrite Hone. assumption.
Qed.

(** One more failure inside the window: the counts advance by one, nothing
    is pruned, and the breaker opens at the tenth. *)
Lemma onFailure_in_window k lo hi now cb :
  0 <= k -> counting_failures k lo hi cb -> lo <= now < hi ->
  let cb' := _onFailure now cb in
  (k + 1 < 10 -> counting_failures (k + 1) lo hi cb') /\
  (10 <= k + 1 -> state cb' = OPEN).
Proof.
  intros Hk (Hs & Ht & Hf & Hl & Hall & Hmp & Hthr) Hnow.
  assert (Hkeep : List.filter (fun ts => now - monitoringPeriod cb <? ts)
                    (requestTimestamps cb ++ [now]) = requestTimestamps cb ++ [now]).
  { apply filter_all_kept. apply Forall_app. split.
    - eapply List.Forall_impl; [|exact Hall]. simpl. intros a Ha. apply Z.ltb_lt. lia.
    - constructor; [|constructor]. apply Z.ltb_lt. lia. }
  unfold _onFailure, _cleanOldRequests. cbn -[Z.add Z.sub Z.of_nat Z.ltb Z.leb Z.min].
  rewrite Hkeep. rewrite length_app, Nat2Z.inj_add. simpl length.
  rewrite Hl, Ht, Hf.
  replace (k + Z.of_nat 1 <? k + 1) with false by (symmetry; apply Z.ltb_ge; lia).
  cbn -[Z.add Z.sub Z.of_nat Z.ltb Z.leb Z.min]. rewrite Hs.
  rewrite rate_reaches_full by (assumption || lia). simpl andb.
  split; intros Hbound.
  - replace (10 <=? k + 1) with false by (symmetry; apply Z.leb_gt; lia).
    unfold counting_failures. cbn -[Z.add Z.sub Z.of_nat Z.ltb Z.leb Z.min].
    repeat split; try assumption; try reflexivity.
    + rewrite length_app, Nat2Z.inj_add. simpl length. lia.
    + apply Forall_app. split; [assumption|]. constructor; [lia|constructor].
  - replace (10 <=? k + 1) with true by (symmetry; apply Z.leb_le; lia).
    reflexivity.
Qed.

Lemma failures_in_window_open lo hi :
  forall (calls : list (Z * Outcome unit unit)) k cb w,
    0 <= k < 10 -> counting_failures k lo hi cb ->
    k + Z.of_nat (length calls) = 10 ->
    Forall (fun c => lo <= fst c < hi /\ is_failure (snd c) = true) calls ->
    state (fst (run_calls calls (cb, w))) = OPEN.
Proof.
  induction calls as [|[now o] rest IH]; intros k cb w Hk Hinv Hlen Hall.
  - simpl in Hlen. lia.
  - inversion Hall as [|? ? [Hnow Ho] Hrest]; subst. simpl in Hnow, Ho.
    simpl run_calls.
    rewrite (allow_closed_failure o now now cb w) by (try apply Hinv; assumption).
    destruct (onFailure_in_window k lo hi now cb (proj1 Hk) Hinv Hnow) as [Hstay Hopen].
    destruct rest as [|c rest'].
    + simpl. apply Hopen. simpl in Hlen. lia.
    + simpl length in Hlen.
      apply (IH (k + 1)); try assumption; [lia| |simpl length; lia].
      apply Hstay. lia.
Qed.

(** The configuration [{ failureThreshold: 0.5 }]. *)
Definition halfConfig : CircuitBreakerConfig :=
  {| cfg_failureThreshold := Some (1 # 2); cfg_successThreshold := None; cfg_timeout := None;
     cfg_resetTimeout := None; cfg_monitoringPeriod := None |}.

(** The configuration [{ successThreshold: 1, resetTimeout: 1000 }]. *)
Definition quickConfig : CircuitBreakerConfig :=
  {| cfg_failureThreshold := None; cfg_successThreshold := Some 1; cfg_timeout := None;
     cfg_resetTimeout := Some 1000; cfg_monitoringPeriod := None |}.

Lemma cleanOldRequests_fields now cb :
  let kept := List.filter (fun ts => now - monitoringPeriod cb <? ts) (requestTimestamps cb) in
  let pruned := Z.of_nat (length kept) <? totalRequests cb in
  state (_cleanOldRequests now cb) = state cb /\
  requestTimestamps (_cleanOldRequests now cb) = kept /\
  totalRequests (_cleanOldRequests now cb) =
    (if pruned then Z.of_nat (length kept) else totalRequests cb) /\
  failureCount (_cleanOldRequests now cb) =
    (if pruned then Z.min (failureCount cb) (Z.of_nat (length kept)) else failureCount cb) /\
  successCount (_cleanOldRequests now cb) = successCount cb /\
  failureThreshold (_cleanOldRequests now cb) = failureThreshold cb /\
  successThreshold (_cleanOldRequests now cb) = successThreshold cb.
Proof.
  intros kept pruned. unfold _cleanOldRequests. cbv zeta.
  fold kept. change (totalRequests (set_requestTimestamps kept cb)) with (totalRequests cb).
  fold pruned. destruct pruned; repeat split; reflexivity.
Qed.

Lemma onFailure_closed_counts now cb :
  state cb = CLOSED ->
  let cb' := _onFailure now cb in
  let kept := kept_at now cb in
  let pruned := Z.of_nat (length kept) <? totalRequests cb + 1 in
  requestTimestamps cb' = kept /\
  totalRequests cb' = (if pruned then Z.of_nat (length kept) else totalRequests cb + 1) /\
  failureCount cb' =
    (if pruned then Z.min (failureCount cb + 1) (Z.of_nat (length kept))
     else failureCount cb + 1) /\
  failureThreshold cb' = failureThreshold cb /\
  state cb' =
    (if rate_reaches (failureCount cb') (totalRequests cb') (failureThreshold cb)
        && (10 <=? totalRequests cb')
     then OPEN else CLOSED).
Proof.
  intros Hs cb' kept pruned.
  set (cb4 := set_requestTimestamps (requestTimestamps cb ++ [now])
                (set_lastFailureTime (Some now)
                   (set_failureCount (failureCount cb + 1)
                      (set_totalRequests (totalRequests cb + 1) cb)))).
  destruct (cleanOldRequests_fields now cb4) as (Hst & Hts & Ht & Hf & _ & Hthr & _).
  change (monitoringPeriod cb4) with (monitoringPeriod cb) in Hts, Ht, Hf.
  change (requestTimestamps cb4) with (requestTimestamps cb ++ [now]) in Hts, Ht, Hf.
  change (totalRequests cb4) with (totalRequests cb + 1) in Ht, Hf.
  change (failureCount cb4) with (failureCount cb + 1) in Hf.
  change (state cb4) with (state cb) in Hst.
  change (failureThreshold cb4) with (failureThreshold cb) in Hthr.
  fold (kept_at now cb) in Hts, Ht, Hf. fold kept in Hts, Ht, Hf. fold pruned in Ht, Hf.
  rewrite Hs in Hst.
  assert (E : cb' =
    if rate_reaches (failureCount (_cleanOldRequests now cb4))
         (totalRequests (_cleanOldRequests now cb4))
         (failureThreshold (_cleanOldRequests now cb4))
       && (10 <=? totalRequests (_cleanOldRequests now cb4))
    then set_state OPEN (_cleanOldRequests now cb4) else _cleanOldRequests now cb4).
  { unfold cb'.
    change (_onFailure now cb) with
      (match state (_cleanOldRequests now cb4) with
       | HALF_OPEN => set_successCount 0 (set_state OPEN (_cleanOldRequests now cb4))
       | _ =>
           if rate_reaches (failureCount (_cleanOldRequests now cb4))
                (totalRequests (_cleanOldRequests now cb4))
                (failureThreshold (_cleanOldRequests now cb4))
              && (10 <=? totalRequests (_cleanOldRequests now cb4))
           then set_state OPEN (_cleanOldRequests now cb4)
           else _cleanOldRequests now cb4
       end).
    rewrite Hst. reflexivity. }
  assert (Ets : requestTimestamps cb' = requestTimestamps (_cleanOldRequests now cb4))
    by (rewrite E; destruct (_ && _); reflexivity).
  assert (Et : totalRequests cb' = totalRequests (_cleanOldRequests now cb4))
    by (rewrite E; destruct (_ && _); reflexivity).
  assert (Ef : failureCount cb' = failureCount (_cleanOldRequests now cb4))
    by (rewrite E; destruct (_ && _); reflexivity).
  assert (Eth : failureThreshold cb' = failureThreshold (_cleanOldRequests now cb4))
    by (rewrite E; destruct (_ && _); reflexivity).
  repeat split.
  - rewrite Ets. exact Hts.
  - rewrite Et. exact Ht.
  - rewrite Ef. exact Hf.
  - rewrite Eth. exact Hthr.
  - rewrite Et, Ef. rewrite <- Hthr. rewrite E at 1.
    destruct (_ && _); [reflexivity|exact Hst].
Qed.

Lemma rate_reaches_spec failures total threshold :
  10 <= total ->
  rate_reaches failures total threshold = true <->
  (threshold <= inject_Z failures / inject_Z total)%Q.
Proof.
  intros H10. unfold rate_reaches.
  destruct (Z.eqb_spec total 0); [lia|]. apply Qle_bool_iff.
Qed.




(** C2 (amended).  In the OPEN state with a recorded last failure: before
    resetTimeout has elapsed [allow] throws the circuit-open error, the
    breaker and the caller's world are unchanged whatever the operation is
    (it is not invoked); once resetTimeout has elapsed the breaker becomes
    HALF_OPEN and the operation is invoked.  While HALF_OPEN every call is
    let through: no count of outstanding trial calls is kept. *)
Theorem open_gate_rejects_or_half_opens {W T E : Type} :
  forall (cb : t) (w : W) (fn : Operation W T E) (now last : Z),
    state cb = OPEN -> lastFailureTime cb = Some last -> last <> 0 ->
    (now - last < resetTimeout cb ->
       forall later, allow now later fn (cb, w) = ((cb, w), Threw CircuitOpenError)) /\
    (resetTimeout cb <= now - last ->
       allow_enter now fn (cb, w) = ((set_state HALF_OPEN cb, fst (fn w)), Some (snd (fn w))) /\
       forall (cb2 : t) (w2 : W) (fn2 : Operation W T E) (now2 : Z),
         state cb2 = HALF_OPEN ->
         allow_enter now2 fn2 (cb2, w2) = ((cb2, fst (fn2 w2)), Some (snd (fn2 w2)))).
Proof.
  intros cb w fn now last Hs Hl Hz. split.
  - intros Hlt later. unfold allow, allow_enter, _shouldAttemptReset.
    rewrite Hs, Hl. destruct (Z.eqb_spec last 0); [contradiction|].
    replace (resetTimeout cb <=? now - last) with false by (symmetry; apply Z.leb_gt; lia).
    reflexivity.
  - intros Hge. split.
    + unfold allow_enter, _shouldAttemptReset.
      rewrite Hs, Hl. destruct (Z.eqb_spec last 0); [contradiction|].
      replace (resetTimeout cb <=? now - last) with true by (symmetry; apply Z.leb_le; lia).
      destruct (fn w). reflexivity.
    + intros cb2 w2 fn2 now2 Hs2. unfold allow_enter. rewrite Hs2.
      destruct (fn2 w2). reflexivity.
Qed.

(** A breaker opened by ten failures at time 5. *)
Definition opened : t * nat :=
  run_calls (repeat (5, ko) 10) (create emptyConfig, 0%nat).

(** The breaker [opened] holds, written out. *)
Definition openBreaker : t :=
  {| state := OPEN; failureCount := 10; successCount := 0; totalRequests := 10;
     lastFailureTime := Some 5; requestTimestamps := repeat 5 10;
     failureThreshold := 1 # 2; successThreshold := 5; timeout := 30000;
     resetTimeout := 60000; monitoringPeriod := 10000 |}.

Lemma opened_is_openBreaker : opened = (openBreaker, 10%nat).
Proof. vm_compute. reflexivity. Qed.

Lemma open_gate_witness :
  allow 6 6 (counting ok) (openBreaker, 10%nat) = ((openBreaker, 10%nat), Threw CircuitOpenError) /\
  allow_enter 60005 (counting ok) (openBreaker, 10%nat) =
    ((set_state HALF_OPEN openBreaker, 11%nat), Some ok).
Proof.
  assert (Hs : state openBreaker = OPEN) by reflexivity.
  assert (Hl : lastFailureTime openBreaker = Some 5) by reflexivity.
  assert (Hz : 5 <> 0) by lia.
  assert (Hlt : 6 - 5 < resetTimeout openBreaker) by (simpl; lia).
  assert (Hge : resetTimeout openBreaker <= 60005 - 5) by (simpl; lia).
  split.
  - exact (proj1 (open_gate_rejects_or_half_opens openBreaker 10%nat
                    (counting ok) 6 5 Hs Hl Hz) Hlt 6).
  - exact (proj1 (proj2 (open_gate_rejects_or_half_opens openBreaker 10%nat
                    (counting ok) 60005 5 Hs Hl Hz) Hge)).
Defined.

(** C2, as stated, fails: after resetTimeout a first call enters and makes
    the breaker HALF_OPEN; a second call entered while the first is still
    outstanding is let through too, so two trial operations have been invoked. *)
Lemma second_trial_call_enters_while_half_open :
  let st1 := fst (allow_enter 60005 (counting ok) opened) in
  let st2 := fst (allow_enter 60006 (counting ok) st1) in
  state (fst opened) = OPEN /\
  state (fst st1) = HALF_OPEN /\ snd st1 = S (snd opened) /\
  snd (allow_enter 60006 (counting ok) st1) = Some ok /\
  state (fst st2) = HALF_OPEN /\ snd st2 = S (S (snd opened)).
Proof. vm_compute. repeat split; reflexivity. Qed.

(** C3, at its failing input: with successThreshold = 1 and resetTimeout =
    1000, ten failures at time 5 open the breaker; the successful trial call
    at time 1005 closes it with failureCount = 0 and successCount = 0, but
    totalRequests is 10 and the ten timestamps are still held, where
    [reset] leaves 0 and none. *)
Theorem recovery_keeps_totalRequests :
  let cb := fst (run_calls (repeat (5, ko) 10 ++ [(1005, ok)]) (create quickConfig, 0%nat)) in
  state cb = CLOSED /\ failureCount cb = 0 /\ successCount cb = 0 /\
  totalRequests cb = 10 /\ length (requestTimestamps cb) = 10%nat /\
  totalRequests (reset cb) = 0 /\ requestTimestamps (reset cb) = [].
Proof. vm_compute. repeat split; reflexivity. Qed.

(** ** The HALF_OPEN state *)

Lemma onSuccess_unfold now cb :
  let cb2 := _cleanOldRequests now (set_totalRequests (totalRequests cb + 1) cb) in
  _onSuccess now cb =
  match state cb2 with
  | HALF_OPEN =>
      if successThreshold cb2 <=? successCount cb2 + 1
      then set_successCount 0 (set_failureCount 0 (set_state CLOSED
             (set_successCount (successCount cb2 + 1) cb2)))
      else set_successCount (successCount cb2 + 1) cb2
  | _ => cb2
  end.
Proof. reflexivity. Qed.

Lemma onSuccess_half_open now cb :
  state cb = HALF_OPEN ->
  successThreshold (_onSuccess now cb) = successThreshold cb /\
  (successThreshold cb <= successCount cb + 1 ->
   state (_onSuccess now cb) = CLOSED /\ failureCount (_onSuccess now cb) = 0 /\
   successCount (_onSuccess now cb) = 0) /\
  (successCount cb + 1 < successThreshold cb ->
   state (_onSuccess now cb) = HALF_OPEN /\
   successCount (_onSuccess now cb) = successCount cb + 1).
Proof.
  intros Hs. rewrite onSuccess_unfold. cbv zeta.
  set (cb1 := set_totalRequests (totalRequests cb + 1) cb).
  destruct (cleanOldRequests_fields now cb1) as (Hst & _ & _ & _ & Hsc & _ & Hth).
  change (state cb1) with (state cb) in Hst.
  change (successCount cb1) with (successCount cb) in Hsc.
  change (successThreshold cb1) with (successThreshold cb) in Hth.
  rewrite Hs in Hst. rewrite Hst, Hth, Hsc.
  destruct (Z.leb_spec (successThreshold cb) (successCount cb + 1)).
  - split; [exact Hth|]. split; [intros _; repeat split|lia].
  - split; [exact Hth|]. split; [lia|]. intros _. split; [exact Hst|reflexivity].
Qed.

Lemma onSuccess_closed now cb :
  state cb = CLOSED -> failureCount cb = 0 -> successCount cb = 0 ->
  state (_onSuccess now cb) = CLOSED /\ failureCount (_onSuccess now cb) = 0 /\
  successCount (_onSuccess now cb) = 0.
Proof.
  intros Hs Hf Hc. rewrite onSuccess_unfold. cbv zeta.
  set (cb1 := set_totalRequests (totalRequests cb + 1) cb).
  destruct (cleanOldRequests_fields now cb1) as (Hst & _ & _ & Hfc & Hsc & _).
  change (state cb1) with (state cb) in Hst.
  change (failureCount cb1) with (failureCount cb) in Hfc.
  change (successCount cb1) with (successCount cb) in Hsc.
  rewrite Hs in Hst. rewrite Hst.
  split; [exact Hst|]. split; [|congruence].
  rewrite Hfc, Hf. destruct (_ <? _); [|reflexivity]. lia.
Qed.

Lemma onFailure_half_open now cb :
  state cb = HALF_OPEN ->
  state (_onFailure now cb) = OPEN /\ successCount (_onFailure now cb) = 0.
Proof.
  intros Hs.
  set (cb4 := set_requestTimestamps (requestTimestamps cb ++ [now])
                (set_lastFailureTime (Some now)
                   (set_failureCount (failureCount cb + 1)
                      (set_totalRequests (totalRequests cb + 1) cb)))).
  destruct (cleanOldRequests_fields now cb4) as (Hst & _).
  change (state cb4) with (state cb) in Hst. rewrite Hs in Hst.
  change (_onFailure now cb) with
    (match state (_cleanOldRequests now cb4) with
     | HALF_OPEN => set_successCount 0 (set_state OPEN (_cleanOldRequests now cb4))
     | _ =>
         if rate_reaches (failureCount (_cleanOldRequests now cb4))
              (totalRequests (_cleanOldRequests now cb4))
              (failureThreshold (_cleanOldRequests now cb4))
            && (10 <=? totalRequests (_cleanOldRequests now cb4))
         then set_state OPEN (_cleanOldRequests now cb4)
         else _cleanOldRequests now cb4
     end).
  rewrite Hst. split; reflexivity.
Qed.

(** Successful calls one after the other, at the given times. *)
Definition successes (times : list Z) (cb : t) : t :=
  fold_left (fun acc now => _onSuccess now acc) times cb.

Lemma successes_closed times :
  forall cb, state cb = CLOSED -> failureCount cb = 0 -> successCount cb = 0 ->
  state (successes times cb) = CLOSED /\ failureCount (successes times cb) = 0 /\
  successCount (successes times cb) = 0.
Proof.
  induction times as [|now times IH]; intros cb Hs Hf Hc; simpl; [repeat split; assumption|].
  destruct (onSuccess_closed now cb Hs Hf Hc) as (Hs' & Hf' & Hc').
  apply IH; assumption.
Qed.

Lemma successes_half_open times :
  forall cb,
    state cb = HALF_OPEN -> successCount cb < successThreshold cb ->
    successThreshold cb - successCount cb <= Z.of_nat (length times) ->
    state (successes times cb) = CLOSED /\ failureCount (successes times cb) = 0 /\
    successCount (successes times cb) = 0.
Proof.
  induction times as [|now times IH]; intros cb Hs Hlt Hlen.
  - simpl in Hlen. lia.
  - simpl successes.
    destruct (onSuccess_half_open now cb Hs) as (Hth & Hclose & Hstay).
    destruct (Z.le_gt_cases (successThreshold cb) (successCount cb + 1)) as [Hle|Hgt].
    + destruct (Hclose Hle) as (Hs' & Hf' & Hc'). apply successes_closed; assumption.
    + destruct (Hstay Hgt) as (Hs' & Hc'). apply IH.
      * exact Hs'.
      * rewrite Hth, Hc'. exact Hgt.
      * rewrite Hth, Hc'. simpl length in Hlen. lia.
Qed.

(** X1.  In HALF_OPEN, with fewer successes counted than successThreshold,
    successThreshold successful calls in a row close the breaker with
    failureCount and successCount back at 0, and one failed call through
    [allow] reopens it. *)
Theorem half_open_closes_or_reopens :
  forall (cb : t) (times : list Z),
    state cb = HALF_OPEN ->
    0 <= successCount cb < successThreshold cb ->
    Z.of_nat (length times) = successThreshold cb ->
    (state (successes times cb) = CLOSED /\
     failureCount (successes times cb) = 0 /\ successCount (successes times cb) = 0) /\
    (forall (W T E : Type) (fn : Operation W T E) (w : W) (now later : Z),
       is_failure (snd (fn w)) = true ->
       state (fst (fst (allow now later fn (cb, w)))) = OPEN).
Proof.
  intros cb times Hs Hc Hlen. split.
  - apply successes_half_open; [exact Hs|lia|lia].
  - intros W T E fn w now later Hfail.
    unfold allow, allow_enter. rewrite Hs. destruct (fn w) as [w' o]. simpl in Hfail.
    pose proof (settle_failure o later cb Hfail) as Hsettle.
    destruct (allow_settle later o cb) as [cb' r]. simpl in Hsettle |- *.
    rewrite Hsettle. apply (onFailure_half_open later cb Hs).
Qed.

(** A breaker in HALF_OPEN: [openBreaker] after its resetTimeout. *)
Definition halfOpenBreaker : t := set_state HALF_OPEN openBreaker.

Lemma half_open_witness :
  state (successes [60005; 60006; 60007; 60008; 60009] halfOpenBreaker) = CLOSED /\
  state (fst (fst (allow 60005 60006 (counting ko) (halfOpenBreaker, 0%nat)))) = OPEN.
Proof.
  assert (Hs : state halfOpenBreaker = HALF_OPEN) by reflexivity.
  assert (Hc : 0 <= successCount halfOpenBreaker < successThreshold halfOpenBreaker)
    by (simpl; lia).
  assert (Hlen : Z.of_nat (length [60005; 60006; 60007; 60008; 60009])
                 = successThreshold halfOpenBreaker) by reflexivity.
  pose proof (half_open_closes_or_reopens halfOpenBreaker
                [60005; 60006; 60007; 60008; 60009] Hs Hc Hlen) as [Hclose Hreopen].
  split.
  - exact (proj1 Hclose).
  - exact (Hreopen nat unit unit (counting ko) 0%nat 60005 60006 eq_refl).
Defined.

(** ** What the counters count *)

(** [totalRequests] is the number of timestamps held, and [failureCount]
    lies between 0 and it. *)
Definition counts_kept_failures (cb : t) : Prop :=
  totalRequests cb = Z.of_nat (length (requestTimestamps cb)) /\
  0 <= failureCount cb <= totalRequests cb.

Lemma onSuccess_counts now cb :
  let cb2 := _cleanOldRequests now (set_totalRequests (totalRequests cb + 1) cb) in
  requestTimestamps (_onSuccess now cb) = requestTimestamps cb2 /\
  totalRequests (_onSuccess now cb) = totalRequests cb2 /\
  (failureCount (_onSuccess now cb) = failureCount cb2 \/ failureCount (_onSuccess now cb) = 0) /\
  lastFailureTime (_onSuccess now cb) = lastFailureTime cb2.
Proof.
  intros cb2. rewrite onSuccess_unfold. cbv zeta. fold cb2.
  destruct (state cb2); [repeat split; left; reflexivity..|].
  destruct (_ <=? _); repeat split; (left; reflexivity) || (right; reflexivity).
Qed.

Lemma onFailure_counts now cb :
  let cb5 := _cleanOldRequests now
               (set_requestTimestamps (requestTimestamps cb ++ [now])
                  (set_lastFailureTime (Some now)
                     (set_failureCount (failureCount cb + 1)
                        (set_totalRequests (totalRequests cb + 1) cb)))) in
  requestTimestamps (_onFailure now cb) = requestTimestamps cb5 /\
  totalRequests (_onFailure now cb) = totalRequests cb5 /\
  failureCount (_onFailure now cb) = failureCount cb5 /\
  (state (_onFailure now cb) = OPEN \/ state (_onFailure now cb) = state cb5).
Proof.
  intros cb5.
  change (_onFailure now cb) with
    (match state cb5 with
     | HALF_OPEN => set_successCount 0 (set_state OPEN cb5)
     | _ =>
         if rate_reaches (failureCount cb5) (totalRequests cb5) (failureThreshold cb5)
            && (10 <=? totalRequests cb5)
         then set_state OPEN cb5
         else cb5
     end).
  destruct (state cb5) eqn:Hs; try destruct (_ && _);
    repeat split; (left; reflexivity) || (right; assumption) || (right; reflexivity).
Qed.

Lemma onSuccess_keeps_counts now cb :
  counts_kept_failures cb ->
  counts_kept_failures (_onSuccess now cb) /\
  totalRequests (_onSuccess now cb) <= totalRequests cb.
Proof.
  intros [Ht Hf].
  destruct (onSuccess_counts now cb) as (Ets & Et & Ef & _).
  set (cb1 := set_totalRequests (totalRequests cb + 1) cb) in *.
  destruct (cleanOldRequests_fields now cb1) as (_ & Hts & Htot & Hfc & _).
  change (monitoringPeriod cb1) with (monitoringPeriod cb) in Hts, Htot, Hfc.
  change (requestTimestamps cb1) with (requestTimestamps cb) in Hts, Htot, Hfc.
  change (totalRequests cb1) with (totalRequests cb + 1) in Htot, Hfc.
  change (failureCount cb1) with (failureCount cb) in Hfc.
  set (kept := List.filter (fun ts => now - monitoringPeriod cb <? ts) (requestTimestamps cb))
    in *.
  assert (Hk : (length kept <= length (requestTimestamps cb))%nat)
    by apply List.filter_length_le.
  assert (Hp : (Z.of_nat (length kept) <? totalRequests cb + 1) = true)
    by (apply Z.ltb_lt; lia).
  rewrite Hp in Htot, Hfc.
  unfold counts_kept_failures. rewrite Ets, Et, Hts, Htot.
  split; [split; [reflexivity|]|lia].
  destruct Ef as [Ef|Ef]; rewrite Ef; [rewrite Hfc|]; lia.
Qed.

Lemma onFailure_keeps_counts now cb :
  counts_kept_failures cb -> counts_kept_failures (_onFailure now cb).
Proof.
  intros [Ht Hf].
  destruct (onFailure_counts now cb) as (Ets & Et & Ef & _).
  set (cb4 := set_requestTimestamps (requestTimestamps cb ++ [now])
                (set_lastFailureTime (Some now)
                   (set_failureCount (failureCount cb + 1)
                      (set_totalRequests (totalRequests cb + 1) cb)))) in *.
  destruct (cleanOldRequests_fields now cb4) as (_ & Hts & Htot & Hfc & _).
  change (monitoringPeriod cb4) with (monitoringPeriod cb) in Hts, Htot, Hfc.
  change (requestTimestamps cb4) with (requestTimestamps cb ++ [now]) in Hts, Htot, Hfc.
  change (totalRequests cb4) with (totalRequests cb + 1) in Htot, Hfc.
  change (failureCount cb4) with (failureCount cb + 1) in Hfc.
  set (kept := List.filter (fun ts => now - monitoringPeriod cb <? ts)
                 (requestTimestamps cb ++ [now])) in *.
  assert (Hk : (length kept <= length (requestTimestamps cb ++ [now]))%nat)
    by apply List.filter_length_le.
  rewrite length_app in Hk. simpl length in Hk.
  unfold counts_kept_failures. rewrite Ets, Et, Ef, Hts, Htot, Hfc.
  destruct (Z.ltb_spec (Z.of_nat (length kept)) (totalRequests cb + 1)); lia.
Qed.

(** X4.  The breaker counts failures only: [totalRequests] always equals the
    number of failure timestamps still held, with
    0 <= failureCount <= totalRequests.  This holds for a new breaker and
    after [reset], every call of [allow] keeps it, whatever its outcome and
    the times, and a successful call never raises [totalRequests]. *)
Theorem totalRequests_counts_kept_failures :
  (forall config, counts_kept_failures (create config)) /\
  (forall cb, counts_kept_failures (reset cb)) /\
  (forall (W T E : Type) (fn : Operation W T E) (w : W) (now later : Z) (cb : t),
     counts_kept_failures cb ->
     counts_kept_failures (fst (fst (allow now later fn (cb, w)))) /\
     (forall v, snd (allow now later fn (cb, w)) = Returned v ->
        totalRequests (fst (fst (allow now later fn (cb, w)))) <= totalRequests cb)) /\
  (forall config (calls : list (Z * Outcome unit unit)),
     counts_kept_failures (fst (run_calls calls (create config, 0%nat)))).
Proof.
  assert (Hnew : forall config, counts_kept_failures (create config))
    by (intros config; unfold counts_kept_failures; simpl; lia).
  assert (Hstep : forall (W T E : Type) (fn : Operation W T E) (w : W) (now later : Z) (cb : t),
     counts_kept_failures cb ->
     counts_kept_failures (fst (fst (allow now later fn (cb, w)))) /\
     (forall v, snd (allow now later fn (cb, w)) = Returned v ->
        totalRequests (fst (fst (allow now later fn (cb, w)))) <= totalRequests cb)).
  { intros W T E fn w now later cb Hinv.
    assert (Hhalf : counts_kept_failures (set_state HALF_OPEN cb)) by exact Hinv.
    unfold allow, allow_enter.
    destruct (state cb); [|destruct (_shouldAttemptReset now cb)|];
      try (simpl; split; [exact Hinv|discriminate]);
      destruct (fn w) as [w' [v|e|]]; simpl;
      try (split; [apply onFailure_keeps_counts; assumption|discriminate]);
      (split; [apply onSuccess_keeps_counts; assumption|intros _ _]).
    - apply onSuccess_keeps_counts; assumption.
    - apply (onSuccess_keeps_counts later (set_state HALF_OPEN cb) Hhalf).
    - apply onSuccess_keeps_counts; assumption. }
  split; [exact Hnew|]. split; [|split; [exact Hstep|]].
  - intros cb. unfold counts_kept_failures. simpl. lia.
  - intros config calls.
    assert (G : forall (st : t * nat), counts_kept_failures (fst st) ->
                  counts_kept_failures (fst (run_calls calls st))).
    { induction calls as [|[now o] rest IH]; intros [cb w] Hinv; simpl run_calls.
      - exact Hinv.
      - apply IH. apply (Hstep nat unit unit (counting o) w now now cb Hinv). }
    apply G. apply Hnew.
Qed.

Lemma totalRequests_counts_witness :
  counts_kept_failures (fst (fst (allow 6 7 (counting ok) (openBreaker, 0%nat)))).
Proof.
  assert (Hinv : counts_kept_failures openBreaker)
    by (unfold counts_kept_failures; simpl; lia).
  exact (proj1 (proj1 (proj2 (proj2 totalRequests_counts_kept_failures))
                  nat unit unit (counting ok) 0%nat 6 7 openBreaker Hinv)).
Defined.

(** ** The transitions of [allow] *)

(** X5.  What one call of [allow] can do.  Rejected with the circuit-open
    error (only in OPEN, before the reset time): the operation is not
    invoked and the breaker is unchanged.  Otherwise the operation is invoked
    once and its value or error is passed through: on a value the breaker
    ends CLOSED if it was CLOSED, and HALF_OPEN or CLOSED if it was OPEN or
    HALF_OPEN, never OPEN; on an error or a timeout it ends OPEN if it was
    OPEN or HALF_OPEN, and CLOSED or OPEN if it was CLOSED, never HALF_OPEN. *)
Theorem allow_transitions {W T E : Type} :
  forall (cb : t) (w : W) (fn : Operation W T E) (now later : Z),
    let cb' := fst (fst (allow now later fn (cb, w))) in
    let w' := snd (fst (allow now later fn (cb, w))) in
    let r := snd (allow now later fn (cb, w)) in
    (r = Threw CircuitOpenError /\ cb' = cb /\ w' = w /\
     state cb = OPEN /\ _shouldAttemptReset now cb = false)
    \/
    (w' = fst (fn w) /\
     (state cb = OPEN -> _shouldAttemptReset now cb = true) /\
     match snd (fn w) with
     | Resolved v =>
         r = Returned v /\
         (state cb = CLOSED -> state cb' = CLOSED) /\
         (state cb' = CLOSED \/ state cb' = HALF_OPEN)
     | Rejected e =>
         r = Threw (OperationError e) /\
         (state cb <> CLOSED -> state cb' = OPEN) /\
         (state cb' = CLOSED \/ state cb' = OPEN)
     | TimedOut =>
         r = Threw RequestTimeout /\
         (state cb <> CLOSED -> state cb' = OPEN) /\
         (state cb' = CLOSED \/ state cb' = OPEN)
     end).
Proof.
  intros cb w fn now later.
  assert (Hok : forall c, state (_onSuccess later c) = CLOSED \/
                          (state (_onSuccess later c) = state c /\ state c <> CLOSED) \/
                          (state (_onSuccess later c) = state c /\ state c = CLOSED)).
  { intros c. rewrite onSuccess_unfold. cbv zeta.
    set (c1 := set_totalRequests (totalRequests c + 1) c).
    destruct (cleanOldRequests_fields later c1) as (Hst & _).
    change (state c1) with (state c) in Hst.
    destruct (state (_cleanOldRequests later c1)) eqn:Hs2.
    - left. exact Hs2.
    - right. left. rewrite Hs2, <- Hst. split; [reflexivity|discriminate].
    - destruct (_ <=? _); [left; reflexivity|].
      right. left. rewrite <- Hst. split; [exact Hs2|discriminate]. }
  assert (Hko : forall c, (state c <> CLOSED -> state c <> OPEN -> state (_onFailure later c) = OPEN) /\
                          (state (_onFailure later c) = OPEN \/
                           state (_onFailure later c) = state c)).
  { intros c. destruct (onFailure_counts later c) as (_ & _ & _ & Hst).
    set (c4 := set_requestTimestamps _ _) in Hst.
    destruct (cleanOldRequests_fields later c4) as (Hst4 & _).
    change (state c4) with (state c) in Hst4. rewrite Hst4 in Hst.
    split; [|exact Hst].
    intros Hc Ho. destruct (state c) eqn:Hs; try contradiction.
    apply onFailure_half_open. exact Hs. }
  cbv zeta. unfold allow, allow_enter.
  destruct (state cb) eqn:Hs.
  - right. destruct (fn w) as [w1 [v|e|]]; simpl;
      (split; [reflexivity|]; split; [discriminate|]; split; [reflexivity|]).
    + destruct (Hok cb) as [H|[[H H']|[H _]]]; rewrite ?Hs in *;
        try contradiction; (split; [intros _; exact H|left; exact H]).
    + split; [intros H; contradiction|]. destruct (Hko cb) as [_ [H|H]];
        [right; exact H|left; rewrite H; exact Hs].
    + split; [intros H; contradiction|]. destruct (Hko cb) as [_ [H|H]];
        [right; exact H|left; rewrite H; exact Hs].
  - destruct (_shouldAttemptReset now cb) eqn:Hr.
    + right. 
      assert (Hh : state (set_state HALF_OPEN cb) = HALF_OPEN) by reflexivity.
      destruct (fn w) as [w1 [v|e|]]; simpl;
        (split; [reflexivity|]; split; [reflexivity|]; split; [reflexivity|]).
      * split; [discriminate|].
        destruct (Hok (set_state HALF_OPEN cb)) as [H|[[H _]|[_ H]]];
          [left; exact H|right; rewrite H; exact Hh|rewrite Hh in H; discriminate].
      * assert (H : state (_onFailure later (set_state HALF_OPEN cb)) = OPEN)
          by (apply onFailure_half_open; exact Hh).
        split; [intros _; exact H|right; exact H].
      * assert (H : state (_onFailure later (set_state HALF_OPEN cb)) = OPEN)
          by (apply onFailure_half_open; exact Hh).
        split; [intros _; exact H|right; exact H].
    + left. simpl. repeat split.
  - right. destruct (fn w) as [w1 [v|e|]]; simpl;
      (split; [reflexivity|]; split; [discriminate|]; split; [reflexivity|]).
    + split; [discriminate|].
      destruct (Hok cb) as [H|[[H _]|[_ H]]];
        [left; exact H|right; rewrite H; exact Hs|rewrite Hs in H; discriminate].
    + assert (H : state (_onFailure later cb) = OPEN) by (apply onFailure_half_open; exact Hs).
      split; [intros _; exact H|right; exact H].
    + assert (H : state (_onFailure later cb) = OPEN) by (apply onFailure_half_open; exact Hs).
      split; [intros _; exact H|right; exact H].
Qed.

(** ** From OPEN back to CLOSED *)

Lemma onSuccess_not_open now cb : state cb <> OPEN -> state (_onSuccess now cb) <> OPEN.
Proof.
  intros Hs. rewrite onSuccess_unfold. cbv zeta.
  set (cb1 := set_totalRequests (totalRequests cb + 1) cb).
  destruct (cleanOldRequests_fields now cb1) as (Hst & _).
  change (state cb1) with (state cb) in Hst.
  destruct (state (_cleanOldRequests now cb1)) eqn:Hs2.
  - rewrite Hs2. discriminate.
  - congruence.
  - destruct (_ <=? _).
    + cbn [state set_successCount set_failureCount set_state]. discriminate.
    + cbn [state set_successCount]. rewrite Hs2. discriminate.
Qed.

(** Successful calls through [allow], the breaker not being OPEN, are the
    successes recorded one after the other. *)
Lemma run_successes (times : list Z) :
  forall (cb : t) (w : nat),
    state cb <> OPEN ->
    run_calls (map (fun now => (now, ok)) times) (cb, w)
    = (successes times cb, (w + length times)%nat).
Proof.
  induction times as [|now times IH]; intros cb w Hs; simpl.
  - rewrite Nat.add_0_r. reflexivity.
  - assert (E : fst (allow now now (counting ok) (cb, w)) = (_onSuccess now cb, S w)).
    { unfold allow, allow_enter. destruct (state cb); [reflexivity|contradiction|reflexivity]. }
    rewrite E, IH by (apply onSuccess_not_open; exact Hs).
    f_equal. lia.
Qed.

(** X25.  An OPEN breaker with a recorded last failure fails fast: every
    call made before the reset time is rejected, whatever their number, and
    leaves the breaker and the caller's world as they were (no operation is
    invoked).  From the reset time on, with no success counted yet,
    successThreshold successful calls in a row bring it to CLOSED, each of
    them invoking its operation. *)
Theorem open_breaker_fails_fast_then_recovers :
  forall (cb : t) (last : Z) (w : nat),
    state cb = OPEN -> lastFailureTime cb = Some last -> last <> 0 ->
    (forall early : list (Z * Outcome unit unit),
       Forall (fun c => fst c - last < resetTimeout cb) early ->
       run_calls early (cb, w) = (cb, w)) /\
    (forall late : list Z,
       Forall (fun now => resetTimeout cb <= now - last) late ->
       successCount cb = 0 -> 0 < successThreshold cb ->
       Z.of_nat (length late) = successThreshold cb ->
       state (fst (run_calls (map (fun now => (now, ok)) late) (cb, w))) = CLOSED /\
       snd (run_calls (map (fun now => (now, ok)) late) (cb, w)) = (w + length late)%nat).
Proof.
  intros cb last w Hs Hl Hz. split.
  - induction early as [|[now o] early IH]; intros Hall; simpl; [reflexivity|].
    inversion Hall as [|? ? Hnow Hrest]; subst. simpl in Hnow.
    assert (E : fst (allow now now (counting o) (cb, w)) = (cb, w)).
    { unfold allow, allow_enter, _shouldAttemptReset. rewrite Hs, Hl.
      destruct (Z.eqb_spec last 0); [contradiction|].
      replace (resetTimeout cb <=? now - last) with false by (symmetry; apply Z.leb_gt; lia).
      reflexivity. }
    rewrite E. apply IH. exact Hrest.
  - intros late Hall Hsc Hpos Hlen.
    destruct late as [|now late]; [simpl in Hlen; lia|].
    inversion Hall as [|? ? Hnow _]; subst.
    assert (E : fst (allow now now (counting ok) (cb, w))
                = (_onSuccess now (set_state HALF_OPEN cb), S w)).
    { unfold allow, allow_enter, _shouldAttemptReset. rewrite Hs, Hl.
      destruct (Z.eqb_spec last 0); [contradiction|].
      replace (resetTimeout cb <=? now - last) with true by (symmetry; apply Z.leb_le; lia).
      reflexivity. }
    simpl map. simpl run_calls. rewrite E.
    rewrite run_successes by (apply onSuccess_not_open; discriminate).
    simpl fst. simpl snd. split; [|simpl length; lia].
    change (successes late (_onSuccess now (set_state HALF_OPEN cb)))
      with (successes (now :: late) (set_state HALF_OPEN cb)).
    apply successes_half_open.
    + reflexivity.
    + change (successCount (set_state HALF_OPEN cb)) with (successCount cb).
      change (successThreshold (set_state HALF_OPEN cb)) with (successThreshold cb). lia.
    + change (successCount (set_state HALF_OPEN cb)) with (successCount cb).
      change (successThreshold (set_state HALF_OPEN cb)) with (successThreshold cb). lia.
Qed.

Lemma open_breaker_witness :
  run_calls [(6, ok); (7, ko); (60004, ok)] (openBreaker, 0%nat) = (openBreaker, 0%nat) /\
  state (fst (run_calls (map (fun now => (now, ok)) [60005; 60006; 60007; 60008; 60009])
                (openBreaker, 0%nat))) = CLOSED.
Proof.
  assert (Hs : state openBreaker = OPEN) by reflexivity.
  assert (Hl : lastFailureTime openBreaker = Some 5) by reflexivity.
  assert (Hz : 5 <> 0) by lia.
  pose proof (open_breaker_fails_fast_then_recovers openBreaker 5 0%nat Hs Hl Hz) as [Hfast Hrec].
  split.
  - apply Hfast. repeat constructor; simpl; lia.
  - apply Hrec.
    + repeat constructor; simpl; lia.
    + reflexivity.
    + simpl. lia.
    + reflexivity.
Defined.

End CircuitBreakerFacts.

(** ** Properties of the load balancer *)
Module LoadBalancerFacts.
Import LoadBalancer.

Lemma healthy_servers_spec lb s :
  In s (_getHealthyServers lb) <->
  In s (servers lb) /\ enabled s = Some true /\ healthy s = Some true.
Proof.
  unfold _getHealthyServers. rewrite filter_In, andb_true_iff.
  unfold truthy. split.
  - intros (Hin & He & Hh).
    destruct (enabled s) as [[|]|], (healthy s) as [[|]|]; try discriminate.
    repeat split; assumption.
  - intros (Hin & He & Hh). rewrite He, Hh. repeat split; assumption.
Qed.

Lemma at_index_in_range (l : list BackendServer) (i : Z) :
  (0 <= i < Z.of_nat (length l))%Z ->
  exists s, at_index l i = Picked s /\ In s l.
Proof.
  intros Hi. unfold at_index.
  destruct (Z.ltb_spec i 0); [lia|].
  destruct (nth_error l (Z.to_nat i)) as [s|] eqn:Hn.
  - exists s. split; [reflexivity|]. eapply nth_error_In. exact Hn.
  - apply nth_error_None in Hn. lia.
Qed.

(** A reduction that keeps one of its two arguments returns an element. *)
Lemma reduce1_in (f : BackendServer -> BackendServer -> BackendServer) :
  (forall a b, f a b = a \/ f a b = b) ->
  forall l, l <> [] -> exists s, reduce1 f l = Some s /\ In s l.
Proof.
  intros Hf l Hl. destruct l as [|first rest]; [contradiction|].
  simpl. eexists. split; [reflexivity|].
  clear Hl. revert first. induction rest as [|x rest IH]; intros first; simpl.
  - left. reflexivity.
  - destruct (IH (f first x)) as [H|H].
    + destruct (Hf first x) as [E|E]; [left|right; left]; congruence.
    + right. right. exact H.
Qed.

Lemma weighted_walk_in (l : list BackendServer) :
  forall random s, weighted_walk random l = Some s -> In s l.
Proof.
  induction l as [|x l IH]; simpl; intros random s H; [discriminate|].
  destruct (Qle_bool _ 0).
  - injection H as <-. left. reflexivity.
  - right. eapply IH. exact H.
Qed.

Lemma random_index_in_range (rand : Q) (n : nat) :
  (0 <= rand)%Q -> (rand < 1)%Q -> (0 < n)%nat ->
  (0 <= Qfloor (rand * inject_Z (Z.of_nat n)) < Z.of_nat n)%Z.
Proof.
  intros H0 H1 Hn.
  assert (Hpos : (0 < inject_Z (Z.of_nat n))%Q).
  { replace 0%Q with (inject_Z 0) by reflexivity. rewrite <- Zlt_Qlt. lia. }
  split.
  - replace 0%Z with (Qfloor 0) by reflexivity.
    apply Qfloor_resp_le. apply Qmult_le_0_compat; [assumption|].
    apply Qlt_le_weak. assumption.
  - rewrite Zlt_Qlt.
    eapply Qle_lt_trans; [apply Qfloor_le|].
    rewrite <- (Qmult_1_l (inject_Z (Z.of_nat n))) at 2.
    apply Qmult_lt_compat_r; assumption.
Qed.

(** Every strategy, applied to a non-empty list (with [Math.random()] in
    [0, 1) where the strategy draws an index), picks an element of the list. *)
Lemma strategies_pick_member lb ctx rand (l : list BackendServer) :
  l <> [] ->
  (strategy lb = RANDOM -> (0 <= rand)%Q /\ (rand < 1)%Q) ->
  (exists s, snd (_roundRobin l lb) = Picked s /\ In s l) /\
  (exists s, _weightedRoundRobin rand l = Picked s /\ In s l) /\
  (exists s, _leastConnections lb l = Picked s /\ In s l) /\
  (exists s, _ipHash l ctx = Picked s /\ In s l) /\
  (strategy lb = RANDOM -> exists s, _random rand l = Picked s /\ In s l) /\
  (exists s, _fastest lb l = Picked s /\ In s l).
Proof.
  intros Hl Hr.
  assert (Hlen : (0 < length l)%nat) by (destruct l; [contradiction|simpl; lia]).
  repeat split.
  - unfold _roundRobin. simpl. apply at_index_in_range.
    pose proof (Nat.mod_upper_bound (currentIndex lb) (length l)). lia.
  - unfold _weightedRoundRobin.
    destruct (weighted_walk _ l) as [s|] eqn:Hw.
    + exists s. split; [reflexivity|]. eapply weighted_walk_in. exact Hw.
    + apply at_index_in_range. lia.
  - unfold _leastConnections.
    destruct (reduce1_in (fun min server =>
      if (connections lb (url server) <? connections lb (url min))%Z then server else min))
      with (l := l) as (s & Hs & Hin); [|assumption|].
    + intros a b. destruct (_ <? _)%Z; [right|left]; reflexivity.
    + exists s. rewrite Hs. split; [reflexivity|assumption].
  - unfold _ipHash. apply at_index_in_range.
    pose proof (Z.rem_bound_pos (Z.abs (_hashCode (clientIp ctx))) (Z.of_nat (length l))).
    lia.
  - intros Hrand. destruct (Hr Hrand) as [H0 H1].
    unfold _random. apply at_index_in_range. apply random_index_in_range; assumption.
  - unfold _fastest.
    destruct (reduce1_in (fun fastest server =>
      if time_lt (_getAverageResponseTime lb (url server))
                 (_getAverageResponseTime lb (url fastest))
      then server else fastest)) with (l := l) as (s & Hs & Hin); [|assumption|].
    + intros a b. destruct (time_lt _ _); [right|left]; reflexivity.
    + exists s. rewrite Hs. split; [reflexivity|assumption].
Qed.

(** C7.  [getNextServer] returns [null] exactly when no server is both
    enabled and healthy; a server it returns is one of the balancer's
    servers that is enabled and healthy, under every strategy; it never
    returns anything else.  [Math.random()] is taken in [0, 1). *)
Theorem getNextServer_null_iff_none_available :
  forall (lb : t) (context : RequestContext) (rand : Q),
    (0 <= rand)%Q -> (rand < 1)%Q ->
    let sel := snd (getNextServer rand context lb) in
    (sel = Null <-> _getHealthyServers lb = []) /\
    (sel = Null <->
       forall s, In s (servers lb) -> ~ (enabled s = Some true /\ healthy s = Some true)) /\
    (forall s, sel = Picked s ->
       In s (_getHealthyServers lb) /\ In s (servers lb) /\
       enabled s = Some true /\ healthy s = Some true) /\
    (sel = Null \/ exists s, sel = Picked s).
Proof.
  intros lb context rand H0 H1 sel.
  assert (Hnone : _getHealthyServers lb = [] <->
            forall s, In s (servers lb) -> ~ (enabled s = Some true /\ healthy s = Some true)).
  { split.
    - intros He s Hin [Hen Hh].
      assert (Hs : In s (_getHealthyServers lb)) by (apply healthy_servers_spec; auto).
      rewrite He in Hs. destruct Hs.
    - intros Hall. destruct (_getHealthyServers lb) as [|s l] eqn:He; [reflexivity|].
      exfalso. assert (Hs : In s (_getHealthyServers lb)) by (rewrite He; left; reflexivity).
      apply healthy_servers_spec in Hs. destruct Hs as (Hin & Hen & Hh).
      apply (Hall s Hin). split; assumption. }
  assert (Hpick : _getHealthyServers lb <> [] ->
            exists s, sel = Picked s /\ In s (_getHealthyServers lb)).
  { intros Hne. subst sel. unfold getNextServer.
    destruct (strategies_pick_member lb context rand (_getHealthyServers lb) Hne)
      as (Hrr & Hw & Hlc & Hip & Hrd & Hf); [intros _; split; assumption|].
    destruct (_getHealthyServers lb) as [|s0 l0] eqn:He; [contradiction|].
    destruct (strategy lb) eqn:Hst; try assumption.
    apply Hrd. reflexivity. }
  assert (Hnull : sel = Null <-> _getHealthyServers lb = []).
  { split.
    - intros Hsel. destruct (_getHealthyServers lb) as [|s0 l0] eqn:He; [reflexivity|].
      destruct Hpick as (s & Hs & _); [discriminate|]. rewrite Hs in Hsel. discriminate.
    - intros He. subst sel. unfold getNextServer. rewrite He. reflexivity. }
  split; [exact Hnull|]. split; [rewrite Hnull; exact Hnone|]. split.
  - intros s Hs.
    destruct (_getHealthyServers lb) as [|s0 l0] eqn:He.
    + destruct Hnull as [_ Hn]. rewrite Hn in Hs by reflexivity. discriminate.
    + destruct Hpick as (s' & Hs' & Hin); [discriminate|].
      rewrite Hs' in Hs. injection Hs as <-.
      split; [exact Hin|]. apply healthy_servers_spec. rewrite He. exact Hin.
  - destruct (_getHealthyServers lb) as [|s0 l0] eqn:He.
    + left. apply Hnull. reflexivity.
    + right. destruct Hpick as (s & Hs & _); [discriminate|]. exists s. exact Hs.
Qed.

(** A request context used for the examples. *)
Definition sampleContext : RequestContext :=
  {| ctx_id := "1"; ctx_type := FETCH; ctx_timestamp := 1; ctx_url := "/api/users";
     ctx_method := Some "GET"%string; ctx_headers := None; ctx_metadata := None |}.

(** [{ url }] with every optional field left out. *)
Definition server (u : string) : BackendServer :=
  {| url := u; weight := None; enabled := None; healthy := None; maxFails := None;
     currentFails := None; failTimeout := None; lastFailTime := None |}.

(** A server as [addServer] stores it. *)
Definition stored (u : string) : BackendServer :=
  {| url := u; weight := Some 1%Q; enabled := Some true; healthy := Some true;
     maxFails := Some 3%Z; currentFails := Some 0%Z; failTimeout := Some 10000%Z;
     lastFailTime := None |}.

Definition threeServers (strategy : BalanceStrategy) : t :=
  addServers [server "A"; server "B"; server "C"] (create strategy).

Lemma getNextServer_witness :
  (snd (getNextServer (1 # 2) sampleContext (threeServers RANDOM)) = Null <->
     _getHealthyServers (threeServers RANDOM) = []) /\
  (forall s, snd (getNextServer (1 # 2) sampleContext (threeServers RANDOM)) = Picked s ->
     In s (_getHealthyServers (threeServers RANDOM)) /\ In s (servers (threeServers RANDOM)) /\
     enabled s = Some true /\ healthy s = Some true).
Proof.
  assert (H0 : (0 <= 1 # 2)%Q) by (unfold Qle; simpl; lia).
  assert (H1 : (1 # 2 < 1)%Q) by (unfold Qlt; simpl; lia).
  pose proof (getNextServer_null_iff_none_available
                (threeServers RANDOM) sampleContext (1 # 2) H0 H1) as H.
  split; [exact (proj1 H)|exact (proj1 (proj2 (proj2 H)))].
Defined.

Lemma getNextServer_frame rand context lb :
  let lb' := fst (getNextServer rand context lb) in
  servers lb' = servers lb /\ strategy lb' = strategy lb /\
  (strategy lb = ROUND_ROBIN -> _getHealthyServers lb <> [] ->
   currentIndex lb' = S (currentIndex lb)).
Proof.
  unfold getNextServer.
  destruct (_getHealthyServers lb) as [|s0 l0]; simpl.
  - repeat split. intros _ H. contradiction.
  - destruct (strategy lb) eqn:Hst; simpl; repeat split; try discriminate; assumption.
Qed.

Lemma round_robin_selections rand context (l : list BackendServer) :
  l <> [] ->
  forall n lb,
    strategy lb = ROUND_ROBIN -> _getHealthyServers lb = l ->
    fst (selections n rand context lb) =
      map (fun k => at_index l (Z.of_nat ((currentIndex lb + k) mod length l))) (seq 0 n) /\
    currentIndex (snd (selections n rand context lb)) = (currentIndex lb + n)%nat /\
    servers (snd (selections n rand context lb)) = servers lb.
Proof.
  intros Hl. induction n as [|n IH]; intros lb Hst Hh.
  - simpl. repeat split. lia.
  - simpl selections.
    destruct (getNextServer rand context lb) as [lb1 sel] eqn:Hg.
    destruct (getNextServer_frame rand context lb) as (Hsv & Hst1 & Hidx).
    rewrite Hg in Hsv, Hst1, Hidx. simpl in Hsv, Hst1, Hidx.
    assert (Hh1 : _getHealthyServers lb1 = l).
    { unfold _getHealthyServers. rewrite Hsv. exact Hh. }
    destruct (IH lb1) as (Hsel & Hci & Hsrv); [congruence|exact Hh1|].
    destruct (selections n rand context lb1) as [sels lb2]. simpl in *.
    rewrite Hidx in * by (try rewrite Hh; assumption).
    repeat split.
    + f_equal.
      * unfold getNextServer in Hg. rewrite Hh, Hst in Hg.
        destruct l as [|s0 l0]; [contradiction|].
        unfold _roundRobin in Hg. injection Hg as _ <-.
        rewrite Nat.add_0_r. reflexivity.
      * rewrite Hsel. rewrite <- seq_shift, map_map.
        apply map_ext. intros k. rewrite Nat.add_succ_comm. reflexivity.
    + lia.
    + congruence.
Qed.



(** C8, as stated, fails: the index is never reset, so a round-robin
    balancer over [A, B, C] that has served one request answers the next
    four calls with B, C, A, B. *)
Lemma round_robin_after_one_call :
  let lb := fst (getNextServer 0 sampleContext (threeServers ROUND_ROBIN)) in
  strategy lb = ROUND_ROBIN /\
  _getHealthyServers lb = [stored "A"; stored "B"; stored "C"] /\
  fst (selections 4 0 sampleContext lb) =
    [Picked (stored "B"); Picked (stored "C"); Picked (stored "A"); Picked (stored "B")] /\
  _getHealthyServers (snd (selections 4 0 sampleContext lb))
  = [stored "A"; stored "B"; stored "C"].
Proof. vm_compute. repeat split; reflexivity. Qed.

(** ** The strategies that compare servers *)

(** The step of the two reductions: the current choice is kept unless the
    next server is strictly better. *)
Definition keep_best (better : BackendServer -> BackendServer -> bool)
  (best server : BackendServer) : BackendServer :=
  if better server best then server else best.

Section FirstBest.
Variable better : BackendServer -> BackendServer -> bool.
Hypothesis better_irrefl : forall a, better a a = false.
Hypothesis better_trans :
  forall a b c, better a b = true -> better b c = true -> better a c = true.
Hypothesis better_cmp :
  forall a b c, better a b = true -> better a c = true \/ better c b = true.

Lemma fold_keep_best :
  forall (rest pre : list BackendServer) (best : BackendServer) (post : list BackendServer),
    (forall x, In x (pre ++ best :: post) -> better x best = false) ->
    (forall x, In x pre -> better best x = true) ->
    (forall x, In x (pre ++ best :: post ++ rest) ->
       better x (fold_left (keep_best better) rest best) = false) /\
    exists before after,
      pre ++ best :: post ++ rest = before ++ fold_left (keep_best better) rest best :: after /\
      forall x, In x before -> better (fold_left (keep_best better) rest best) x = true.
Proof.
  induction rest as [|y rest IH]; intros pre best post Hnone Hpre.
  - simpl. rewrite app_nil_r. split; [exact Hnone|].
    exists pre, post. split; [reflexivity|exact Hpre].
  - simpl fold_left. unfold keep_best at 2 4 6. destruct (better y best) eqn:Hy.
    + assert (E : pre ++ best :: post ++ y :: rest = (pre ++ best :: post) ++ y :: [] ++ rest)
        by (rewrite <- app_assoc; reflexivity).
      rewrite E. apply IH.
      * intros x Hx. apply in_app_iff in Hx. destruct Hx as [Hx|[<-|[]]].
        -- destruct (better x y) eqn:Hxy; [|reflexivity].
           rewrite <- (Hnone x Hx). symmetry. apply (better_trans x y best Hxy Hy).
        -- apply better_irrefl.
      * intros x Hx. destruct (better_cmp y best x Hy) as [H|H]; [exact H|].
        rewrite (Hnone x Hx) in H. discriminate.
    + assert (E : pre ++ best :: post ++ y :: rest = pre ++ best :: (post ++ [y]) ++ rest)
        by (rewrite <- app_assoc; reflexivity).
      rewrite E. apply IH.
      * intros x Hx. rewrite app_comm_cons, app_assoc in Hx.
        apply in_app_iff in Hx. destruct Hx as [Hx|[<-|[]]].
        -- apply Hnone. exact Hx.
        -- exact Hy.
      * exact Hpre.
Qed.

(** The result of the reduction is a server that no other one beats, and
    the first such server of the list. *)
Lemma reduce1_first_best (l : list BackendServer) (s : BackendServer) :
  reduce1 (keep_best better) l = Some s ->
  (forall x, In x l -> better x s = false) /\
  exists before after,
    l = before ++ s :: after /\ (forall x, In x before -> better s x = true).
Proof.
  destruct l as [|first rest]; simpl; [discriminate|].
  intros Hs. injection Hs as <-.
  apply (fold_keep_best rest [] first []).
  - intros x [<-|[]]. apply better_irrefl.
  - intros x [].
Qed.

End FirstBest.

(** [serverCount < minCount] *)
Definition fewer_connections (lb : t) (a b : BackendServer) : bool :=
  (connections lb (url a) <? connections lb (url b))%Z.

(** [serverTime < fastestTime] *)
Definition faster (lb : t) (a b : BackendServer) : bool :=
  time_lt (_getAverageResponseTime lb (url a)) (_getAverageResponseTime lb (url b)).

(** [a < b] on average times, [None] being [Infinity]. *)
Definition time_before (a b : option Q) : Prop :=
  match a, b with
  | Some x, Some y => (x < y)%Q
  | Some _, None => True
  | None, _ => False
  end.

Lemma time_lt_spec (a b : option Q) : time_lt a b = true <-> time_before a b.
Proof.
  destruct a as [x|], b as [y|]; simpl; try (split; [discriminate|contradiction]);
    try (split; [trivial|reflexivity]).
  rewrite negb_true_iff. split.
  - intros H. apply Qnot_le_lt. intros Hle. apply Qle_bool_iff in Hle. congruence.
  - intros H. destruct (Qle_bool y x) eqn:E; [|reflexivity].
    apply Qle_bool_iff in E. apply Qle_not_lt in E. contradiction.
Qed.

Lemma time_lt_false (a b : option Q) : time_lt a b = false <-> ~ time_before a b.
Proof.
  rewrite <- time_lt_spec. destruct (time_lt a b); split; congruence.
Qed.

(** X13.  Least connections: the server [getNextServer] returns has the
    fewest connections counted among the enabled and healthy servers, and
    is the first of them with that count. *)
Theorem least_connections_picks_first_minimum :
  forall (lb : t) (context : RequestContext) (rand : Q) (s : BackendServer),
    strategy lb = LEAST_CONNECTIONS ->
    snd (getNextServer rand context lb) = Picked s ->
    (forall x, In x (_getHealthyServers lb) ->
       (connections lb (url s) <= connections lb (url x))%Z) /\
    exists before after,
      _getHealthyServers lb = before ++ s :: after /\
      forall x, In x before -> (connections lb (url s) < connections lb (url x))%Z.
Proof.
  intros lb context rand s Hst Hsel.
  assert (Hred : reduce1 (keep_best (fewer_connections lb)) (_getHealthyServers lb) = Some s).
  { unfold getNextServer in Hsel. rewrite Hst in Hsel.
    destruct (_getHealthyServers lb) as [|s0 l0] eqn:Hh; [discriminate|].
    simpl in Hsel. unfold _leastConnections in Hsel.
    change (fun min server =>
              if (connections lb (url server) <? connections lb (url min))%Z
              then server else min)
      with (keep_best (fewer_connections lb)) in Hsel.
    destruct (reduce1 (keep_best (fewer_connections lb)) (s0 :: l0)) as [r|];
      [injection Hsel as <-; reflexivity|discriminate]. }
  destruct (reduce1_first_best (fewer_connections lb)) with (l := _getHealthyServers lb) (s := s)
    as (Hmin & before & after & Hsplit & Hbefore).
  - intros a. apply Z.ltb_irrefl.
  - unfold fewer_connections. intros a b c Hab Hbc.
    apply Z.ltb_lt in Hab, Hbc. apply Z.ltb_lt. lia.
  - unfold fewer_connections. intros a b c Hab. apply Z.ltb_lt in Hab.
    destruct (Z.ltb_spec (connections lb (url a)) (connections lb (url c))); [left; reflexivity|].
    right. apply Z.ltb_lt. lia.
  - exact Hred.
  - split.
    + intros x Hx. specialize (Hmin x Hx). apply Z.ltb_ge in Hmin. exact Hmin.
    + exists before, after. split; [exact Hsplit|].
      intros x Hx. apply Z.ltb_lt. apply (Hbefore x Hx).
Qed.


(** Three servers, the first with one connection open. *)
Definition busyFirst (strategy : BalanceStrategy) : t :=
  incrementConnections "A" (threeServers strategy).

Lemma least_connections_witness :
  (forall x, In x (_getHealthyServers (busyFirst LEAST_CONNECTIONS)) ->
     (connections (busyFirst LEAST_CONNECTIONS) (url (stored "B"))
      <= connections (busyFirst LEAST_CONNECTIONS) (url x))%Z) /\
  exists before after,
    _getHealthyServers (busyFirst LEAST_CONNECTIONS) = before ++ stored "B" :: after /\
    forall x, In x before ->
      (connections (busyFirst LEAST_CONNECTIONS) (url (stored "B"))
       < connections (busyFirst LEAST_CONNECTIONS) (url x))%Z.
Proof.
  assert (Hst : strategy (busyFirst LEAST_CONNECTIONS) = LEAST_CONNECTIONS) by reflexivity.
  assert (Hsel : snd (getNextServer 0 sampleContext (busyFirst LEAST_CONNECTIONS))
                 = Picked (stored "B")) by (vm_compute; reflexivity).
  exact (least_connections_picks_first_minimum (busyFirst LEAST_CONNECTIONS) sampleContext 0
           (stored "B") Hst Hsel).
Defined.

(** Three servers: A answered in 30 ms and 50 ms, C in 20 ms, B not yet. *)
Definition timedServers : t :=
  recordResponseTime "C" (20 # 1)
    (recordResponseTime "A" (50 # 1)
       (recordResponseTime "A" (30 # 1) (threeServers FASTEST))).


(** ** The hash of [ip_hash] *)

Local Open Scope Z_scope.

(** The polynomial hash in base 31 over the character codes, unbounded. *)
Definition poly31 (str : string) : Z :=
  fold_left (fun h c => 31 * h + Z.of_N (N_of_ascii c)) (list_ascii_of_string str) 0.

Lemma toInt32_shift (z k : Z) : toInt32 (z + k * 2 ^ 32) = toInt32 z.
Proof.
  unfold toInt32. replace (z + k * 2 ^ 32 + 2 ^ 31) with (z + 2 ^ 31 + k * 2 ^ 32) by ring.
  rewrite Z_mod_plus_full. reflexivity.
Qed.

Lemma toInt32_quot (z : Z) : exists k, toInt32 z = z + k * 2 ^ 32.
Proof.
  exists (- ((z + 2 ^ 31) / 2 ^ 32)). unfold toInt32.
  rewrite Z.mod_eq by (apply Z.pow_nonzero; lia). ring.
Qed.

Lemma toInt32_range (z : Z) : - 2 ^ 31 <= toInt32 z < 2 ^ 31.
Proof.
  unfold toInt32.
  change (2 ^ 32) with 4294967296. change (2 ^ 31) with 2147483648.
  pose proof (Z.mod_pos_bound (z + 2147483648) 4294967296 eq_refl) as H. lia.
Qed.

Lemma hash_step (h P c : Z) :
  h = toInt32 P -> toInt32 (toInt32 (h * 32) - h + c) = toInt32 (31 * P + c).
Proof.
  intros ->. destruct (toInt32_quot P) as [k1 E1].
  destruct (toInt32_quot (toInt32 P * 32)) as [k2 E2].
  rewrite E2, E1.
  replace ((P + k1 * 2 ^ 32) * 32 + k2 * 2 ^ 32 - (P + k1 * 2 ^ 32) + c)
    with (31 * P + c + (31 * k1 + k2) * 2 ^ 32) by ring.
  apply toInt32_shift.
Qed.

(** X15.  [_hashCode] is the polynomial string hash in base 31 (the sum of
    code(i) * 31^(n-1-i) over the characters) reduced to a signed 32-bit
    integer; it lies between -2^31 and 2^31 - 1. *)
Theorem hashCode_is_polynomial_hash :
  forall str : string,
    _hashCode str = toInt32 (poly31 str) /\ - 2 ^ 31 <= _hashCode str < 2 ^ 31.
Proof.
  intros str.
  assert (G : forall l h P, h = toInt32 P ->
            fold_left (fun hash c =>
                         let hash1 := toInt32 (hash * 32) - hash + Z.of_N (N_of_ascii c) in
                         toInt32 hash1) l h
            = toInt32 (fold_left (fun h c => 31 * h + Z.of_N (N_of_ascii c)) l P)).
  { induction l as [|c l IH]; intros h P Hh; simpl.
    - exact Hh.
    - apply IH. apply hash_step. exact Hh. }
  assert (E : _hashCode str = toInt32 (poly31 str)).
  { unfold _hashCode, poly31. apply G. reflexivity. }
  split; [exact E|]. rewrite E. apply toInt32_range.
Qed.

(** ** Connection counts *)

Lemma connections_set (lb : t) (u : string) (v : Z) m :
  connectionCounts lb = <[u := v]> m -> connections lb u = v.
Proof.
  intros H. unfold connections. rewrite H, lookup_insert_eq. unfold or_defaultZ.
  destruct (Z.eqb_spec v 0); congruence.
Qed.

(** X11.  The connection counter of a server: [decrementConnections] undoes
    [incrementConnections] when the count was not negative, a decrement
    never leaves a negative count and leaves 0 at 0, and neither touches
    the count of another server. *)
Theorem connection_count_round_trip :
  forall (lb : t) (u : string),
    (0 <= connections lb u ->
     connections (decrementConnections u (incrementConnections u lb)) u = connections lb u) /\
    connections (incrementConnections u lb) u = connections lb u + 1 /\
    0 <= connections (decrementConnections u lb) u /\
    (connections lb u <= 1 -> connections (decrementConnections u lb) u = 0) /\
    (forall other, other <> u ->
       connections (incrementConnections u lb) other = connections lb other /\
       connections (decrementConnections u lb) other = connections lb other).
Proof.
  intros lb u.
  assert (Hinc : connections (incrementConnections u lb) u = connections lb u + 1)
    by (eapply connections_set; reflexivity).
  assert (Hdec : forall lb0, connections (decrementConnections u lb0) u
                             = Z.max 0 (connections lb0 u - 1))
    by (intros lb0; eapply connections_set; reflexivity).
  split; [|split; [exact Hinc|split; [|split]]].
  - intros H0. rewrite Hdec, Hinc. lia.
  - rewrite Hdec. lia.
  - intros H1. rewrite Hdec. lia.
  - intros other Hother. unfold connections, incrementConnections, decrementConnections.
    simpl. rewrite !lookup_insert_ne by congruence. split; reflexivity.
Qed.

Lemma connection_count_witness :
  connections (decrementConnections "A" (incrementConnections "A" (threeServers ROUND_ROBIN))) "A"
  = connections (threeServers ROUND_ROBIN) "A".
Proof.
  assert (H0 : 0 <= connections (threeServers ROUND_ROBIN) "A") by (vm_compute; discriminate).
  exact (proj1 (connection_count_round_trip (threeServers ROUND_ROBIN) "A") H0).
Defined.

Local Close Scope Z_scope.

(** ** Response times *)

(** [this.responseTimes.get(url) || []] *)
Definition times_of (lb : t) (u : string) : list Q :=
  match responseTimes lb !! u with
  | Some l => l
  | None => []
  end.

Lemma last_100_short (l : list Q) : (length l <= 100)%nat -> last_100 l = l.
Proof.
  intros H. unfold last_100. replace (length l - 100)%nat with 0%nat by lia. reflexivity.
Qed.

Lemma last_100_length (l : list Q) : (length (last_100 l) <= 100)%nat.
Proof. unfold last_100. rewrite length_skipn. lia. Qed.

Lemma last_100_app (x y : list Q) : last_100 (last_100 x ++ y) = last_100 (x ++ y).
Proof.
  unfold last_100. rewrite !length_app, length_skipn.
  set (k := (length x - 100)%nat).
  set (j := (length x - k + length y - 100)%nat).
  replace (length x + length y - 100)%nat with (j + k)%nat by lia.
  rewrite <- List.skipn_skipn. rewrite (List.skipn_app k x y).
  replace (k - length x)%nat with 0%nat by lia. reflexivity.
Qed.

Lemma recordResponseTime_times (lb : t) (u : string) (time : Q) :
  (length (times_of lb u) <= 100)%nat ->
  times_of (recordResponseTime u time lb) u = last_100 (times_of lb u ++ [time]).
Proof.
  intros Hlen. unfold times_of at 1. unfold recordResponseTime. cbv zeta.
  fold (times_of lb u). simpl responseTimes. rewrite lookup_insert_eq.
  rewrite length_app. simpl length.
  destruct (Nat.ltb_spec 100 (length (times_of lb u) + 1)) as [Hfull|Hroom].
  - unfold last_100. rewrite length_app. simpl length.
    replace (length (times_of lb u) + 1 - 100)%nat with 1%nat by lia. reflexivity.
  - symmetry. apply last_100_short. rewrite length_app. simpl. lia.
Qed.

(** Calls of [recordResponseTime] for one server, one after the other. *)
Definition record_times (u : string) (new : list Q) (lb : t) : t :=
  fold_left (fun acc time => recordResponseTime u time acc) new lb.

(** No server holds more than 100 response times. *)
Definition times_bounded (lb : t) : Prop :=
  forall v l, responseTimes lb !! v = Some l -> (length l <= 100)%nat.

Lemma recordResponseTime_bounded (lb : t) (u : string) (time : Q) :
  times_bounded lb -> times_bounded (recordResponseTime u time lb).
Proof.
  intros Hb v l. unfold recordResponseTime. cbv zeta. simpl responseTimes.
  destruct (decide (v = u)) as [->|Hne].
  - rewrite lookup_insert_eq. intros Hl. injection Hl as <-.
    assert (Hlen : (length (times_of lb u) <= 100)%nat).
    { unfold times_of. destruct (responseTimes lb !! u) as [l0|] eqn:E; [|simpl; lia].
      apply (Hb u l0 E). }
    fold (times_of lb u). rewrite length_app. simpl length.
    destruct (Nat.ltb_spec 100 (length (times_of lb u) + 1)).
    + destruct (times_of lb u ++ [time]) as [|x rest] eqn:E; [simpl; lia|].
      simpl. apply (f_equal (@length Q)) in E. rewrite length_app in E. simpl in E. lia.
    + rewrite length_app. simpl. lia.
  - rewrite lookup_insert_ne by congruence. apply Hb.
Qed.

(** X12.  [recordResponseTime] keeps the latest 100 times of a server, in
    the order they came: after any number of calls for a server that held
    at most 100 times, it holds the last 100 of the old times followed by
    the new ones, and the other servers' times are untouched.  As no list
    then exceeds 100 times, the periodic [_cleanupOldData] changes nothing. *)
Theorem response_times_keep_last_100 :
  forall (lb : t) (u : string) (new : list Q),
    times_bounded lb ->
    times_of (record_times u new lb) u = last_100 (times_of lb u ++ new) /\
    (forall other, other <> u ->
       responseTimes (record_times u new lb) !! other = responseTimes lb !! other) /\
    times_bounded (record_times u new lb) /\
    _cleanupOldData (record_times u new lb) = record_times u new lb.
Proof.
  intros lb u new. revert lb. unfold record_times.
  assert (Hclean : forall lb0, times_bounded lb0 -> _cleanupOldData lb0 = lb0).
  { intros lb0 Hb. unfold _cleanupOldData, set_responseTimes. destruct lb0 as [sv st ci cc rt].
    simpl in *. f_equal. apply map_eq. intros v. rewrite lookup_fmap.
    destruct (rt !! v) as [l|] eqn:E; simpl; [|reflexivity].
    specialize (Hb v l E). destruct (Nat.ltb_spec 100 (length l)); [lia|reflexivity]. }
  induction new as [|time new IH]; intros lb Hb.
  - simpl. rewrite app_nil_r. split; [|split; [|split]].
    + symmetry. apply last_100_short. unfold times_of.
      destruct (responseTimes lb !! u) as [l|] eqn:E; [apply (Hb u l E)|simpl; lia].
    + reflexivity.
    + exact Hb.
    + apply Hclean. exact Hb.
  - simpl fold_left.
    assert (Hb1 : times_bounded (recordResponseTime u time lb))
      by (apply recordResponseTime_bounded; exact Hb).
    destruct (IH (recordResponseTime u time lb) Hb1) as (Htimes & Hother & Hb2 & Hc).
    split; [|split; [|split]]; try assumption.
    + rewrite Htimes, recordResponseTime_times.
      * rewrite last_100_app, <- app_assoc. reflexivity.
      * unfold times_of. destruct (responseTimes lb !! u) as [l|] eqn:E;
          [apply (Hb u l E)|simpl; lia].
    + intros other Hne. rewrite (Hother other Hne).
      unfold recordResponseTime. cbv zeta. simpl. apply lookup_insert_ne. congruence.
Qed.

Lemma response_times_witness :
  times_of (record_times "A" [30 # 1; 50 # 1] (threeServers FASTEST)) "A"
  = last_100 (times_of (threeServers FASTEST) "A" ++ [30 # 1; 50 # 1]).
Proof.
  assert (Hb : times_bounded (threeServers FASTEST)).
  { intros v l Hl. 
    destruct (decide (v = "C"%string)) as [->|HC]; [vm_compute in Hl; injection Hl as <-; simpl; lia|].
    destruct (decide (v = "B"%string)) as [->|HB]; [vm_compute in Hl; injection Hl as <-; simpl; lia|].
    destruct (decide (v = "A"%string)) as [->|HA]; [vm_compute in Hl; injection Hl as <-; simpl; lia|].
    unfold threeServers, addServers in Hl. simpl in Hl.
    rewrite !lookup_insert_ne in Hl by congruence. rewrite lookup_empty in Hl. discriminate. }
  exact (proj1 (response_times_keep_last_100 (threeServers FASTEST) "A" [30 # 1; 50 # 1] Hb)).
Defined.

(** ** Health *)

Lemma picked_is_available (lb : t) (context : RequestContext) (rand : Q) (s : BackendServer) :
  (0 <= rand)%Q -> (rand < 1)%Q ->
  snd (getNextServer rand context lb) = Picked s -> In s (_getHealthyServers lb).
Proof.
  intros H0 H1. unfold getNextServer.
  destruct (_getHealthyServers lb) as [|s0 l0] eqn:He; [discriminate|].
  destruct (strategies_pick_member lb context rand (s0 :: l0))
    as (Hrr & Hw & Hlc & Hip & Hrd & Hf); [discriminate|intros _; split; assumption|].
  destruct (strategy lb) eqn:Hst; cbn [snd]; intros Hsel.
  - destruct Hrr as (x & Hx & Hin). rewrite Hx in Hsel. injection Hsel as <-. exact Hin.
  - destruct Hw as (x & Hx & Hin). rewrite Hx in Hsel. injection Hsel as <-. exact Hin.
  - destruct Hlc as (x & Hx & Hin). rewrite Hx in Hsel. injection Hsel as <-. exact Hin.
  - destruct Hip as (x & Hx & Hin). rewrite Hx in Hsel. injection Hsel as <-. exact Hin.
  - destruct (Hrd eq_refl) as (x & Hx & Hin). rewrite Hx in Hsel. injection Hsel as <-.
    exact Hin.
  - destruct Hf as (x & Hx & Hin). rewrite Hx in Hsel. injection Hsel as <-. exact Hin.
Qed.

Lemma find_server_split (u : string) (before : list BackendServer) (s : BackendServer)
  (after : list BackendServer) :
  Forall (fun x => url x <> u) before -> url s = u ->
  find_server u (before ++ s :: after) = Some s.
Proof.
  intros Hb Hs. unfold find_server. induction Hb as [|x before Hx _ IH]; simpl.
  - rewrite Hs, String.eqb_refl. reflexivity.
  - destruct (String.eqb_spec (url x) u); [contradiction|exact IH].
Qed.

Lemma update_found_split (u : string) (f : BackendServer -> BackendServer)
  (before : list BackendServer) (s : BackendServer) (after : list BackendServer) :
  Forall (fun x => url x <> u) before -> url s = u ->
  update_found u f (before ++ s :: after) = before ++ f s :: after.
Proof.
  intros Hb Hs. induction Hb as [|x before Hx _ IH]; simpl.
  - rewrite Hs, String.eqb_refl. reflexivity.
  - destruct (String.eqb_spec (url x) u); [contradiction|]. rewrite IH. reflexivity.
Qed.

(** Calls of [markFailed] for one server at the given times. *)
Definition mark_failures (u : string) (times : list Z) (lb : t) : t :=
  fold_left (fun acc now => fst (markFailed now u acc)) times lb.

(** The server after failures at the given times. *)
Definition failures (times : list Z) (s : BackendServer) : BackendServer :=
  fold_left (fun acc now => failed now acc) times s.

Lemma mark_failures_servers (before after : list BackendServer) :
  forall (times : list Z) (s : BackendServer) (lb : t),
    servers lb = before ++ s :: after ->
    Forall (fun x => url x <> url s) before ->
    servers (mark_failures (url s) times lb) = before ++ failures times s :: after.
Proof.
  induction times as [|now times IH]; intros s lb Hsv Hb; [exact Hsv|].
  unfold mark_failures, failures. simpl fold_left.
  apply (IH (failed now s)); [|exact Hb].
  unfold markFailed. rewrite Hsv, (find_server_split (url s) before s after Hb eq_refl).
  simpl. apply update_found_split; [exact Hb|reflexivity].
Qed.

Lemma failures_fields (limit : Z) :
  forall (times : list Z) (s : BackendServer) (c : Z),
    maxFails s = Some limit -> currentFails s = Some c -> (0 <= c)%Z ->
    url (failures times s) = url s /\ enabled (failures times s) = enabled s /\
    maxFails (failures times s) = Some limit /\ failTimeout (failures times s) = failTimeout s /\
    currentFails (failures times s) = Some (c + Z.of_nat (length times))%Z /\
    (healthy (failures times s) = Some true <->
       healthy s = Some true /\ (times = [] \/ (c + Z.of_nat (length times) < limit)%Z)).
Proof.
  induction times as [|now times IH]; intros s c Hmax Hcur Hc.
  - simpl. rewrite Z.add_0_r. repeat split; try assumption; tauto.
  - unfold failures. simpl fold_left.
    assert (Hfails : or_defaultZ (currentFails s) 0 = c).
    { rewrite Hcur. unfold or_defaultZ. destruct (Z.eqb_spec c 0); congruence. }
    destruct (IH (failed now s) (c + 1)%Z) as (Hu & He & Hm & Hft & Hcf & Hh).
    + exact Hmax.
    + unfold failed. simpl. rewrite Hfails. reflexivity.
    + lia.
    + fold (failures times (failed now s)).
      split; [exact Hu|]. split; [exact He|]. split; [exact Hm|]. split; [exact Hft|].
      split; [rewrite Hcf; f_equal; simpl length; lia|].
      rewrite Hh. unfold failed at 1. simpl healthy. rewrite Hmax, Hfails.
      simpl length. rewrite Nat2Z.inj_succ.
      destruct (Z.leb_spec limit (c + 1)) as [Hfull|Hroom].
      * split; [intros [Hx _]; discriminate|].
        intros [_ [Hx|Hx]]; [discriminate|lia].
      * split.
        -- intros [Hx [->|Hy]]; (split; [exact Hx|right; simpl; lia]).
        -- intros [Hx [Hy|Hy]]; [discriminate|].
           split; [exact Hx|]. destruct times; [left; reflexivity|right; simpl in *; lia].
Qed.



(** ** Weighted selection *)

Section Weighted.
Local Open Scope Q_scope.

(** [servers.reduce((sum, s) => sum + (s.weight || 1), 0)] *)
Definition total_weight (l : list BackendServer) : Q :=
  fold_left (fun sum s => sum + weight_or_1 s) l 0.

Lemma fold_weight_compat (l : list BackendServer) :
  forall a b, a == b ->
    fold_left (fun sum s => sum + weight_or_1 s) l a ==
    fold_left (fun sum s => sum + weight_or_1 s) l b.
Proof.
  induction l as [|x l IH]; intros a b Hab; simpl; [exact Hab|].
  apply IH. rewrite Hab. reflexivity.
Qed.

Lemma fold_weight_shift (l : list BackendServer) :
  forall a, fold_left (fun sum s => sum + weight_or_1 s) l a == a + total_weight l.
Proof.
  unfold total_weight. induction l as [|x l IH]; intros a; simpl; [ring|].
  rewrite (IH (a + weight_or_1 x)), (IH (0 + weight_or_1 x)). ring.
Qed.

Lemma total_weight_cons (x : BackendServer) (l : list BackendServer) :
  total_weight (x :: l) == weight_or_1 x + total_weight l.
Proof.
  unfold total_weight at 1. simpl. rewrite fold_weight_shift. ring.
Qed.

Lemma total_weight_nonneg (l : list BackendServer) :
  Forall (fun x => 0 < weight_or_1 x) l -> 0 <= total_weight l.
Proof.
  induction 1 as [|x l Hx _ IH]; [unfold total_weight; simpl; lra|].
  rewrite total_weight_cons. lra.
Qed.

Lemma weighted_walk_interval (s : BackendServer) (after : list BackendServer) :
  forall (before : list BackendServer) (random : Q),
    Forall (fun x => 0 < weight_or_1 x) before ->
    before = [] \/ total_weight before < random ->
    random <= total_weight before + weight_or_1 s ->
    weighted_walk random (before ++ s :: after) = Some s.
Proof.
  induction before as [|x before IH]; intros random Hpos Hlow Hhigh.
  - simpl. rewrite Qle_bool_true; [reflexivity|].
    unfold total_weight in Hhigh. simpl in Hhigh. lra.
  - inversion Hpos as [|? ? Hx Hpos']; subst.
    destruct Hlow as [Hlow|Hlow]; [discriminate|].
    rewrite total_weight_cons in Hlow, Hhigh.
    pose proof (total_weight_nonneg before Hpos') as Hsum.
    simpl. rewrite Qle_bool_false by lra.
    apply IH; [exact Hpos'| |lra].
    right. lra.
Qed.


(** Three servers of weights 1, 3 and 1. *)
Definition weightedServers : t :=
  addServers [server "A";
              {| url := "B"; weight := Some (3 # 1); enabled := None; healthy := None;
                 maxFails := None; currentFails := None; failTimeout := None;
                 lastFailTime := None |};
              server "C"] (create WEIGHTED_ROUND_ROBIN).


End Weighted.

(** ** Removing a server *)

(** X17.  After [removeServer(url)] no server of that url is returned by
    [getNextServer], and no connection count or response time is held for
    it; removing a server just added under a url that was not in use gives
    back the balancer as it was. *)
Theorem removeServer_forgets_server :
  forall (lb : t) (u : string),
    (forall rand context s,
       (0 <= rand)%Q -> (rand < 1)%Q ->
       snd (getNextServer rand context (removeServer u lb)) = Picked s -> url s <> u) /\
    connectionCounts (removeServer u lb) !! u = None /\
    responseTimes (removeServer u lb) !! u = None /\
    (forall s,
       url s = u ->
       Forall (fun x => url x <> u) (servers lb) ->
       connectionCounts lb !! u = None -> responseTimes lb !! u = None ->
       removeServer u (addServer s lb) = lb).
Proof.
  intros lb u. split; [|split; [|split]].
  - intros rand context s H0 H1 Hsel.
    apply picked_is_available in Hsel; [|assumption|assumption].
    apply healthy_servers_spec in Hsel. destruct Hsel as [Hin _].
    unfold removeServer in Hin. simpl in Hin. apply filter_In in Hin.
    destruct Hin as [_ Hne]. apply negb_true_iff in Hne.
    destruct (String.eqb_spec (url s) u); [discriminate|assumption].
  - apply lookup_delete_eq.
  - apply lookup_delete_eq.
  - intros s Hu Hfresh Hcc Hrt. unfold removeServer, addServer. destruct lb as [sv st ci cc rt].
    simpl in *. f_equal.
    + rewrite List.filter_app. simpl. rewrite Hu, String.eqb_refl. simpl. rewrite app_nil_r.
      clear Hcc Hrt. induction Hfresh as [|x l Hx _ IH]; simpl; [reflexivity|].
      destruct (String.eqb_spec (url x) u); [contradiction|]. simpl. rewrite IH. reflexivity.
    + rewrite Hu. apply delete_insert_id. exact Hcc.
    + rewrite Hu. apply delete_insert_id. exact Hrt.
Qed.

Lemma removeServer_witness :
  removeServer "D" (addServer (server "D") (threeServers ROUND_ROBIN)) = threeServers ROUND_ROBIN.
Proof.
  refine (proj2 (proj2 (proj2 (removeServer_forgets_server (threeServers ROUND_ROBIN) "D")))
            (server "D") eq_refl _ _ _).
  - repeat constructor; discriminate.
  - vm_compute. reflexivity.
  - vm_compute. reflexivity.
Defined.

End LoadBalancerFacts.

(** ** Properties of the plugin chain *)
Module PluginManagerFacts.
Import PluginManager.
Local Open Scope Z_scope.

Section ChainFacts.
Context {V Err : Type}.
Variable typeField : V -> TypeField.

Abbreviation Plugin := (Plugin V Err).

(** The priority a plugin is registered with; 100 when it has none. *)
Definition priority_of (p : Plugin) : Z :=
  match priority p with
  | Some z => z
  | None => 100
  end.

Definition priority_le (p q : Plugin) : Prop := priority_of p <= priority_of q.

Definition has_hook (hookName : HookName) (p : Plugin) : bool :=
  match hooks p hookName with
  | Some _ => true
  | None => false
  end.

(** The plugins [executeHook] calls: enabled, defining the hook, and let
    through by the type filter. *)
Definition eligible (skipped : list (option V) -> Plugin -> bool)
  (hookName : HookName) (args : list (option V)) (p : Plugin) : bool :=
  is_enabled p && has_hook hookName p && negb (skipped args p).

(** One link of the chain: the hook gets the running value as its first
    argument; a defined return value becomes the running value, and
    returning nothing, or throwing under [Continue], keeps it. *)
Definition apply_hook (hookName : HookName) (args : list (option V))
  (running : option V) (p : Plugin) : option V :=
  match hooks p hookName with
  | Some hook =>
      match hook (call_args running args) with
      | Returns (Some v) => Some v
      | Returns None => running
      | Throws _ => running
      end
  | None => running
  end.

Lemma sort_key_priority (p : Plugin) : priority p <> Some 0 -> sort_key p = priority_of p.
Proof.
  unfold sort_key, priority_of, or_defaultZ. destruct (priority p) as [z|]; [|reflexivity].
  intros H. destruct (Z.eqb_spec z 0); [subst; contradiction|reflexivity].
Qed.

Lemma insert_by_key_perm (p : Plugin) l : Permutation (insert_by_key p l) (p :: l).
Proof.
  induction l as [|q l IH]; simpl; [reflexivity|].
  destruct (sort_key p <=? sort_key q); [reflexivity|].
  rewrite IH. apply perm_swap.
Qed.

Lemma sort_by_key_perm (l : list Plugin) : Permutation (sort_by_key l) l.
Proof.
  induction l as [|p l IH]; simpl; [reflexivity|].
  rewrite insert_by_key_perm. apply perm_skip. exact IH.
Qed.

Definition key_le (p q : Plugin) : Prop := sort_key p <= sort_key q.

Lemma insert_by_key_sorted (p : Plugin) l :
  StronglySorted key_le l -> StronglySorted key_le (insert_by_key p l).
Proof.
  induction 1 as [|q l Hs IH Hq]; simpl.
  - repeat constructor.
  - destruct (Z.leb_spec (sort_key p) (sort_key q)).
    + constructor; [constructor; assumption|].
      constructor; [assumption|].
      eapply List.Forall_impl; [|exact Hq]. intros r Hr. unfold key_le in *. lia.
    + constructor; [exact IH|].
      eapply Permutation_Forall; [symmetry; apply insert_by_key_perm|].
      constructor; [unfold key_le; lia|exact Hq].
Qed.

Lemma sort_by_key_sorted (l : list Plugin) : StronglySorted key_le (sort_by_key l).
Proof.
  induction l as [|p l IH]; simpl; [constructor|].
  apply insert_by_key_sorted. exact IH.
Qed.

(** Stability: among the plugins of one key the order is kept. *)
Lemma insert_by_key_stable (z : Z) (p : Plugin) l :
  List.filter (fun q => sort_key q =? z) (insert_by_key p l) =
  List.filter (fun q => sort_key q =? z) (p :: l).
Proof.
  induction l as [|q l IH]; [reflexivity|].
  simpl insert_by_key. destruct (Z.leb_spec (sort_key p) (sort_key q)); [reflexivity|].
  simpl in *. rewrite IH.
  destruct (Z.eqb_spec (sort_key q) z), (Z.eqb_spec (sort_key p) z); try reflexivity. lia.
Qed.

Lemma sort_by_key_stable (z : Z) (l : list Plugin) :
  List.filter (fun q => sort_key q =? z) (sort_by_key l) =
  List.filter (fun q => sort_key q =? z) l.
Proof.
  induction l as [|p l IH]; [reflexivity|].
  simpl sort_by_key. rewrite insert_by_key_stable. simpl. rewrite IH. reflexivity.
Qed.

(** Plugins of different keys can be inserted in either order. *)
Lemma insert_by_key_comm (p q : Plugin) l :
  sort_key p <> sort_key q ->
  insert_by_key p (insert_by_key q l) = insert_by_key q (insert_by_key p l).
Proof.
  intros Hne. induction l as [|r l IH]; simpl.
  - destruct (Z.leb_spec (sort_key p) (sort_key q)), (Z.leb_spec (sort_key q) (sort_key p));
      try reflexivity; lia.
  - destruct (Z.leb_spec (sort_key q) (sort_key r)), (Z.leb_spec (sort_key p) (sort_key r));
      simpl;
      repeat match goal with
             | |- context [?a <=? ?b] => destruct (Z.leb_spec a b)
             end; try reflexivity; try lia.
    rewrite IH. reflexivity.
Qed.

(** With pairwise different keys the sorted arrangement does not depend on
    the order the plugins were given in. *)
Lemma sort_by_key_order_independent (l l' : list Plugin) :
  Permutation l l' -> List.NoDup (map sort_key l) -> sort_by_key l = sort_by_key l'.
Proof.
  induction 1 as [|p l l' Hp IH|p q l|l l' l'' H1 IH1 H2 IH2]; intros Hnd.
  - reflexivity.
  - simpl in *. inversion Hnd; subst. rewrite IH by assumption. reflexivity.
  - simpl in *. apply insert_by_key_comm.
    inversion Hnd as [|? ? Hnotin _]; subst. intros E. apply Hnotin. left. symmetry. exact E.
  - rewrite IH1 by assumption. apply IH2.
    eapply Permutation_NoDup; [|exact Hnd]. apply Permutation_map. exact H1.
Qed.

(** Under [Continue] the loop is a fold over the plugins that run. *)
Lemma run_hooks_continue skipped hookName args (chain : list Plugin) :
  forall result ran,
    run_hooks skipped Continue hookName args chain result ran =
    (Fulfilled (fold_left (apply_hook hookName args)
                  (List.filter (fun p => has_hook hookName p && negb (skipped args p)) chain)
                  result),
     ran ++ List.filter (fun p => has_hook hookName p && negb (skipped args p)) chain).
Proof.
  induction chain as [|p chain IH]; intros result ran; simpl.
  - rewrite app_nil_r. reflexivity.
  - assert (E : apply_hook hookName args result p =
                match hooks p hookName with
                | Some hook =>
                    match hook (call_args result args) with
                    | Returns (Some v) => Some v
                    | _ => result
                    end
                | None => result
                end).
    { unfold apply_hook. destruct (hooks p hookName) as [hook|]; [|reflexivity].
      destruct (hook (call_args result args)) as [[v|]|e]; reflexivity. }
    unfold has_hook.
    destruct (hooks p hookName) as [hook|] eqn:Hh; simpl; [|apply IH].
    destruct (skipped args p); simpl; [apply IH|].
    rewrite E.
    destruct (hook (call_args result args)) as [[v|]|e];
      rewrite IH, <- app_assoc; reflexivity.
Qed.

Lemma filter_filter_and {A} (f g : A -> bool) (l : list A) :
  List.filter f (List.filter g l) = List.filter (fun x => g x && f x) l.
Proof.
  induction l as [|x l IH]; simpl; [reflexivity|].
  destruct (g x); simpl; [destruct (f x)|]; rewrite IH; reflexivity.
Qed.

Lemma insert_by_key_front (p : Plugin) l :
  Forall (key_le p) l -> insert_by_key p l = p :: l.
Proof.
  intros H. destruct l as [|q l]; [reflexivity|]. simpl.
  inversion H as [|? ? Hq _]; subst. unfold key_le in Hq.
  destruct (Z.leb_spec (sort_key p) (sort_key q)); [reflexivity|lia].
Qed.

Lemma filter_insert_by_key (f : Plugin -> bool) (p : Plugin) l :
  StronglySorted key_le l ->
  List.filter f (insert_by_key p l) =
  if f p then insert_by_key p (List.filter f l) else List.filter f l.
Proof.
  induction 1 as [|q l Hs IH Hq]; simpl.
  - destruct (f p); reflexivity.
  - destruct (Z.leb_spec (sort_key p) (sort_key q)) as [Hle|Hgt]; simpl.
    + destruct (f p) eqn:Hfp; [|reflexivity].
      rewrite insert_by_key_front; [reflexivity|].
      assert (Hall : Forall (key_le p) (q :: l)).
      { constructor; [exact Hle|].
        eapply List.Forall_impl; [|exact Hq]. intros r Hr. unfold key_le in *. lia. }
      apply List.Forall_forall. intros r Hr.
      rewrite List.Forall_forall in Hall. apply Hall.
      change (In r (List.filter f (q :: l))) in Hr. apply filter_In in Hr. apply Hr.
    + rewrite IH. destruct (f q) eqn:Hfq, (f p) eqn:Hfp; simpl; try reflexivity.
      destruct (Z.leb_spec (sort_key p) (sort_key q)); [lia|reflexivity].
Qed.

(** A stable sort commutes with a filter. *)
Lemma filter_sort_by_key (f : Plugin -> bool) (l : list Plugin) :
  List.filter f (sort_by_key l) = sort_by_key (List.filter f l).
Proof.
  induction l as [|p l IH]; [reflexivity|].
  simpl sort_by_key. rewrite filter_insert_by_key by apply sort_by_key_sorted.
  simpl. destruct (f p); simpl; rewrite IH; reflexivity.
Qed.

Lemma filter_perm {A} (f : A -> bool) (l l' : list A) :
  Permutation l l' -> Permutation (List.filter f l) (List.filter f l').
Proof.
  induction 1 as [|x l l' Hp IH|x y l|l l' l'' H1 IH1 H2 IH2]; simpl.
  - reflexivity.
  - destruct (f x); [apply perm_skip|]; exact IH.
  - destruct (f x), (f y); try reflexivity. apply perm_swap.
  - etransitivity; eassumption.
Qed.

Lemma eligible_filter skipped hookName args (l : list Plugin) :
  List.filter (fun p => has_hook hookName p && negb (skipped args p)) (List.filter is_enabled l) =
  List.filter (eligible skipped hookName args) l.
Proof.
  rewrite filter_filter_and. apply filter_ext. intros p. unfold eligible.
  rewrite andb_assoc. reflexivity.
Qed.

(** What [execute] computes under [Continue]: the eligible plugins, stably
    sorted by key, are folded over the running value. *)
Lemma execute_continue skipped (registered : list Plugin) hookName args :
  execute skipped Continue registered hookName args =
  (Fulfilled (fold_left (apply_hook hookName args)
                (sort_by_key (List.filter (eligible skipped hookName args) registered))
                (first_arg args)),
   sort_by_key (List.filter (eligible skipped hookName args) registered)).
Proof.
  unfold execute. rewrite run_hooks_continue. simpl.
  rewrite filter_sort_by_key, eligible_filter. reflexivity.
Qed.

(** The specification of a run: [chain] holds exactly the eligible plugins,
    in ascending priority, those of equal priority in registration order;
    the hooks have been called along [chain], and the result is the running
    value threaded through them. *)
Definition runs_chain (skipped : list (option V) -> Plugin -> bool) (registered : list Plugin)
  (hookName : HookName) (args : list (option V)) (out : Executed V Err * list Plugin) : Prop :=
  exists chain : list Plugin,
    Permutation chain (List.filter (eligible skipped hookName args) registered) /\
    StronglySorted priority_le chain /\
    (forall z, List.filter (fun p => priority_of p =? z) chain =
               List.filter (fun p => priority_of p =? z)
                 (List.filter (eligible skipped hookName args) registered)) /\
    out = (Fulfilled (fold_left (apply_hook hookName args) chain (first_arg args)), chain).

Definition no_zero_priority (registered : list Plugin) : Prop :=
  Forall (fun p => priority p <> Some 0) registered.

Lemma strongly_sorted_in {A} (R R' : A -> A -> Prop) (l : list A) :
  (forall x y, In x l -> In y l -> R x y -> R' x y) ->
  StronglySorted R l -> StronglySorted R' l.
Proof.
  intros HR Hs. induction Hs as [|x l Hs IH Hx]; [constructor|].
  constructor.
  - apply IH. intros a b Ha Hb. apply HR; right; assumption.
  - apply List.Forall_forall. intros y Hy. rewrite List.Forall_forall in Hx.
    apply HR; [left; reflexivity|right; exact Hy|apply Hx; exact Hy].
Qed.

Lemma execute_runs_chain skipped (registered : list Plugin) hookName args :
  no_zero_priority registered ->
  runs_chain skipped registered hookName args
    (execute skipped Continue registered hookName args).
Proof.
  intros Hnz. unfold no_zero_priority in Hnz. rewrite List.Forall_forall in Hnz.
  rewrite execute_continue.
  set (el := List.filter (eligible skipped hookName args) registered).
  assert (Hkey : forall p, In p (sort_by_key el) -> sort_key p = priority_of p).
  { intros p Hp. apply sort_key_priority. apply Hnz.
    apply (Permutation_in _ (sort_by_key_perm el)) in Hp.
    apply filter_In in Hp. apply Hp. }
  assert (Hkey' : forall p, In p el -> sort_key p = priority_of p).
  { intros p Hp. apply Hkey.
    apply (Permutation_in _ (Permutation_sym (sort_by_key_perm el))). exact Hp. }
  exists (sort_by_key el). repeat split.
  - apply sort_by_key_perm.
  - apply (strongly_sorted_in key_le); [|apply sort_by_key_sorted].
    intros x y Hx Hy. unfold key_le, priority_le.
    rewrite (Hkey x Hx), (Hkey y Hy). trivial.
  - intros z.
    rewrite (filter_ext_in (fun p => priority_of p =? z) (fun p => sort_key p =? z)
               (sort_by_key el)) by (intros p Hp; rewrite (Hkey p Hp); reflexivity).
    rewrite sort_by_key_stable.
    apply filter_ext_in. intros p Hp. rewrite (Hkey' p Hp). reflexivity.
Qed.

Lemma execute_order_independent skipped (registered registered' : list Plugin) hookName args :
  no_zero_priority registered ->
  Permutation registered registered' ->
  List.NoDup (map priority_of (List.filter (eligible skipped hookName args) registered)) ->
  execute skipped Continue registered' hookName args =
  execute skipped Continue registered hookName args.
Proof.
  intros Hnz Hperm Hnd. rewrite !execute_continue.
  assert (E : sort_by_key (List.filter (eligible skipped hookName args) registered) =
              sort_by_key (List.filter (eligible skipped hookName args) registered')).
  { apply sort_by_key_order_independent; [apply filter_perm; exact Hperm|].
    erewrite map_ext_in; [exact Hnd|].
    intros p Hp. apply sort_key_priority.
    unfold no_zero_priority in Hnz. rewrite List.Forall_forall in Hnz. apply Hnz.
    apply filter_In in Hp. apply Hp. }
  rewrite E. reflexivity.
Qed.

(** The plugin as [register] stores it. *)
Definition registered_form (p : Plugin) : Plugin :=
  match plugins (register p create) with
  | (_, q) :: _ => q
  | [] => p
  end.

Lemma register_plugins (p : Plugin) (pm : t V Err) :
  plugins (register p pm) = map_set (name p) (registered_form p) (plugins pm).
Proof. reflexivity. Qed.

Lemma registered_form_fields (p : Plugin) :
  name (registered_form p) = name p /\
  hooks (registered_form p) = hooks p /\
  requestTypes (registered_form p) = requestTypes p /\
  is_enabled (registered_form p) = is_enabled p /\
  (forall z, priority p = Some z -> priority (registered_form p) = Some z).
Proof.
  unfold registered_form, is_enabled. simpl. repeat split.
  - destruct (enabled p) as [[|]|]; reflexivity.
  - intros z Hz. rewrite Hz. reflexivity.
Qed.

Lemma registered_form_eligible hookName args (p : Plugin) :
  eligible (skipped_by_requestTypes typeField) hookName args (registered_form p) =
  eligible (skipped_by_requestTypes typeField) hookName args p.
Proof.
  destruct (registered_form_fields p) as (_ & Hh & Hr & He & _).
  unfold eligible, has_hook, skipped_by_requestTypes. rewrite Hh, Hr, He. reflexivity.
Qed.

Lemma two_registered (p q : Plugin) :
  name p <> name q ->
  map_values (plugins (register q (register p create))) =
  [registered_form p; registered_form q].
Proof.
  intros Hne. rewrite register_plugins. rewrite register_plugins.
  simpl. destruct (String.eqb_spec (name p) (name q)); [contradiction|reflexivity].
Qed.

(** C4 (amended).  In a chain where no plugin has priority 0, under the
    'continue' error policy, [executeHook] calls the hook of exactly the
    plugins that are enabled, define the named hook and pass the request-type
    filter, one after the other in ascending priority (equal priorities in
    registration order); each hook receives the running value as its first
    argument, a defined return value replaces the running value, returning
    nothing (or throwing) keeps it, and the final running value is returned.
    The order of the registrations does not matter when the priorities are
    different: priorities 10 and 20 run 10 then 20 whichever was registered
    first.  The same holds of the [src/core] version with its filter by name. *)
Theorem executeHook_runs_eligible_by_priority :
  (forall (pm : t V Err) hookName args,
     errorStrategy pm = Continue ->
     no_zero_priority (map_values (plugins pm)) ->
     runs_chain (skipped_by_requestTypes typeField) (map_values (plugins pm)) hookName args
       (executeHook typeField pm hookName args)) /\
  (forall (pm : t V Err) hookName args,
     no_zero_priority (map_values (plugins pm)) ->
     runs_chain (skipped_by_name typeField) (map_values (plugins pm)) hookName args
       (executeHook_legacy typeField pm hookName args)) /\
  (forall (pm pm' : t V Err) hookName args,
     errorStrategy pm = Continue -> errorStrategy pm' = Continue ->
     no_zero_priority (map_values (plugins pm)) ->
     Permutation (map_values (plugins pm)) (map_values (plugins pm')) ->
     List.NoDup (map priority_of
       (List.filter (eligible (skipped_by_requestTypes typeField) hookName args)
          (map_values (plugins pm)))) ->
     executeHook typeField pm' hookName args = executeHook typeField pm hookName args) /\
  (forall (p10 p20 : Plugin) hookName args,
     priority p10 = Some 10 -> priority p20 = Some 20 ->
     name p10 <> name p20 ->
     eligible (skipped_by_requestTypes typeField) hookName args p10 = true ->
     eligible (skipped_by_requestTypes typeField) hookName args p20 = true ->
     map name (snd (executeHook typeField (register p20 (register p10 create)) hookName args))
       = [name p10; name p20] /\
     map name (snd (executeHook typeField (register p10 (register p20 create)) hookName args))
       = [name p10; name p20]).
Proof.
  split; [|split; [|split]].
  - intros pm hookName args Hc Hnz. unfold executeHook. rewrite Hc.
    apply execute_runs_chain. exact Hnz.
  - intros pm hookName args Hnz. unfold executeHook_legacy.
    apply execute_runs_chain. exact Hnz.
  - intros pm pm' hookName args Hc Hc' Hnz Hperm Hnd. unfold executeHook.
    rewrite Hc, Hc'. apply execute_order_independent; assumption.
  - intros p10 p20 hookName args H10 H20 Hne He10 He20.
    destruct (registered_form_fields p10) as (Hn10 & _ & _ & _ & Hp10).
    destruct (registered_form_fields p20) as (Hn20 & _ & _ & _ & Hp20).
    assert (Hk10 : sort_key (registered_form p10) = 10)
      by (unfold sort_key; rewrite (Hp10 10 H10); reflexivity).
    assert (Hk20 : sort_key (registered_form p20) = 20)
      by (unfold sort_key; rewrite (Hp20 20 H20); reflexivity).
    unfold executeHook.
    rewrite (two_registered p10 p20 Hne).
    rewrite (two_registered p20 p10 (fun E => Hne (eq_sym E))).
    change (errorStrategy (register p20 (register p10 create))) with Continue.
    change (errorStrategy (register p10 (register p20 create))) with Continue.
    rewrite !execute_continue. simpl snd.
    simpl List.filter. rewrite !registered_form_eligible, He10, He20.
    simpl sort_by_key. rewrite Hk10, Hk20. simpl.
    rewrite ?Hn10, ?Hn20. split; reflexivity.
Qed.

End ChainFacts.

(** ** Examples: contexts are a request kind with a payload *)

Definition kindOf (v : RequestType * Z) : TypeField := TypeIs (fst v).

Definition examplePlugin (n : string) (pr : Z) (kinds : option (list RequestType))
  (hook : Hook (RequestType * Z) unit) : Plugin (RequestType * Z) unit :=
  {| name := n; version := None; enabled := None; type := None; priority := Some pr;
     requestTypes := kinds;
     hooks := fun h => match h with beforeRequest => Some hook | _ => None end |}.

(** A hook that adds [k] to the payload of the running value. *)
Definition adds (k : Z) : Hook (RequestType * Z) unit :=
  fun args =>
    match args with
    | Some (kind, n) :: _ => Returns (Some (kind, n + k))
    | _ => Returns None
    end.

(** A hook that returns nothing. *)
Definition silent : Hook (RequestType * Z) unit := fun _ => Returns None.

Lemma executeHook_witness :
  map name (snd (executeHook kindOf
     (register (examplePlugin "second" 20 None silent)
        (register (examplePlugin "first" 10 None (adds 1)) create))
     beforeRequest [Some (FETCH, 0)])) = ["first"; "second"]%string /\
  map name (snd (executeHook kindOf
     (register (examplePlugin "first" 10 None (adds 1))
        (register (examplePlugin "second" 20 None silent) create))
     beforeRequest [Some (FETCH, 0)])) = ["first"; "second"]%string.
Proof.
  refine (proj2 (proj2 (proj2 (executeHook_runs_eligible_by_priority kindOf)))
            (examplePlugin "first" 10 None (adds 1)) (examplePlugin "second" 20 None silent)
            beforeRequest [Some (FETCH, 0)] eq_refl eq_refl _ eq_refl eq_refl).
  discriminate.
Defined.

(** C4, as stated, fails: a plugin that is enabled and defines
    [beforeRequest], but lists only XHR in [requestTypes], is not run for a
    FETCH context; the running value comes back untouched. *)
Lemma enabled_plugin_with_hook_not_run :
  let pm := register (examplePlugin "xhr-only" 10 (Some [XHR]) (adds 1)) create in
  map (fun p => (is_enabled p, has_hook beforeRequest p)) (map_values (plugins pm))
    = [(true, true)] /\
  executeHook kindOf pm beforeRequest [Some (FETCH, 0)] = (Fulfilled (Some (FETCH, 0)), []).
Proof. split; reflexivity. Qed.

(** The sort key is [priority || 100]: a plugin of priority 0, the default
    [register] gives an interceptor plugin, is sorted as if it had 100 and
    runs after a plugin of priority 50. *)
Lemma priority_zero_sorted_as_100 :
  map name (snd (executeHook kindOf
     (register (examplePlugin "business" 50 None silent)
        (register (examplePlugin "infrastructure" 0 None silent) create))
     beforeRequest [Some (FETCH, 0)])) = ["business"; "infrastructure"]%string.
Proof. reflexivity. Qed.

(** ** Error strategies *)

Section Strategies.
Context {V Err : Type}.
Variable typeField : V -> TypeField.

Lemma run_hooks_extends (skipped : list (option V) -> Plugin V Err -> bool)
  (strategy : ErrorStrategy) (hookName : HookName) (args : list (option V)) :
  forall (chain : list (Plugin V Err)) (result : option V) (ran : list (Plugin V Err)),
    exists rest, snd (run_hooks skipped strategy hookName args chain result ran) = ran ++ rest.
Proof.
  assert (Hsnoc : forall (ran : list (Plugin V Err)) p x,
            (exists rest, x = (ran ++ [p]) ++ rest) -> exists rest, x = ran ++ rest).
  { intros ran p x [rest ->]. exists (p :: rest). rewrite <- app_assoc. reflexivity. }
  induction chain as [|plugin chain IH]; intros result ran; simpl.
  - exists []. rewrite app_nil_r. reflexivity.
  - destruct (hooks plugin hookName) as [hook|]; [|apply IH].
    destruct (skipped args plugin); [apply IH|].
    destruct (hook (call_args result args)) as [[v|]|e].
    + apply (Hsnoc ran plugin). apply IH.
    + apply (Hsnoc ran plugin). apply IH.
    + destruct strategy; simpl.
      * apply (Hsnoc ran plugin). apply IH.
      * exists [plugin]. reflexivity.
      * exists [plugin]. reflexivity.
Qed.

Lemma run_hooks_strategies (skipped : list (option V) -> Plugin V Err -> bool)
  (hookName : HookName) (args : list (option V)) :
  forall (chain : list (Plugin V Err)) (result : option V) (ran : list (Plugin V Err)),
    let stop := run_hooks skipped Stop hookName args chain result ran in
    let throw := run_hooks skipped Throw hookName args chain result ran in
    let continue := run_hooks skipped Continue hookName args chain result ran in
    snd stop = snd throw /\
    (exists rest, snd continue = snd stop ++ rest) /\
    match fst throw with
    | Fulfilled v => stop = throw /\ continue = throw
    | Failed e =>
        exists v p hook before,
          fst stop = Fulfilled v /\ snd stop = before ++ [p] /\
          hooks p hookName = Some hook /\ hook (call_args v args) = Throws e
    end.
Proof.
  induction chain as [|plugin chain IH]; intros result ran; simpl.
  - split; [reflexivity|]. split; [exists []; rewrite app_nil_r; reflexivity|].
    split; reflexivity.
  - destruct (hooks plugin hookName) as [hook|] eqn:Hhook; [|apply IH].
    destruct (skipped args plugin); [apply IH|].
    destruct (hook (call_args result args)) as [[v|]|e] eqn:Hcall.
    + apply IH.
    + apply IH.
    + simpl. split; [reflexivity|]. split; [apply run_hooks_extends|].
      exists result, plugin, hook, ran. repeat split; assumption.
Qed.

(** X22.  The three error strategies of [executeHook] differ only from the
    first hook that throws.  Under 'stop' and 'throw' the same hooks are
    called, and they are the first ones called under 'continue'.  When no
    hook throws the three give the same result.  When a hook throws, it is
    the last one called under 'stop' and 'throw': 'throw' rejects with its
    error and 'stop' resolves with the running value that hook was called
    with. *)
Theorem error_strategy_acts_at_first_throw :
  forall (pm : t V Err) (hookName : HookName) (args : list (option V)),
    let stop := executeHook typeField (setErrorStrategy Stop pm) hookName args in
    let throw := executeHook typeField (setErrorStrategy Throw pm) hookName args in
    let continue := executeHook typeField (setErrorStrategy Continue pm) hookName args in
    snd stop = snd throw /\
    (exists rest, snd continue = snd stop ++ rest) /\
    match fst throw with
    | Fulfilled v => stop = throw /\ continue = throw
    | Failed e =>
        exists v p hook before,
          fst stop = Fulfilled v /\ snd stop = before ++ [p] /\
          hooks p hookName = Some hook /\ hook (call_args v args) = Throws e
    end.
Proof.
  intros pm hookName args. unfold executeHook, execute. simpl plugins. simpl errorStrategy.
  apply run_hooks_strategies.
Qed.

(** ** The registry *)

Lemma map_get_set (key other : string) (p : Plugin V Err) (m : list (string * Plugin V Err)) :
  map_get other (map_set key p m) = if String.eqb key other then Some p else map_get other m.
Proof.
  induction m as [|[k q] m IH]; simpl.
  - reflexivity.
  - destruct (String.eqb_spec k key) as [->|Hk]; simpl.
    + destruct (String.eqb key other); reflexivity.
    + destruct (String.eqb_spec k other) as [->|Ho].
      * destruct (String.eqb_spec key other); [congruence|reflexivity].
      * exact IH.
Qed.

Lemma map_get_none (key : string) (m : list (string * Plugin V Err)) :
  map_get key m = None <-> ~ In key (map fst m).
Proof.
  induction m as [|[k q] m IH]; simpl; [tauto|].
  destruct (String.eqb_spec k key) as [->|Hk].
  - split; [discriminate|]. intros H. exfalso. apply H. left. reflexivity.
  - rewrite IH. tauto.
Qed.

Lemma map_set_absent (key : string) (p : Plugin V Err) (m : list (string * Plugin V Err)) :
  map_get key m = None -> map_set key p m = m ++ [(key, p)].
Proof.
  induction m as [|[k q] m IH]; simpl; [reflexivity|].
  destruct (String.eqb_spec k key); [discriminate|].
  intros H. rewrite IH by exact H. reflexivity.
Qed.

Lemma map_set_present (key : string) (p : Plugin V Err) (m : list (string * Plugin V Err)) :
  map_get key m <> None -> map fst (map_set key p m) = map fst m.
Proof.
  induction m as [|[k q] m IH]; simpl; [congruence|].
  destruct (String.eqb_spec k key) as [->|Hk]; [reflexivity|].
  intros H. simpl. rewrite IH by exact H. reflexivity.
Qed.

(** X23.  The registry keeps one plugin per name.  After [register(plugin)]
    [getPlugin] returns, under the plugin's name, the plugin with its
    defaults filled in, and under any other name what it returned before.
    A plugin of a new name goes to the end of [getAllPlugins]; a plugin of
    a name in use takes the place of the old one, the names keeping their
    order.  No name is ever held twice. *)
Theorem register_keeps_one_plugin_per_name :
  forall (pm : t V Err) (p : Plugin V Err),
    getPlugin (name p) (register p pm) = Some (registered_form p) /\
    (forall other, other <> name p -> getPlugin other (register p pm) = getPlugin other pm) /\
    (getPlugin (name p) pm = None ->
     getAllPlugins (register p pm) = getAllPlugins pm ++ [registered_form p]) /\
    (getPlugin (name p) pm <> None ->
     map fst (plugins (register p pm)) = map fst (plugins pm)) /\
    (List.NoDup (map fst (plugins pm)) -> List.NoDup (map fst (plugins (register p pm)))).
Proof.
  intros pm p. unfold getPlugin, getAllPlugins. rewrite register_plugins.
  split; [|split; [|split; [|split]]].
  - rewrite map_get_set, String.eqb_refl. reflexivity.
  - intros other Hother. rewrite map_get_set.
    destruct (String.eqb_spec (name p) other); [congruence|reflexivity].
  - intros Hnone. rewrite (map_set_absent _ _ _ Hnone). unfold map_values.
    rewrite map_app. reflexivity.
  - apply map_set_present.
  - intros Hnd. destruct (map_get (name p) (plugins pm)) as [q|] eqn:Hget.
    + rewrite map_set_present by congruence. exact Hnd.
    + rewrite (map_set_absent _ _ _ Hget), map_app. simpl.
      apply List.NoDup_app.
      * exact Hnd.
      * constructor; [intros []|constructor].
      * intros a Hin [<-|[]]. apply map_get_none in Hget. contradiction.
Qed.

(** ** Default priorities *)

Lemma default_sort_key (p : Plugin V Err) :
  priority p = None -> sort_key (registered_form p) = 100.
Proof.
  intros Hp. unfold registered_form, sort_key. simpl. rewrite Hp.
  destruct (type p) as [[|]|]; reflexivity.
Qed.

(** X24.  A plugin registered without a priority is sorted under the key
    100 by [executeHook], an interceptor plugin too: its default priority 0
    is read as 100.  So an interceptor plugin left at its default priority
    runs after a plugin of any priority between 1 and 99, whichever was
    registered first. *)
Theorem default_priority_sorts_as_100 :
  (forall p : Plugin V Err, priority p = None -> sort_key (registered_form p) = 100) /\
  (forall (p q : Plugin V Err) (hookName : HookName) (args : list (option V)) (z : Z),
     type p = Some INTERCEPTOR -> priority p = None ->
     priority q = Some z -> 0 < z < 100 ->
     name p <> name q ->
     PluginManagerFacts.eligible (skipped_by_requestTypes typeField) hookName args p = true ->
     PluginManagerFacts.eligible (skipped_by_requestTypes typeField) hookName args q = true ->
     priority (registered_form p) = Some 0 /\
     map name (snd (executeHook typeField (register q (register p create)) hookName args))
       = [name q; name p] /\
     map name (snd (executeHook typeField (register p (register q create)) hookName args))
       = [name q; name p]).
Proof.
  split; [exact default_sort_key|].
  intros p q hookName args z Hty Hp Hq Hz Hne Hep Heq.
  destruct (registered_form_fields p) as (Hnp & _ & _ & _ & _).
  destruct (registered_form_fields q) as (Hnq & _ & _ & _ & Hpq).
  assert (Hkp : sort_key (registered_form p) = 100) by (apply default_sort_key; exact Hp).
  assert (Hkq : sort_key (registered_form q) = z).
  { unfold sort_key. rewrite (Hpq z Hq). unfold or_defaultZ.
    destruct (Z.eqb_spec z 0); [lia|reflexivity]. }
  split; [unfold registered_form; simpl; rewrite Hp, Hty; reflexivity|].
  unfold executeHook.
  rewrite (two_registered p q Hne).
  rewrite (two_registered q p (fun E => Hne (eq_sym E))).
  change (errorStrategy (register q (register p create))) with Continue.
  change (errorStrategy (register p (register q create))) with Continue.
  rewrite !execute_continue. simpl snd.
  simpl List.filter. rewrite !registered_form_eligible, Hep, Heq.
  simpl sort_by_key. rewrite Hkp, Hkq.
  destruct (Z.leb_spec 100 z); [lia|]. destruct (Z.leb_spec z 100); [|lia].
  cbn [map]. rewrite Hnp, Hnq. split; reflexivity.
Qed.

End Strategies.

Lemma default_priority_witness :
  map name (snd (executeHook kindOf
     (register (examplePlugin "business" 50 None silent)
        (register {| name := "infrastructure"; version := None; enabled := None;
                     type := Some INTERCEPTOR; priority := None; requestTypes := None;
                     hooks := fun h => match h with
                                       | beforeRequest => Some silent
                                       | _ => None
                                       end |} create))
     beforeRequest [Some (FETCH, 0)])) = ["business"; "infrastructure"]%string.
Proof.
  refine (proj1 (proj2 (proj2 (default_priority_sorts_as_100 kindOf)
            {| name := "infrastructure"; version := None; enabled := None;
               type := Some INTERCEPTOR; priority := None; requestTypes := None;
               hooks := fun h => match h with
                                 | beforeRequest => Some silent
                                 | _ => None
                                 end |}
            (examplePlugin "business" 50 None silent)
            beforeRequest [Some (FETCH, 0)] 50 eq_refl eq_refl eq_refl _ _ eq_refl eq_refl))).
  - lia.
  - discriminate.
Defined.

Lemma register_witness :
  getAllPlugins (register (examplePlugin "second" 20 None silent)
                   (register (examplePlugin "first" 10 None (adds 1)) create))
  = getAllPlugins (register (examplePlugin "first" 10 None (adds 1)) create)
    ++ [registered_form (examplePlugin "second" 20 None silent)].
Proof.
  exact (proj1 (proj2 (proj2 (register_keeps_one_plugin_per_name
                                (register (examplePlugin "first" 10 None (adds 1)) create)
                                (examplePlugin "second" 20 None silent)))) eq_refl).
Defined.

(** ** The fields [register] fills in *)

Section Defaults.
Context {V Err : Type}.

(** The three optional fields that [register] sets when they are missing. *)
Definition defaults_filled (p : Plugin V Err) : Prop :=
  enabled p <> None /\ type p <> None /\ priority p <> None.

Lemma registered_form_filled (p : Plugin V Err) : defaults_filled (registered_form p).
Proof.
  unfold defaults_filled, registered_form. simpl.
  destruct (enabled p), (type p) as [[|]|], (priority p); repeat split; discriminate.
Qed.

Lemma map_set_forall (P : Plugin V Err -> Prop) (key : string) (p : Plugin V Err)
  (m : list (string * Plugin V Err)) :
  P p -> Forall P (map_values m) -> Forall P (map_values (map_set key p m)).
Proof.
  intros Hp. unfold map_values. induction m as [|[k q] m IH]; simpl; intros Hm.
  - constructor; [exact Hp|constructor].
  - inversion Hm as [|? ? Hq Hrest]; subst.
    destruct (String.eqb k key); simpl; constructor; try assumption. apply IH. exact Hrest.
Qed.

Lemma registerMultiple_filled (l : list (Plugin V Err)) :
  forall pm : t V Err,
    Forall defaults_filled (getAllPlugins pm) ->
    Forall defaults_filled (getAllPlugins (registerMultiple l pm)).
Proof.
  unfold registerMultiple, getAllPlugins.
  induction l as [|p l IH]; intros pm Hpm; simpl; [exact Hpm|].
  apply IH. rewrite register_plugins. apply map_set_forall; [|exact Hpm].
  apply registered_form_filled.
Qed.

(** X26.  Every plugin held by a manager that was filled through [register]
    or [registerMultiple] has its enabled flag, type and priority set.  In
    such a manager each plugin is listed by [getPluginsByType] under exactly
    one of the two types, and [getEnabledCount] counts the plugins whose
    flag is true, which are the ones [executeHook] goes through. *)
Theorem registered_plugins_have_defaults :
  (forall l : list (Plugin V Err),
     Forall defaults_filled (getAllPlugins (registerMultiple l create))) /\
  (forall (pm : t V Err) (p : Plugin V Err),
     Forall defaults_filled (getAllPlugins pm) ->
     Forall defaults_filled (getAllPlugins (register p pm))) /\
  (forall pm : t V Err,
     Forall defaults_filled (getAllPlugins pm) ->
     (length (getPluginsByType INTERCEPTOR pm) + length (getPluginsByType BUSINESS pm)
      = length (getAllPlugins pm))%nat /\
     (forall p, In p (getPluginsByType INTERCEPTOR pm) -> ~ In p (getPluginsByType BUSINESS pm)) /\
     getEnabledCount pm
     = length (List.filter (fun p => match enabled p with Some true => true | _ => false end)
                 (getAllPlugins pm))).
Proof.
  split; [|split].
  - intros l. apply registerMultiple_filled. constructor.
  - intros pm p Hpm. apply (registerMultiple_filled [p] pm Hpm).
  - intros pm. unfold getPluginsByType, getEnabledCount, getAllPlugins.
    induction (map_values (plugins pm)) as [|p l IH]; intros Hall.
    + simpl. repeat split. intros p [].
    + inversion Hall as [|? ? (He & Ht & _) Hrest]; subst.
      destruct (IH Hrest) as (Hsum & Hdisj & Hcount).
      split; [|split].
      * assert (Hone : has_type INTERCEPTOR p = negb (has_type BUSINESS p)).
        { unfold has_type. destruct (type p) as [[|]|]; [reflexivity|reflexivity|contradiction]. }
        cbn [List.filter]. rewrite Hone.
        destruct (has_type BUSINESS p); cbn [negb length]; lia.
      * intros q Hq Hq'. apply filter_In in Hq, Hq'.
        destruct Hq as [_ Hi], Hq' as [_ Hb]. unfold has_type in Hi, Hb.
        destruct (type q) as [[|]|]; discriminate.
      * cbn [List.filter]. unfold is_enabled at 1.
        destruct (enabled p) as [[|]|]; [|exact Hcount|contradiction].
        cbn [length]. rewrite Hcount. reflexivity.
Qed.

End Defaults.

Lemma registered_defaults_witness :
  (length (getPluginsByType INTERCEPTOR
             (register (examplePlugin "first" 10 None (adds 1)) create))
   + length (getPluginsByType BUSINESS
               (register (examplePlugin "first" 10 None (adds 1)) create))
   = length (getAllPlugins (register (examplePlugin "first" 10 None (adds 1)) create)))%nat.
Proof.
  pose proof (proj1 registered_plugins_have_defaults [examplePlugin "first" 10 None (adds 1)])
    as Hfilled.
  exact (proj1 (proj2 (proj2 registered_plugins_have_defaults)
                  (register (examplePlugin "first" 10 None (adds 1)) create) Hfilled)).
Defined.

End PluginManagerFacts.

(** ** Properties of the rate limiter *)
Module RateLimiterFacts.
Import RateLimiter.

Section Denial.
Context {N : Type} `{JsNumber N}.

(** The token level after the refill for the time passed, before any token
    is taken. *)
Definition refilled (rl : t N) (record : RequestRecord N) (now : N) : N :=
  min (maxRequests rl)
      (add (or_num (tokens record) zero)
           (mul (div (sub now (or_num (lastRefill record) now)) (windowMs rl))
                (maxRequests rl))).

(** The bucket level after the leak for the time passed, before any request
    is added. *)
Definition leaked (rl : t N) (record : RequestRecord N) (now : N) : N :=
  max zero
      (sub (count record)
           (mul (div (sub now (or_num (lastRefill record) now)) (windowMs rl))
                (maxRequests rl))).

(** What a denied request leaves of a record: the record it found with the
    time-based step of the algorithm and nothing else, every field told. *)
Definition denied_leaves (rl : t N) (now : N) (before after : RequestRecord N) : Prop :=
  match algorithm rl with
  | FIXED_WINDOW =>
      after = (if geb now (resetTime before)
               then {| count := zero; resetTime := add now (windowMs rl);
                       timestamps := timestamps before; tokens := tokens before;
                       lastRefill := lastRefill before |}
               else before) /\
      geb (count after) (maxRequests rl) = true
  | SLIDING_WINDOW =>
      after = {| count := count before; resetTime := resetTime before;
                 timestamps :=
                   List.filter (fun ts => ltb (sub now (windowMs rl)) ts) (timestamps before);
                 tokens := tokens before; lastRefill := lastRefill before |} /\
      geb (length_of (timestamps after)) (maxRequests rl) = true
  | TOKEN_BUCKET =>
      after = {| count := count before; resetTime := resetTime before;
                 timestamps := timestamps before;
                 tokens := Some (refilled rl before now); lastRefill := Some now |} /\
      ltb (refilled rl before now) one = true
  | LEAKY_BUCKET =>
      after = {| count := leaked rl before now; resetTime := resetTime before;
                 timestamps := timestamps before; tokens := tokens before;
                 lastRefill := Some now |} /\
      geb (leaked rl before now) (maxRequests rl) = true
  end.

Lemma decide_request_denied (rl : t N) (record : RequestRecord N) (now : N) :
  snd (decide_request rl record now) = false ->
  denied_leaves rl now record (fst (decide_request rl record now)).
Proof.
  unfold decide_request, denied_leaves.
  destruct (algorithm rl).
  - unfold _fixedWindow. cbv zeta.
    destruct (geb now (resetTime record)) eqn:Hreset; simpl;
      match goal with |- context [if ?c then _ else _] => destruct c eqn:Hfull end;
      simpl; intros Hd; try discriminate; split; assumption || reflexivity.
  - unfold _slidingWindow. cbv zeta.
    match goal with |- context [if ?c then _ else _] => destruct c eqn:Hfull end;
      simpl; intros Hd; try discriminate; split; assumption || reflexivity.
  - unfold _tokenBucket. cbv zeta. fold (refilled rl record now).
    destruct (ltb (refilled rl record now) one) eqn:Hlow;
      simpl; intros Hd; try discriminate; split; reflexivity.
  - unfold _leakyBucket. cbv zeta. fold (leaked rl record now).
    destruct (geb (leaked rl record now) (maxRequests rl)) eqn:Hfull;
      simpl; intros Hd; try discriminate; split; reflexivity.
Qed.

Lemma allowRequest_unfold (now created : N) (context : RequestContext) (rl : t N) :
  let key := keyGenerator rl context in
  let decision := decide_request rl (record_for rl key created) now in
  snd (allowRequest now created context rl) = snd decision /\
  records (fst (allowRequest now created context rl)) =
    <[key := fst decision]> (records rl) /\
  algorithm (fst (allowRequest now created context rl)) = algorithm rl /\
  windowMs (fst (allowRequest now created context rl)) = windowMs rl /\
  maxRequests (fst (allowRequest now created context rl)) = maxRequests rl /\
  keyGenerator (fst (allowRequest now created context rl)) = keyGenerator rl.
Proof.
  intros key decision. unfold allowRequest. fold key. fold decision.
  destruct decision as [record' allowed]. simpl. repeat split.
Qed.

(** A call of [allowRequest] that returns false leaves, under the key of the
    request, the record it found (or the new record, for a new key) with
    its time-based step only, and the records of the other keys as they
    were. *)
Lemma denied_request_record (rl : t N) (context : RequestContext) (now created : N) :
  snd (allowRequest now created context rl) = false ->
  let key := keyGenerator rl context in
  let rl' := fst (allowRequest now created context rl) in
  (exists after,
     records rl' !! key = Some after /\
     denied_leaves rl now (record_for rl key created) after) /\
  (forall other, other <> key -> records rl' !! other = records rl !! other).
Proof.
  intros Hdenied key rl'.
  destruct (allowRequest_unfold now created context rl) as (Hans & Hrec & _).
  fold key in Hans, Hrec. fold rl' in Hrec. rewrite Hans in Hdenied. split.
  - exists (fst (decide_request rl (record_for rl key created) now)). split.
    + rewrite Hrec. apply lookup_insert_eq.
    + apply decide_request_denied. exact Hdenied.
  - intros other Hother. rewrite Hrec. apply lookup_insert_ne. congruence.
Qed.

(** The decision reads the configuration of the limiter, not its records. *)
Lemma decide_request_config (rl rl' : t N) (record : RequestRecord N) (now : N) :
  algorithm rl' = algorithm rl -> windowMs rl' = windowMs rl ->
  maxRequests rl' = maxRequests rl ->
  decide_request rl' record now = decide_request rl record now.
Proof.
  intros Ha Hw Hm.
  unfold decide_request, _fixedWindow, _slidingWindow, _tokenBucket, _leakyBucket.
  rewrite Ha, Hw, Hm. reflexivity.
Qed.

End Denial.

(** ** The token bucket in exact arithmetic *)
Section Exact.
Local Open Scope Q_scope.

Definition tokenConfig {N : Type} (w m : N) : RateLimitConfig N :=
  {| cfg_algorithm := Some TOKEN_BUCKET; cfg_windowMs := Some w; cfg_maxRequests := Some m;
     cfg_keyGenerator := None; cfg_onLimitReached := false |}.

(** The bucket of [key] holds [level] tokens (up to equality of fractions),
    last refilled at [last]; [created] is the clock for a key not seen yet. *)
Definition level_is (rl : t Q) (key : string) (created level last : Q) : Prop :=
  exists q0, tokens (record_for rl key created) = Some q0 /\ q0 == level /\
             lastRefill (record_for rl key created) = Some last.

Lemma truthy_Q (q : Q) : truthy q = true <-> ~ q == 0.
Proof.
  simpl. rewrite negb_true_iff. split.
  - intros Hf Hq. apply Qeq_bool_iff in Hq. congruence.
  - intros Hq. destruct (Qeq_bool q 0) eqn:E; [|reflexivity].
    apply Qeq_bool_iff in E. contradiction.
Qed.

Lemma or_num_zero (q : Q) : or_num (Some q) zero == q.
Proof.
  unfold or_num. destruct (truthy q) eqn:E; [reflexivity|].
  simpl in *. apply negb_false_iff in E. apply Qeq_bool_iff in E. rewrite E. reflexivity.
Qed.

Lemma min_Q_spec (a b : Q) :
  (a <= b -> min a b == a) /\ (b <= a -> min a b == b).
Proof.
  simpl. destruct (Qle_bool a b) eqn:E.
  - apply Qle_bool_iff in E. split; intros Hle; [reflexivity|]. apply Qle_antisym; assumption.
  - assert (Hlt : ~ a <= b) by (intros Hle; apply Qle_bool_iff in Hle; congruence).
    split; intros Hle; [contradiction|reflexivity].
Qed.

Lemma min_Q_compat (a b b' : Q) : b == b' -> min a b == min a b'.
Proof.
  intros Hb. simpl.
  destruct (Qle_bool a b) eqn:E, (Qle_bool a b') eqn:E'; try reflexivity; try assumption.
  - apply Qle_bool_iff in E. rewrite Hb in E. apply Qle_bool_iff in E. congruence.
  - apply Qle_bool_iff in E'. rewrite <- Hb in E'. apply Qle_bool_iff in E'. congruence.
Qed.

Lemma Qle_bool_compat (a b b' : Q) : b == b' -> Qle_bool a b = Qle_bool a b'.
Proof.
  intros Hb. apply eq_true_iff_eq. rewrite !Qle_bool_iff. rewrite Hb. reflexivity.
Qed.

(** One call against a bucket whose level is known: the refill [gain] for
    the time since [last] is added up to the capacity; with a level of at
    least 1 the request is let in and takes one token. *)
Lemma allow_token (rl : t Q) (context : RequestContext) (now created level last gain x : Q) :
  algorithm rl = TOKEN_BUCKET ->
  level_is rl (keyGenerator rl context) created level last ->
  (now - (if truthy last then last else now)) / windowMs rl * maxRequests rl == gain ->
  min (maxRequests rl) (level + gain) == x ->
  let rl' := fst (allowRequest now created context rl) in
  snd (allowRequest now created context rl) = Qle_bool 1 x /\
  (forall created', level_is rl' (keyGenerator rl' context) created'
                      (if Qle_bool 1 x then x - 1 else x) now) /\
  algorithm rl' = algorithm rl /\ windowMs rl' = windowMs rl /\
  maxRequests rl' = maxRequests rl /\ keyGenerator rl' = keyGenerator rl.
Proof.
  intros Halg (q0 & Htok & Hq0 & Hlast) Hgain Hx rl'.
  destruct (allowRequest_unfold now created context rl) as (Hans & Hrec & Ha & Hw & Hm & Hk).
  fold rl' in Hrec, Ha, Hw, Hm, Hk.
  set (key := keyGenerator rl context) in *.
  set (record := record_for rl key created) in *.
  assert (Hre : refilled rl record now == x).
  { unfold refilled. rewrite Htok, Hlast. rewrite <- Hx.
    apply min_Q_compat.
    pose proof (or_num_zero q0) as E0. unfold or_num in *. simpl in E0, Hgain |- *.
    rewrite E0, Hq0, Hgain. reflexivity. }
  assert (Hdec : decide_request rl record now = _tokenBucket rl record now)
    by (unfold decide_request; rewrite Halg; reflexivity).
  rewrite Hdec in Hans, Hrec.
  unfold _tokenBucket in Hans, Hrec. cbv zeta in Hans, Hrec.
  fold (refilled rl record now) in Hans, Hrec.
  assert (Hlt : ltb (refilled rl record now) one = negb (Qle_bool 1 x)).
  { simpl. f_equal. apply Qle_bool_compat. exact Hre. }
  rewrite Hlt in Hans, Hrec.
  repeat split; try assumption.
  - rewrite Hans. destruct (Qle_bool 1 x); reflexivity.
  - intros created'. unfold level_is, record_for. rewrite Hk. fold key.
    rewrite Hrec, lookup_insert_eq.
    destruct (Qle_bool 1 x); simpl.
    + eexists. split; [reflexivity|]. split; [|reflexivity].
      rewrite Hre. reflexivity.
    + eexists. split; [reflexivity|]. split; [exact Hre|reflexivity].
Qed.

Lemma level_is_compat (rl : t Q) key created level level' last :
  level == level' -> level_is rl key created level last ->
  level_is rl key created level' last.
Proof.
  intros Heq (q0 & Htok & Hq0 & Hlast). exists q0.
  split; [exact Htok|]. split; [rewrite Hq0; exact Heq|exact Hlast].
Qed.

Lemma requests_app {N : Type} `{JsNumber N} (l1 l2 : list N) context (rl : t N) :
  requests (l1 ++ l2) context rl =
  (fst (requests l1 context rl) ++ fst (requests l2 context (snd (requests l1 context rl))),
   snd (requests l2 context (snd (requests l1 context rl)))).
Proof.
  revert rl. induction l1 as [|now l1 IH]; intros rl; simpl.
  - destruct (requests l2 context rl). reflexivity.
  - destruct (allowRequest now now context rl) as [rl1 allowed].
    rewrite IH. destruct (requests l1 context rl1) as [answers rl2]. reflexivity.
Qed.

Lemma requests_windowMs {N : Type} `{JsNumber N} (l : list N) context (rl : t N) :
  windowMs (snd (requests l context rl)) = windowMs rl.
Proof.
  revert rl. induction l as [|now l IH]; intros rl; simpl; [reflexivity|].
  destruct (allowRequest_unfold now now context rl) as (_ & _ & _ & Hw & _).
  destruct (allowRequest now now context rl) as [rl' a]. simpl in Hw.
  specialize (IH rl'). destruct (requests l context rl'). simpl in *. congruence.
Qed.

Lemma inject_nat_le (a b : nat) : (a <= b)%nat -> inject_Z (Z.of_nat a) <= inject_Z (Z.of_nat b).
Proof. intros Hle. rewrite <- Zle_Qle. lia. Qed.

Lemma inject_nat_succ (a : nat) : inject_Z (Z.of_nat (S a)) == inject_Z (Z.of_nat a) + 1.
Proof. rewrite Nat2Z.inj_succ. unfold Z.succ. rewrite inject_Z_plus. reflexivity. Qed.

(** The limiter of the burst: a token bucket of capacity [m] whose key was
    (or is about to be) created at [t0]. *)
Definition bucket_of (m : nat) (t0 : Q) (rl : t Q) : Prop :=
  algorithm rl = TOKEN_BUCKET /\ 0 < windowMs rl /\
  maxRequests rl = inject_Z (Z.of_nat m) /\ keyGenerator rl = _defaultKeyGenerator.

(** [n] immediate requests against a bucket holding [m - k] tokens are all
    let in, as long as [k + n <= m]; [m - (k + n)] tokens are left. *)
Lemma burst_allowed (m : nat) (t0 : Q) (context : RequestContext) :
  ~ t0 == 0 ->
  forall (n k : nat) (rl : t Q),
    bucket_of m t0 rl ->
    level_is rl (ctx_url context) t0 (inject_Z (Z.of_nat m) - inject_Z (Z.of_nat k)) t0 ->
    (k + n <= m)%nat ->
    fst (requests (repeat t0 n) context rl) = repeat true n /\
    bucket_of m t0 (snd (requests (repeat t0 n) context rl)) /\
    level_is (snd (requests (repeat t0 n) context rl)) (ctx_url context) t0
      (inject_Z (Z.of_nat m) - inject_Z (Z.of_nat (k + n))) t0.
Proof.
  intros Ht0. induction n as [|n IH]; intros k rl Hb Hlevel Hkn.
  - simpl. rewrite Nat.add_0_r. repeat split; try apply Hb. exact Hlevel.
  - destruct Hb as (Halg & Hw & Hm & Hkey).
    assert (Hlevel' : level_is rl (keyGenerator rl context) t0
                        (inject_Z (Z.of_nat m) - inject_Z (Z.of_nat k)) t0)
      by (rewrite Hkey; exact Hlevel).
    destruct (allow_token rl context t0 t0 _ t0 0
                (inject_Z (Z.of_nat m) - inject_Z (Z.of_nat k)) Halg Hlevel')
      as (Hans & Hnext & Ha' & Hw' & Hm' & Hk').
    { destruct (truthy t0); unfold Qdiv; ring. }
    { rewrite Hm.
      assert (H0 : 0 <= inject_Z (Z.of_nat k))
        by (change 0 with (inject_Z 0); rewrite <- Zle_Qle; lia).
      destruct (min_Q_spec (inject_Z (Z.of_nat m))
                  (inject_Z (Z.of_nat m) - inject_Z (Z.of_nat k) + 0)) as [_ Hmin].
      rewrite Hmin; [ring|lra]. }
    assert (Hone : Qle_bool 1 (inject_Z (Z.of_nat m) - inject_Z (Z.of_nat k)) = true).
    { apply Qle_bool_iff. pose proof (inject_nat_le (S k) m ltac:(lia)) as Hle.
      rewrite inject_nat_succ in Hle. lra. }
    rewrite Hone in Hans, Hnext.
    simpl requests.
    destruct (allowRequest t0 t0 context rl) as [rl1 allowed] eqn:Hcall.
    simpl in Hans, Hnext, Ha', Hw', Hm', Hk'. subst allowed.
    destruct (IH (S k) rl1) as (Hrest & Hb2 & Hl2).
    + repeat split; congruence.
    + specialize (Hnext t0). rewrite Hk', Hkey in Hnext.
      eapply level_is_compat; [|exact Hnext]. rewrite inject_nat_succ. ring.
    + lia.
    + destruct (requests (repeat t0 n) context rl1) as [answers rl2]. simpl in *.
      rewrite Hrest. repeat split; try apply Hb2.
      replace (k + S n)%nat with (S k + n)%nat by lia. exact Hl2.
Qed.

Lemma create_token_bucket (m : nat) (w t0 : Q) :
  0 < w -> (1 <= m)%nat ->
  bucket_of m t0 (create (tokenConfig w (inject_Z (Z.of_nat m)))) /\
  windowMs (create (tokenConfig w (inject_Z (Z.of_nat m)))) = w /\
  records (create (tokenConfig w (inject_Z (Z.of_nat m)))) = ∅.
Proof.
  intros Hw Hm.
  assert (Hmq : 1 <= inject_Z (Z.of_nat m)) by (apply (inject_nat_le 1 m); exact Hm).
  assert (Tw : truthy w = true) by (apply truthy_Q; lra).
  assert (Tm : truthy (inject_Z (Z.of_nat m)) = true) by (apply truthy_Q; lra).
  unfold bucket_of, create, tokenConfig, or_num.
  cbn [algorithm windowMs maxRequests keyGenerator records cfg_algorithm cfg_windowMs
       cfg_maxRequests cfg_keyGenerator].
  rewrite Tw, Tm. repeat split. exact Hw.
Qed.

End Exact.




(** A denial under each algorithm, on the numbers of the code: capacity 1,
    two immediate requests. *)
Definition limiterOf (a : RateLimitAlgorithm) : t float :=
  fst (allowRequest 1000%float 1000%float LoadBalancerFacts.sampleContext
         (create {| cfg_algorithm := Some a; cfg_windowMs := Some 1000%float;
                    cfg_maxRequests := Some 1%float; cfg_keyGenerator := None;
                    cfg_onLimitReached := false |})).

(** ** The window algorithms in exact arithmetic *)
Section Windows.
Local Open Scope Q_scope.

(** A limiter running algorithm [a] with a positive window and the capacity
    [m], a positive integer. *)
Definition configured (a : RateLimitAlgorithm) (m : nat) (rl : t Q) : Prop :=
  algorithm rl = a /\ 0 < windowMs rl /\ maxRequests rl = inject_Z (Z.of_nat m) /\ (1 <= m)%nat.

Lemma allowRequest_configured a m now created context (rl : t Q) :
  configured a m rl ->
  configured a m (fst (allowRequest now created context rl)) /\
  keyGenerator (fst (allowRequest now created context rl)) = keyGenerator rl.
Proof.
  intros (Ha & Hw & Hm & H1).
  destruct (allowRequest_unfold now created context rl) as (_ & _ & Ha' & Hw' & Hm' & Hk').
  unfold configured. rewrite Ha', Hw', Hm'. repeat split; assumption.
Qed.

Lemma geb_nat (a b : nat) :
  Qle_bool (inject_Z (Z.of_nat a)) (inject_Z (Z.of_nat b)) = (a <=? b)%nat.
Proof.
  apply eq_true_iff_eq. rewrite Qle_bool_iff, Nat.leb_le, <- Zle_Qle. lia.
Qed.

Lemma Qle_bool_compat_l (a a' b : Q) : a == a' -> Qle_bool a b = Qle_bool a' b.
Proof.
  intros Ha. apply eq_true_iff_eq. rewrite !Qle_bool_iff. rewrite Ha. reflexivity.
Qed.

(** *** Fixed window *)

(** The window of [key]: [c] requests counted, the window ending at [r]. *)
Definition window_is (rl : t Q) (key : string) (created : Q) (c : nat) (r : Q) : Prop :=
  count (record_for rl key created) == inject_Z (Z.of_nat c) /\
  resetTime (record_for rl key created) == r.

Lemma fixed_step (m c : nat) (r now created : Q) context (rl : t Q) :
  configured FIXED_WINDOW m rl ->
  window_is rl (keyGenerator rl context) created c r ->
  now < r ->
  let rl' := fst (allowRequest now created context rl) in
  snd (allowRequest now created context rl) = (c <? m)%nat /\
  forall created',
    window_is rl' (keyGenerator rl context) created' (if (c <? m)%nat then S c else c) r.
Proof.
  intros (Ha & Hw & Hm & H1) [Hc Hr] Hnow rl'.
  destruct (allowRequest_unfold now created context rl) as (Hans & Hrec & _).
  fold rl' in Hrec.
  set (key := keyGenerator rl context) in *.
  set (record := record_for rl key created) in *.
  assert (Hdec : decide_request rl record now = _fixedWindow rl record now)
    by (unfold decide_request; rewrite Ha; reflexivity).
  rewrite Hdec in Hans, Hrec. unfold _fixedWindow in Hans, Hrec. cbv zeta in Hans, Hrec.
  change (geb now (resetTime record)) with (Qle_bool (resetTime record) now) in Hans, Hrec.
  rewrite (Qle_bool_false (resetTime record) now) in Hans, Hrec by (rewrite Hr; exact Hnow).
  change (geb (count record) (maxRequests rl))
    with (Qle_bool (maxRequests rl) (count record)) in Hans, Hrec.
  rewrite Hm, (Qle_bool_compat _ _ _ Hc), geb_nat in Hans, Hrec.
  assert (Hlt : (c <? m)%nat = negb (m <=? c)%nat).
  { destruct (Nat.ltb_spec c m), (Nat.leb_spec m c); try reflexivity; lia. }
  rewrite Hlt. split.
  - rewrite Hans. destruct (m <=? c)%nat; reflexivity.
  - intros created'. unfold window_is, record_for. rewrite Hrec, lookup_insert_eq.
    destruct (m <=? c)%nat; simpl.
    + split; assumption.
    + split; [|exact Hr]. rewrite Hc, inject_nat_succ. reflexivity.
Qed.

Lemma fixed_step_expired (m c : nat) (r now created : Q) context (rl : t Q) :
  configured FIXED_WINDOW m rl ->
  window_is rl (keyGenerator rl context) created c r ->
  r <= now ->
  let rl' := fst (allowRequest now created context rl) in
  snd (allowRequest now created context rl) = true /\
  forall created', window_is rl' (keyGenerator rl context) created' 1 (now + windowMs rl).
Proof.
  intros (Ha & Hw & Hm & H1) [Hc Hr] Hnow rl'.
  destruct (allowRequest_unfold now created context rl) as (Hans & Hrec & _).
  fold rl' in Hrec.
  set (key := keyGenerator rl context) in *.
  set (record := record_for rl key created) in *.
  assert (Hdec : decide_request rl record now = _fixedWindow rl record now)
    by (unfold decide_request; rewrite Ha; reflexivity).
  rewrite Hdec in Hans, Hrec. unfold _fixedWindow in Hans, Hrec. cbv zeta in Hans, Hrec.
  change (geb now (resetTime record)) with (Qle_bool (resetTime record) now) in Hans, Hrec.
  rewrite (Qle_bool_true (resetTime record) now) in Hans, Hrec by (rewrite Hr; exact Hnow).
  cbn [count resetTime timestamps tokens lastRefill] in Hans, Hrec.
  change (geb zero (maxRequests rl)) with (Qle_bool (maxRequests rl) 0) in Hans, Hrec.
  rewrite Hm in Hans, Hrec. change 0 with (inject_Z (Z.of_nat 0)) in Hans, Hrec.
  rewrite geb_nat in Hans, Hrec.
  destruct (Nat.leb_spec m 0); [lia|]. split; [exact Hans|].
  intros created'. unfold window_is, record_for. rewrite Hrec, lookup_insert_eq. simpl.
  split; reflexivity.
Qed.

Lemma fixed_run (m : nat) (r : Q) context :
  forall (times : list Q) (c : nat) (rl : t Q),
    configured FIXED_WINDOW m rl ->
    (forall created, window_is rl (keyGenerator rl context) created c r) ->
    (c <= m)%nat ->
    Forall (fun t => t < r) times ->
    let rl' := snd (requests times context rl) in
    fst (requests times context rl) =
      repeat true (Nat.min (m - c) (length times)) ++ repeat false (length times - (m - c)) /\
    configured FIXED_WINDOW m rl' /\ keyGenerator rl' = keyGenerator rl /\
    exists c', forall created, window_is rl' (keyGenerator rl context) created c' r.
Proof.
  induction times as [|now times IH]; intros c rl Hcfg Hwin Hc Hall.
  - simpl. rewrite Nat.min_0_r. split; [reflexivity|]. split; [exact Hcfg|].
    split; [reflexivity|]. exists c. exact Hwin.
  - inversion Hall as [|? ? Hnow Hrest]; subst.
    destruct (fixed_step m c r now now context rl Hcfg (Hwin now) Hnow) as [Hans Hnext].
    destruct (allowRequest_configured FIXED_WINDOW m now now context rl Hcfg) as [Hcfg1 Hk1].
    simpl requests.
    destruct (allowRequest now now context rl) as [rl1 allowed]. simpl in Hans, Hnext, Hcfg1, Hk1.
    subst allowed.
    destruct (IH (if (c <? m)%nat then S c else c) rl1 Hcfg1) as (Hrest' & Hcfg2 & Hk2 & Hc2).
    + rewrite Hk1. exact Hnext.
    + destruct (Nat.ltb_spec c m); lia.
    + exact Hrest.
    + destruct (requests times context rl1) as [answers rl2]. simpl in *.
      split; [|split; [exact Hcfg2|split; [congruence|]]].
      * rewrite Hrest'. destruct (Nat.ltb_spec c m) as [Hlt|Hge].
        -- replace (m - c)%nat with (S (m - S c)) by lia. simpl. reflexivity.
        -- replace (m - c)%nat with 0%nat by lia. simpl. rewrite Nat.sub_0_r. reflexivity.
      * rewrite Hk1 in Hc2. exact Hc2.
Qed.

(** X6.  Fixed window, in exact arithmetic: for a key without a record,
    whose first request comes at [t0], the requests made before
    [t0 + windowMs] are let in up to [maxRequests] of them (a positive
    integer) and denied after that, in whatever order their times come; a
    request at or after [t0 + windowMs] is let in again. *)
Theorem fixed_window_admits_max_per_window :
  forall (m : nat) (rl : t Q) (context : RequestContext) (t0 t1 : Q) (rest : list Q),
    configured FIXED_WINDOW m rl ->
    records rl !! keyGenerator rl context = None ->
    Forall (fun t => t < t0 + windowMs rl) rest ->
    t0 + windowMs rl <= t1 ->
    fst (requests ((t0 :: rest) ++ [t1]) context rl) =
      (repeat true (Nat.min m (S (length rest))) ++ repeat false (S (length rest) - m))
      ++ [true].
Proof.
  intros m rl context t0 t1 rest Hcfg Hnone Hall Ht1.
  assert (Hw : 0 < windowMs rl) by apply Hcfg.
  assert (Hm : (1 <= m)%nat) by apply Hcfg.
  assert (Hstart : window_is rl (keyGenerator rl context) t0 0 (t0 + windowMs rl)).
  { unfold window_is, record_for. rewrite Hnone. simpl. split; reflexivity. }
  assert (Hnow : t0 < t0 + windowMs rl) by lra.
  destruct (fixed_step m 0 _ t0 t0 context rl Hcfg Hstart Hnow) as [Hans Hnext].
  destruct (allowRequest_configured FIXED_WINDOW m t0 t0 context rl Hcfg) as [Hcfg1 Hk1].
  change ((t0 :: rest) ++ [t1]) with (t0 :: (rest ++ [t1])). simpl requests.
  destruct (allowRequest t0 t0 context rl) as [rl1 allowed]. simpl in Hans, Hnext, Hcfg1, Hk1.
  subst allowed.
  replace (0 <? m)%nat with true in * by (symmetry; apply Nat.ltb_lt; lia).
  rewrite requests_app.
  destruct (fixed_run m (t0 + windowMs rl) context rest 1 rl1 Hcfg1)
    as (Hrun & Hcfg2 & Hk2 & c' & Hc').
  { rewrite Hk1. exact Hnext. }
  { exact Hm. }
  { exact Hall. }
  set (rl2 := snd (requests rest context rl1)) in *.
  destruct (fixed_step_expired m c' (t0 + windowMs rl) t1 t1 context rl2 Hcfg2) as [Hlast _].
  { rewrite Hk2. apply Hc'. }
  { exact Ht1. }
  simpl requests.
  destruct (allowRequest t1 t1 context rl2) as [rl3 a3]. simpl in Hlast. subst a3.
  simpl. rewrite Hrun.
  replace (Nat.min m (S (length rest))) with (S (Nat.min (m - 1) (length rest))) by lia.
  replace (S (length rest) - m)%nat with (length rest - (m - 1))%nat by lia.
  reflexivity.
Qed.

(** A limiter of capacity [m] over a window of 1000 ms. *)
Definition windowLimiter (a : RateLimitAlgorithm) (m : nat) : t Q :=
  create {| cfg_algorithm := Some a; cfg_windowMs := Some (1000 # 1);
            cfg_maxRequests := Some (inject_Z (Z.of_nat m)); cfg_keyGenerator := None;
            cfg_onLimitReached := false |}.

Lemma windowLimiter_configured (a : RateLimitAlgorithm) (m : nat) :
  (1 <= m)%nat -> configured a m (windowLimiter a m).
Proof.
  intros Hm.
  assert (Hmq : 1 <= inject_Z (Z.of_nat m)) by (apply (inject_nat_le 1 m); exact Hm).
  assert (Tm : truthy (inject_Z (Z.of_nat m)) = true) by (apply truthy_Q; lra).
  unfold configured, windowLimiter, create, or_num.
  cbn [algorithm windowMs maxRequests cfg_algorithm cfg_windowMs cfg_maxRequests].
  rewrite Tm. repeat split. exact Hm.
Qed.

Lemma fixed_window_witness :
  fst (requests [5 # 1; 6 # 1; 7 # 1; 1005 # 1] LoadBalancerFacts.sampleContext
         (windowLimiter FIXED_WINDOW 2)) = [true; true; false; true].
Proof.
  refine (fixed_window_admits_max_per_window 2 (windowLimiter FIXED_WINDOW 2)
            LoadBalancerFacts.sampleContext (5 # 1) (1005 # 1) [6 # 1; 7 # 1] _ _ _ _).
  - apply windowLimiter_configured. lia.
  - apply lookup_empty.
  - repeat constructor.
  - discriminate.
Defined.

(** *** Sliding window *)

(** [ts > start] *)
Definition newer (start ts : Q) : bool := negb (Qle_bool ts start).

(** The admission rule of the sliding window, told over the whole history
    of the admitted requests: a request at [now] is let in when fewer than
    [m] requests were let in after [now - W]. *)
Fixpoint sliding_answers (m : nat) (W : Q) (history times : list Q) : list bool :=
  match times with
  | [] => []
  | now :: rest =>
      if (length (List.filter (newer (now - W)) history) <? m)%nat
      then true :: sliding_answers m W (history ++ [now]) rest
      else false :: sliding_answers m W history rest
  end.

(** The times of the requests that were let in. *)
Definition admitted_times (times : list Q) (answers : list bool) : list Q :=
  map fst (List.filter snd (combine times answers)).

(** [a] lies in the window that ends at [t]: t - W < a <= t. *)
Definition in_window (W t a : Q) : bool := newer (t - W) a && Qle_bool a t.

Lemma sliding_step (m : nat) (now created : Q) context (rl : t Q) (ts : list Q) :
  configured SLIDING_WINDOW m rl ->
  timestamps (record_for rl (keyGenerator rl context) created) = ts ->
  let kept := List.filter (newer (now - windowMs rl)) ts in
  let rl' := fst (allowRequest now created context rl) in
  snd (allowRequest now created context rl) = (length kept <? m)%nat /\
  forall created',
    timestamps (record_for rl' (keyGenerator rl context) created') =
      if (length kept <? m)%nat then kept ++ [now] else kept.
Proof.
  intros (Ha & Hw & Hm & H1) Hts kept rl'.
  destruct (allowRequest_unfold now created context rl) as (Hans & Hrec & _).
  fold rl' in Hrec.
  set (key := keyGenerator rl context) in *.
  set (record := record_for rl key created) in *.
  assert (Hdec : decide_request rl record now = _slidingWindow rl record now)
    by (unfold decide_request; rewrite Ha; reflexivity).
  rewrite Hdec in Hans, Hrec. unfold _slidingWindow in Hans, Hrec. cbv zeta in Hans, Hrec.
  rewrite Hts in Hans, Hrec.
  change (List.filter (fun ts0 : Q => ltb (sub now (windowMs rl)) ts0) ts)
    with kept in Hans, Hrec.
  change (geb (length_of kept) (maxRequests rl))
    with (Qle_bool (maxRequests rl) (inject_Z (Z.of_nat (length kept)))) in Hans, Hrec.
  rewrite Hm, geb_nat in Hans, Hrec.
  assert (Hlt : (length kept <? m)%nat = negb (m <=? length kept)%nat).
  { destruct (Nat.ltb_spec (length kept) m), (Nat.leb_spec m (length kept));
      try reflexivity; lia. }
  rewrite Hlt. split.
  - rewrite Hans. destruct (m <=? length kept)%nat; reflexivity.
  - intros created'. unfold record_for. rewrite Hrec, lookup_insert_eq.
    destruct (m <=? length kept)%nat; reflexivity.
Qed.

Lemma filter_narrower {A} (f g : A -> bool) (l : list A) :
  (forall a, f a = true -> g a = true) ->
  List.filter f (List.filter g l) = List.filter f l.
Proof.
  intros Hfg. induction l as [|a l IH]; simpl; [reflexivity|].
  destruct (g a) eqn:Hg; simpl.
  - rewrite IH. reflexivity.
  - destruct (f a) eqn:Hf; [|exact IH]. rewrite (Hfg a Hf) in Hg. discriminate.
Qed.

Lemma filter_length_mono {A} (f g : A -> bool) (l : list A) :
  (forall a, f a = true -> g a = true) ->
  (length (List.filter f l) <= length (List.filter g l))%nat.
Proof.
  intros Hfg. induction l as [|a l IH]; simpl; [lia|].
  destruct (f a) eqn:Hf.
  - rewrite (Hfg a Hf). simpl. lia.
  - destruct (g a); simpl; lia.
Qed.

Lemma newer_mono (lo hi a : Q) : lo <= hi -> newer hi a = true -> newer lo a = true.
Proof.
  unfold newer. rewrite !negb_true_iff. intros Hle Hhi.
  destruct (Qle_bool a lo) eqn:E; [|reflexivity].
  apply Qle_bool_iff in E.
  assert (Hn : a <= hi) by lra.
  apply Qle_bool_iff in Hn. congruence.
Qed.

(** On a clock that does not go back, the list the code prunes answers as
    the whole history would. *)
Lemma sliding_run (m : nat) context :
  forall (times history : list Q) (lo : Q) (rl : t Q),
    configured SLIDING_WINDOW m rl ->
    (forall created,
       timestamps (record_for rl (keyGenerator rl context) created)
       = List.filter (newer lo) history) ->
    Forall (fun t => lo <= t - windowMs rl) times ->
    StronglySorted Qle times ->
    fst (requests times context rl) = sliding_answers m (windowMs rl) history times.
Proof.
  induction times as [|now times IH]; intros history lo rl Hcfg Hts Hlo Hsorted.
  - reflexivity.
  - inversion Hlo as [|? ? Hnow Hrest]; subst.
    inversion Hsorted as [|? ? Hsorted' Hle]; subst.
    assert (Hw : 0 < windowMs rl) by apply Hcfg.
    destruct (sliding_step m now now context rl _ Hcfg (Hts now)) as [Hans Hnext].
    destruct (allowRequest_configured SLIDING_WINDOW m now now context rl Hcfg) as [Hcfg1 Hk1].
    destruct (allowRequest_unfold now now context rl) as (_ & _ & _ & Hw1 & _).
    rewrite filter_narrower in Hans, Hnext by (intros a; apply newer_mono; exact Hnow).
    simpl requests. simpl sliding_answers.
    destruct (allowRequest now now context rl) as [rl1 allowed].
    simpl in Hans, Hnext, Hcfg1, Hk1, Hw1. subst allowed.
    assert (Hlater : Forall (fun t => now - windowMs rl <= t - windowMs rl) times).
    { eapply List.Forall_impl; [|exact Hle]. simpl. intros t Ht. lra. }
    destruct (length (List.filter (newer (now - windowMs rl)) history) <? m)%nat.
    + specialize (IH (history ++ [now]) (now - windowMs rl) rl1 Hcfg1).
      rewrite Hw1 in IH.
      destruct (requests times context rl1) as [answers rl2]. simpl in *.
      f_equal. apply IH; try assumption.
      intros created. rewrite Hk1, Hnext, List.filter_app. f_equal. simpl.
      unfold newer. rewrite Qle_bool_false by lra. reflexivity.
    + specialize (IH history (now - windowMs rl) rl1 Hcfg1).
      rewrite Hw1 in IH.
      destruct (requests times context rl1) as [answers rl2]. simpl in *.
      f_equal. apply IH; try assumption.
      intros created. rewrite Hk1, Hnext. reflexivity.
Qed.

(** Whatever the times, the rule never lets more than [m] requests into one
    window. *)
Lemma sliding_answers_bound (m : nat) (W : Q) :
  forall (times history : list Q),
    (forall t, (length (List.filter (in_window W t) history) <= m)%nat) ->
    forall t,
      (length (List.filter (in_window W t)
                 (history ++ admitted_times times (sliding_answers m W history times)))
       <= m)%nat.
Proof.
  induction times as [|now times IH]; intros history Hbound t.
  - unfold admitted_times. simpl. rewrite app_nil_r. apply Hbound.
  - simpl sliding_answers.
    destruct (Nat.ltb_spec (length (List.filter (newer (now - W)) history)) m) as [Hlt|Hge].
    + unfold admitted_times. simpl. fold (admitted_times times
        (sliding_answers m W (history ++ [now]) times)).
      change (history ++ now :: ?l) with (history ++ [now] ++ l). rewrite app_assoc.
      apply IH. intros t'. rewrite List.filter_app, length_app. simpl.
      destruct (in_window W t' now) eqn:Hin; simpl; [|rewrite Nat.add_0_r; apply Hbound].
      assert (Hsub : (length (List.filter (in_window W t') history)
                      <= length (List.filter (newer (now - W)) history))%nat).
      { apply filter_length_mono. intros a Ha.
        unfold in_window in Hin, Ha. apply andb_true_iff in Hin, Ha.
        destruct Hin as [_ Hnow], Ha as [Ha _]. apply Qle_bool_iff in Hnow.
        eapply newer_mono; [|exact Ha]. lra. }
      lia.
    + unfold admitted_times. simpl. apply IH. exact Hbound.
Qed.



(** *** A key without a record *)

Lemma fresh_key_admitted (rl : t Q) (context : RequestContext) (now : Q) :
  0 < windowMs rl -> 1 <= maxRequests rl ->
  records rl !! keyGenerator rl context = None ->
  snd (allowRequest now now context rl) = true.
Proof.
  intros Hw Hm Hnone.
  destruct (allowRequest_unfold now now context rl) as (Hans & _).
  rewrite Hans. unfold record_for. rewrite Hnone. clear Hans.
  assert (Tm : truthy (maxRequests rl) = true) by (apply truthy_Q; lra).
  unfold decide_request. destruct (algorithm rl).
  - unfold _fixedWindow, _createRecord.
    cbn [geb add zero one Q_JsNumber count resetTime timestamps tokens lastRefill].
    rewrite (Qle_bool_false (now + windowMs rl) now) by lra.
    cbn [count]. rewrite (Qle_bool_false (maxRequests rl) 0) by lra. reflexivity.
  - unfold _slidingWindow, _createRecord.
    cbn [geb sub ltb Q_JsNumber count resetTime timestamps tokens lastRefill List.filter
         length_of length of_Z].
    rewrite (Qle_bool_false (maxRequests rl) (inject_Z (Z.of_nat 0)))
      by (change (inject_Z (Z.of_nat 0)) with 0; lra).
    reflexivity.
  - unfold _tokenBucket, _createRecord.
    cbn [count resetTime timestamps tokens lastRefill or_num].
    rewrite Tm.
    assert (Hlast : (if truthy now then now else now) = now) by (destruct (truthy now); reflexivity).
    rewrite Hlast.
    cbn [min add sub mul div ltb zero one Q_JsNumber].
    rewrite (Qle_bool_true (maxRequests rl)
               (maxRequests rl + (now - now) / windowMs rl * maxRequests rl))
      by (unfold Qdiv; ring_simplify; lra).
    rewrite (Qle_bool_true 1 (maxRequests rl)) by exact Hm. reflexivity.
  - unfold _leakyBucket, _createRecord.
    cbn [count resetTime timestamps tokens lastRefill or_num].
    assert (Hlast : (if truthy now then now else now) = now) by (destruct (truthy now); reflexivity).
    rewrite Hlast.
    cbn [max geb add sub mul div zero one Q_JsNumber].
    assert (Hzero : 0 - (now - now) / windowMs rl * maxRequests rl == 0)
      by (unfold Qdiv; ring).
    rewrite (Qle_bool_true 0 (0 - (now - now) / windowMs rl * maxRequests rl))
      by (rewrite Hzero; lra).
    rewrite (Qle_bool_false (maxRequests rl)
               (0 - (now - now) / windowMs rl * maxRequests rl))
      by (rewrite Hzero; lra).
    reflexivity.
Qed.

(** X8.  In exact arithmetic, with a positive window, a capacity of at least
    1 and a clock that does not move during the call: a request for a key
    that has no record is let in under every algorithm; so is the first
    request after [reset(key)] or [resetAll()], whatever was counted before.
    [reset(key)] forgets that key and leaves the record of every other key
    as it was. *)
Theorem reset_key_starts_afresh :
  forall (rl : t Q) (context : RequestContext) (now : Q),
    0 < windowMs rl -> 1 <= maxRequests rl ->
    let key := keyGenerator rl context in
    (records rl !! key = None -> snd (allowRequest now now context rl) = true) /\
    snd (allowRequest now now context (reset key rl)) = true /\
    snd (allowRequest now now context (resetAll rl)) = true /\
    records (reset key rl) !! key = None /\
    (forall other, other <> key -> records (reset key rl) !! other = records rl !! other).
Proof.
  intros rl context now Hw Hm key.
  split; [apply fresh_key_admitted; assumption|].
  split; [|split; [|split]].
  - apply fresh_key_admitted; try assumption. apply lookup_delete_eq.
  - apply fresh_key_admitted; try assumption. apply lookup_empty.
  - apply lookup_delete_eq.
  - intros other Hother. apply lookup_delete_ne. congruence.
Qed.

Lemma reset_key_witness :
  let rl := snd (requests [5 # 1; 6 # 1; 7 # 1] LoadBalancerFacts.sampleContext
                   (windowLimiter FIXED_WINDOW 2)) in
  snd (allowRequest (8 # 1) (8 # 1) LoadBalancerFacts.sampleContext rl) = false /\
  snd (allowRequest (8 # 1) (8 # 1) LoadBalancerFacts.sampleContext
         (reset "/api/users" rl)) = true.
Proof.
  intros rl.
  assert (Hw : 0 < windowMs rl) by reflexivity.
  assert (Hm : 1 <= maxRequests rl) by discriminate.
  split; [vm_compute; reflexivity|].
  exact (proj1 (proj2 (reset_key_starts_afresh rl LoadBalancerFacts.sampleContext (8 # 1)
                         Hw Hm))).
Defined.

(** *** Leaky bucket *)

(** The bucket of [key] holds [level] requests (up to equality of
    fractions), last leaked at [last]. *)
Definition leak_level_is (rl : t Q) (key : string) (created level last : Q) : Prop :=
  count (record_for rl key created) == level /\
  lastRefill (record_for rl key created) = Some last.

Lemma max_Q_compat (a b b' : Q) : b == b' -> max a b == max a b'.
Proof.
  intros Hb. simpl.
  destruct (Qle_bool a b) eqn:E, (Qle_bool a b') eqn:E'; try reflexivity; try assumption.
  - apply Qle_bool_iff in E. rewrite Hb in E. apply Qle_bool_iff in E. congruence.
  - apply Qle_bool_iff in E'. rewrite <- Hb in E'. apply Qle_bool_iff in E'. congruence.
Qed.

Lemma max_Q_zero (b : Q) : 0 <= b -> max 0 b == b.
Proof. intros Hb. simpl. rewrite (Qle_bool_true 0 b Hb). reflexivity. Qed.

(** One call against a bucket whose level is known: the [loss] for the time
    since [last] is taken off, down to 0; below the capacity the request is
    let in and adds one. *)
Lemma allow_leak (rl : t Q) (context : RequestContext) (now created level last loss x : Q) :
  algorithm rl = LEAKY_BUCKET ->
  leak_level_is rl (keyGenerator rl context) created level last ->
  (now - (if truthy last then last else now)) / windowMs rl * maxRequests rl == loss ->
  max 0 (level - loss) == x ->
  let rl' := fst (allowRequest now created context rl) in
  snd (allowRequest now created context rl) = negb (Qle_bool (maxRequests rl) x) /\
  (forall created', leak_level_is rl' (keyGenerator rl' context) created'
                      (if Qle_bool (maxRequests rl) x then x else x + 1) now) /\
  algorithm rl' = algorithm rl /\ windowMs rl' = windowMs rl /\
  maxRequests rl' = maxRequests rl /\ keyGenerator rl' = keyGenerator rl.
Proof.
  intros Halg (Hcount & Hlast) Hloss Hx rl'.
  destruct (allowRequest_unfold now created context rl) as (Hans & Hrec & Ha & Hw & Hm & Hk).
  fold rl' in Hrec, Ha, Hw, Hm, Hk.
  set (key := keyGenerator rl context) in *.
  set (record := record_for rl key created) in *.
  assert (Hre : leaked rl record now == x).
  { unfold leaked. rewrite Hlast. rewrite <- Hx. apply max_Q_compat.
    unfold or_num. simpl in Hloss |- *. rewrite Hcount, Hloss. reflexivity. }
  assert (Hdec : decide_request rl record now = _leakyBucket rl record now)
    by (unfold decide_request; rewrite Halg; reflexivity).
  rewrite Hdec in Hans, Hrec.
  unfold _leakyBucket in Hans, Hrec. cbv zeta in Hans, Hrec.
  fold (leaked rl record now) in Hans, Hrec.
  assert (Hfull : geb (leaked rl record now) (maxRequests rl) = Qle_bool (maxRequests rl) x).
  { simpl. apply Qle_bool_compat. exact Hre. }
  rewrite Hfull in Hans, Hrec.
  repeat split; try assumption.
  - rewrite Hans. destruct (Qle_bool (maxRequests rl) x); reflexivity.
  - unfold record_for. rewrite Hk. fold key. rewrite Hrec, lookup_insert_eq.
    destruct (Qle_bool (maxRequests rl) x); simpl; [exact Hre|].
    rewrite Hre. reflexivity.
  - unfold record_for. rewrite Hk. fold key. rewrite Hrec, lookup_insert_eq.
    destruct (Qle_bool (maxRequests rl) x); reflexivity.
Qed.

Lemma leak_level_is_compat (rl : t Q) key created level level' last :
  level == level' -> leak_level_is rl key created level last ->
  leak_level_is rl key created level' last.
Proof. intros Heq (Hcount & Hlast). split; [rewrite Hcount; exact Heq|exact Hlast]. Qed.

(** [n] immediate requests against a bucket holding [k] are all let in, as
    long as [k + n <= m]. *)
Lemma leak_burst_allowed (m : nat) (t0 : Q) (context : RequestContext) :
  ~ t0 == 0 ->
  forall (n k : nat) (rl : t Q),
    configured LEAKY_BUCKET m rl ->
    leak_level_is rl (keyGenerator rl context) t0 (inject_Z (Z.of_nat k)) t0 ->
    (k + n <= m)%nat ->
    fst (requests (repeat t0 n) context rl) = repeat true n /\
    configured LEAKY_BUCKET m (snd (requests (repeat t0 n) context rl)) /\
    keyGenerator (snd (requests (repeat t0 n) context rl)) = keyGenerator rl /\
    leak_level_is (snd (requests (repeat t0 n) context rl)) (keyGenerator rl context) t0
      (inject_Z (Z.of_nat (k + n))) t0.
Proof.
  intros Ht0. induction n as [|n IH]; intros k rl Hb Hlevel Hkn.
  - simpl. rewrite Nat.add_0_r. repeat split; try apply Hb. apply Hlevel. apply Hlevel.
  - destruct Hb as (Halg & Hw & Hm & H1).
    assert (H0 : 0 <= inject_Z (Z.of_nat k))
      by (change 0 with (inject_Z 0); rewrite <- Zle_Qle; lia).
    destruct (allow_leak rl context t0 t0 _ t0 0 (inject_Z (Z.of_nat k)) Halg Hlevel)
      as (Hans & Hnext & Ha' & Hw' & Hm' & Hk').
    { destruct (truthy t0); unfold Qdiv; ring. }
    { rewrite <- (max_Q_zero (inject_Z (Z.of_nat k)) H0) at 2.
      apply max_Q_compat. ring. }
    assert (Hroom : Qle_bool (maxRequests rl) (inject_Z (Z.of_nat k)) = false).
    { rewrite Hm, geb_nat. apply Nat.leb_gt. lia. }
    rewrite Hroom in Hans, Hnext.
    simpl requests.
    destruct (allowRequest t0 t0 context rl) as [rl1 allowed] eqn:Hcall.
    simpl in Hans, Hnext, Ha', Hw', Hm', Hk'. subst allowed.
    destruct (IH (S k) rl1) as (Hrest & Hb2 & Hk2 & Hl2).
    + unfold configured. rewrite Ha', Hw', Hm'. repeat split; assumption.
    + specialize (Hnext t0). rewrite Hk' in Hnext |- *.
      eapply leak_level_is_compat; [|exact Hnext]. rewrite inject_nat_succ. reflexivity.
    + lia.
    + destruct (requests (repeat t0 n) context rl1) as [answers rl2]. simpl in *.
      rewrite Hrest. split; [reflexivity|]. split; [exact Hb2|]. split; [congruence|].
      rewrite Hk' in Hl2.
      replace (k + S n)%nat with (S k + n)%nat by lia. exact Hl2.
Qed.

(** X9.  Leaky bucket, in exact arithmetic, for a capacity [max] (a positive
    integer) and a clock that does not read 0: a key starts with an empty
    bucket, [max] immediate requests are all let in and the next immediate
    one is denied; after waiting windowMs/max exactly one further request
    is let in, and the next immediate one is denied again. *)
Theorem leaky_bucket_full_then_one_per_interval :
  forall (m : nat) (rl : t Q) (t0 : Q) (context : RequestContext),
    configured LEAKY_BUCKET m rl ->
    records rl !! keyGenerator rl context = None ->
    ~ t0 == 0 ->
    let M := inject_Z (Z.of_nat m) in
    let W := windowMs rl in
    fst (requests (repeat t0 m ++ [t0; t0 + W / M; t0 + W / M]) context rl)
    = repeat true m ++ [false; true; false].
Proof.
  intros m rl t0 context Hcfg Hnone Ht0 M W.
  assert (Hw : 0 < W) by apply Hcfg.
  assert (Hm : (1 <= m)%nat) by apply Hcfg.
  assert (HM : 1 <= M) by (apply (inject_nat_le 1 m); exact Hm).
  assert (Tt0 : truthy t0 = true) by (apply truthy_Q; exact Ht0).
  rewrite requests_app.
  destruct (leak_burst_allowed m t0 context Ht0 m 0 rl Hcfg) as (Hburst & Hb1 & Hk1 & Hl1).
  { unfold leak_level_is, record_for. rewrite Hnone. simpl. split; reflexivity. }
  { lia. }
  rewrite Hburst. f_equal. simpl Nat.add in Hl1.
  set (rl1 := snd (requests (repeat t0 m) context rl)) in *.
  destruct Hb1 as (Halg1 & Hw1 & Hm1 & _).
  assert (Hwin1 : windowMs rl1 = W) by (unfold rl1; apply requests_windowMs).
  fold M in Hl1, Hm1.
  (* the request after the burst is denied *)
  destruct (allow_leak rl1 context t0 t0 M t0 0 M Halg1) as (Hans2 & Hnext2 & Ha2 & Hw2 & Hm2 & Hk2).
  { rewrite Hk1. exact Hl1. }
  { destruct (truthy t0); unfold Qdiv; ring. }
  { rewrite <- (max_Q_zero M) at 2 by lra. apply max_Q_compat. ring. }
  rewrite Hm1, (Qle_bool_true M M) in Hans2, Hnext2 by lra.
  simpl requests.
  destruct (allowRequest t0 t0 context rl1) as [rl2 a2].
  simpl in Hans2, Hnext2, Ha2, Hw2, Hm2, Hk2. subst a2.
  (* after the wait one request is let in *)
  destruct (allow_leak rl2 context (t0 + W / M) (t0 + W / M) M t0 1 (M - 1))
    as (Hans3 & Hnext3 & Ha3 & Hw3 & Hm3 & Hk3).
  { congruence. }
  { apply (Hnext2 (t0 + W / M)). }
  { rewrite Tt0, Hw2, Hm2, Hwin1, Hm1. field. split; lra. }
  { apply max_Q_zero. lra. }
  rewrite Hm2, Hm1, (Qle_bool_false M (M - 1)) in Hans3, Hnext3 by lra.
  destruct (allowRequest (t0 + W / M) (t0 + W / M) context rl2) as [rl3 a3].
  simpl in Hans3, Hnext3, Ha3, Hw3, Hm3, Hk3. subst a3.
  (* and the next immediate one is denied *)
  destruct (allow_leak rl3 context (t0 + W / M) (t0 + W / M) (M - 1 + 1) (t0 + W / M) 0 M)
    as (Hans4 & _).
  { congruence. }
  { apply (Hnext3 (t0 + W / M)). }
  { destruct (truthy (t0 + W / M)); unfold Qdiv; ring. }
  { rewrite <- (max_Q_zero M) at 2 by lra. apply max_Q_compat. ring. }
  rewrite Hm3, Hm2, Hm1, (Qle_bool_true M M) in Hans4 by lra.
  destruct (allowRequest (t0 + W / M) (t0 + W / M) context rl3) as [rl4 a4].
  simpl in Hans4. subst a4. reflexivity.
Qed.

Lemma leaky_bucket_witness :
  fst (requests (repeat (5 # 1) 2 ++ [5 # 1; (5 # 1) + (1000 # 1) / inject_Z (Z.of_nat 2);
                                      (5 # 1) + (1000 # 1) / inject_Z (Z.of_nat 2)])
         LoadBalancerFacts.sampleContext (windowLimiter LEAKY_BUCKET 2))
  = repeat true 2 ++ [false; true; false].
Proof.
  assert (Hcfg : configured LEAKY_BUCKET 2 (windowLimiter LEAKY_BUCKET 2))
    by (apply windowLimiter_configured; lia).
  assert (Hnone : records (windowLimiter LEAKY_BUCKET 2)
                    !! keyGenerator (windowLimiter LEAKY_BUCKET 2)
                         LoadBalancerFacts.sampleContext = None)
    by apply lookup_empty.
  assert (Ht0 : ~ (5 # 1) == 0) by discriminate.
  exact (leaky_bucket_full_then_one_per_interval 2 (windowLimiter LEAKY_BUCKET 2) (5 # 1)
           LoadBalancerFacts.sampleContext Hcfg Hnone Ht0).
Defined.

(** *** After a denial *)

(** Two records that hold the same numbers. *)
Definition same_number (a b : option Q) : Prop :=
  match a, b with
  | Some x, Some y => x == y
  | None, None => True
  | _, _ => False
  end.

Definition same_record (a b : RequestRecord Q) : Prop :=
  count a == count b /\ resetTime a == resetTime b /\ timestamps a = timestamps b /\
  same_number (tokens a) (tokens b) /\ same_number (lastRefill a) (lastRefill b).

Lemma same_number_refl (a : option Q) : same_number a a.
Proof. destruct a; simpl; [reflexivity|exact I]. Qed.

Lemma same_record_refl (a : RequestRecord Q) : same_record a a.
Proof. repeat split; try reflexivity; apply same_number_refl. Qed.

(** The refill, or the leak, for the time from [last] to [now]. *)
Definition flow (rl : t Q) (last now : Q) : Q := (now - last) / windowMs rl * maxRequests rl.

Lemma flow_split (rl : t Q) (last now later : Q) :
  flow rl last now + flow rl now later == flow rl last later.
Proof. unfold flow, Qdiv. ring. Qed.

(** The decision on the record a denial left is the decision on the record
    the denial found. *)
Lemma decide_after_denial (rl : t Q) (before after : RequestRecord Q) (now later : Q) :
  1 <= maxRequests rl -> ~ now == 0 -> now <= later ->
  (algorithm rl = TOKEN_BUCKET \/ algorithm rl = LEAKY_BUCKET ->
   exists last, lastRefill before = Some last /\ ~ last == 0) ->
  denied_leaves rl now before after ->
  snd (decide_request rl after later) = snd (decide_request rl before later) /\
  same_record (fst (decide_request rl after later)) (fst (decide_request rl before later)).
Proof.
  intros Hm Hn0 Hle Hlast. unfold denied_leaves, decide_request.
  assert (Tn : truthy now = true) by (apply truthy_Q; exact Hn0).
  destruct (algorithm rl) eqn:Ha.
  - intros (Hafter & Hfull).
    destruct (geb now (resetTime before)) eqn:Hreset.
    + subst after. cbn [count geb zero Q_JsNumber] in Hfull.
      apply Qle_bool_iff in Hfull. lra.
    + subst after. split; [reflexivity|apply same_record_refl].
  - intros (Hafter & _). subst after. unfold _slidingWindow. cbv zeta.
    cbn [count resetTime timestamps tokens lastRefill].
    rewrite filter_narrower.
    + split; [reflexivity|apply same_record_refl].
    + intros a. apply (newer_mono (now - windowMs rl) (later - windowMs rl) a). lra.
  - intros (Hafter & Hlow).
    destruct (Hlast (or_introl eq_refl)) as (last & Hl & Hl0).
    assert (Tl : truthy last = true) by (apply truthy_Q; exact Hl0).
    set (q := or_num (tokens before) zero) in *.
    assert (HR1 : refilled rl before now == q + flow rl last now).
    { unfold refilled in *. fold q in Hlow |- *. rewrite Hl in *.
      unfold or_num in *. rewrite Tl in *.
      cbn [min add sub mul div ltb one Q_JsNumber] in *.
      fold (flow rl last now) in *.
      destruct (Qle_bool (maxRequests rl) (q + flow rl last now)) eqn:E; [|reflexivity].
      apply negb_true_iff in Hlow.
      assert (Hc : 1 <= maxRequests rl) by exact Hm.
      apply Qle_bool_iff in Hc. congruence. }
    assert (Heq : min (maxRequests rl)
                    (add (or_num (Some (refilled rl before now)) zero) (flow rl now later))
                  == min (maxRequests rl) (add q (flow rl last later))).
    { apply min_Q_compat. cbn [add Q_JsNumber].
      rewrite (or_num_zero (refilled rl before now)), HR1, <- (flow_split rl last now later).
      ring. }
    subst after. unfold _tokenBucket. cbv zeta.
    cbn [count resetTime timestamps tokens lastRefill].
    fold q. rewrite Hl.
    replace (or_num (Some now) later) with now by (unfold or_num; rewrite Tn; reflexivity).
    replace (or_num (Some last) later) with last by (unfold or_num; rewrite Tl; reflexivity).
    change (mul (div (sub later now) (windowMs rl)) (maxRequests rl)) with (flow rl now later).
    change (mul (div (sub later last) (windowMs rl)) (maxRequests rl)) with (flow rl last later).
    set (x := min (maxRequests rl)
                (add (or_num (Some (refilled rl before now)) zero) (flow rl now later))) in *.
    set (y := min (maxRequests rl) (add q (flow rl last later))) in *.
    assert (Hlt : ltb x one = ltb y one).
    { cbn [ltb one Q_JsNumber]. f_equal. apply Qle_bool_compat. exact Heq. }
    rewrite Hlt. destruct (ltb y one); cbn [fst snd]; split; try reflexivity;
      unfold same_record; cbn [count resetTime timestamps tokens lastRefill same_number];
      repeat split; try reflexivity; try exact Heq.
    cbn [sub Q_JsNumber]. rewrite Heq. reflexivity.
  - intros (Hafter & Hfull).
    destruct (Hlast (or_intror eq_refl)) as (last & Hl & Hl0).
    assert (Tl : truthy last = true) by (apply truthy_Q; exact Hl0).
    assert (HL1 : leaked rl before now == count before - flow rl last now).
    { unfold leaked in *. rewrite Hl in *. unfold or_num in *. rewrite Tl in *.
      cbn [max geb sub mul div zero Q_JsNumber] in *.
      fold (flow rl last now) in *.
      destruct (Qle_bool 0 (count before - flow rl last now)) eqn:E; [reflexivity|].
      apply Qle_bool_iff in Hfull. lra. }
    assert (Heq : max zero (sub (leaked rl before now) (flow rl now later))
                  == max zero (sub (count before) (flow rl last later))).
    { apply max_Q_compat. cbn [sub Q_JsNumber].
      rewrite HL1, <- (flow_split rl last now later). ring. }
    subst after. unfold _leakyBucket. cbv zeta.
    cbn [count resetTime timestamps tokens lastRefill].
    rewrite Hl.
    replace (or_num (Some now) later) with now by (unfold or_num; rewrite Tn; reflexivity).
    replace (or_num (Some last) later) with last by (unfold or_num; rewrite Tl; reflexivity).
    change (mul (div (sub later now) (windowMs rl)) (maxRequests rl)) with (flow rl now later).
    change (mul (div (sub later last) (windowMs rl)) (maxRequests rl)) with (flow rl last later).
    set (x := max zero (sub (leaked rl before now) (flow rl now later))) in *.
    set (y := max zero (sub (count before) (flow rl last later))) in *.
    assert (Hge : geb x (maxRequests rl) = geb y (maxRequests rl)).
    { cbn [geb Q_JsNumber]. apply Qle_bool_compat. exact Heq. }
    rewrite Hge. destruct (geb y (maxRequests rl)); cbn [fst snd]; split; try reflexivity;
      unfold same_record; cbn [count resetTime timestamps tokens lastRefill same_number];
      repeat split; try reflexivity; try exact Heq; try apply same_number_refl.
    cbn [add Q_JsNumber]. rewrite Heq. reflexivity.
Qed.

End Windows.

(** ** What a denied request leaves behind *)


(** A token bucket of capacity 2 and window 1000, in exact arithmetic,
    emptied by two requests at time 5. *)
Definition emptiedBucket : t Q :=
  snd (requests [5 # 1; 5 # 1] LoadBalancerFacts.sampleContext (windowLimiter TOKEN_BUCKET 2)).


(** C10, as stated, fails on the numbers of the code: a token bucket of
    capacity 10 and window 1000 is emptied at time 1000.  The request at
    1100 finds a refill of (100 / 1000) * 10 = 1 and is let in.  When a
    request is made, and denied, at 1010, the refill comes in two parts,
    0.10000000000000001 and 0.89999999999999991, that add up to
    0.99999999999999989 in binary64: the request at 1100 is denied. *)
Lemma denied_request_costs_an_admission :
  fst (requests (repeat 1000%float 10 ++ [1000; 1010; 1100]%float)
         LoadBalancerFacts.sampleContext (create (tokenConfig 1000%float 10%float)))
  = repeat true 10 ++ [false; false; false] /\
  fst (requests (repeat 1000%float 10 ++ [1000; 1100]%float)
         LoadBalancerFacts.sampleContext (create (tokenConfig 1000%float 10%float)))
  = repeat true 10 ++ [false; true].
Proof. vm_compute. split; reflexivity. Qed.

End RateLimiterFacts.

(** ** Properties of the router *)
Module RouterFacts.
Import RegExp Router.
Local Open Scope string_scope.
Local Open Scope list_scope.

Section AnyEngine.
Variable host_exec : string -> string -> ExecResult.

(** A rule that [match] looks at: enabled, and with no failing condition. *)
Definition considered (context : RequestContext) (r : RouteRule) : bool :=
  is_enabled r && negb (condition_fails r context).

(** The metadata bag a context carries, empty when it has none. *)
Definition bag (context : RequestContext) : gmap string JsValue :=
  match ctx_metadata context with
  | Some md => md
  | None => ∅
  end.

(** X2.  First match wins: [match] returns the match of a rule exactly when the
    rules split into the rules before it, each passed over (disabled,
    failing its condition, or not matching the url), and that rule,
    considered and matching. *)
Lemma match_rules_first (l : list RouteRule) (context : RequestContext) (m : RouteMatch) :
  match_rules host_exec l context = Route m <->
  exists before after,
    l = before ++ rule m :: after /\
    Forall (fun r => considered context r = false \/
                     _matchPattern host_exec (ctx_url context) (pattern r) = ExecNull) before /\
    considered context (rule m) = true /\
    _matchPattern host_exec (ctx_url context) (pattern (rule m)) = ExecArray (matches m) /\
    targetUrl m = _resolveTarget (target (rule m)) context (matches m).
Proof.
  unfold considered. induction l as [|r l IH]; simpl.
  - split; [discriminate|]. intros (before & after & Hl & _). destruct before; discriminate.
  - destruct (is_enabled r) eqn:He; simpl.
    + destruct (condition_fails r context) eqn:Hc; simpl.
      * rewrite IH. split.
        -- intros (before & after & Hl & Hb & Hrest). exists (r :: before), after.
           split; [rewrite Hl; reflexivity|]. split; [|exact Hrest].
           constructor; [left; rewrite He, Hc; reflexivity|exact Hb].
        -- intros (before & after & Hl & Hb & Hc' & Hrest).
           destruct before as [|r' before]; simpl in Hl; injection Hl as -> ->.
           ++ rewrite He, Hc in Hc'. discriminate.
           ++ inversion Hb; subst. exists before, after. split; [reflexivity|]. repeat split; first [assumption|apply Hrest].
      * destruct (_matchPattern host_exec (ctx_url context) (pattern r)) as [| |l'] eqn:Hm.
        -- split; [discriminate|].
           intros (before & after & Hl & Hb & Hc' & Hm' & _).
           destruct before as [|r' before]; simpl in Hl; injection Hl as -> ->.
           ++ congruence.
           ++ inversion Hb as [|? ? [Hx|Hx] _]; subst.
              ** rewrite He, Hc in Hx. discriminate.
              ** congruence.
        -- rewrite IH. split.
           ++ intros (before & after & Hl & Hb & Hrest). exists (r :: before), after.
              split; [rewrite Hl; reflexivity|]. split; [|exact Hrest].
              constructor; [right; exact Hm|exact Hb].
           ++ intros (before & after & Hl & Hb & Hc' & Hm' & Ht).
              destruct before as [|r' before]; simpl in Hl; injection Hl as -> ->.
              ** congruence.
              ** inversion Hb; subst. exists before, after.
                 split; [reflexivity|]. repeat split; assumption.
        -- split.
           ++ intros Hr. injection Hr as <-. exists [], l. simpl.
              rewrite He, Hc. repeat split; try reflexivity; [constructor|exact Hm].
           ++ intros (before & after & Hl & Hb & Hc' & Hm' & Ht).
              destruct before as [|r' before]; simpl in Hl; injection Hl as -> ->.
              ** destruct m as [mr mt mm]. simpl in *.
                 rewrite Hm in Hm'. injection Hm' as <-. rewrite Ht. reflexivity.
              ** inversion Hb as [|? ? [Hx|Hx] _]; subst.
                 --- rewrite He, Hc in Hx. discriminate.
                 --- congruence.
    + rewrite IH. split.
      * intros (before & after & Hl & Hb & Hrest). exists (r :: before), after.
        split; [rewrite Hl; reflexivity|]. split; [|exact Hrest].
        constructor; [left; rewrite He; reflexivity|exact Hb].
      * intros (before & after & Hl & Hb & Hc' & Hrest).
        destruct before as [|r' before]; simpl in Hl; injection Hl as -> ->.
        -- rewrite He in Hc'. discriminate.
        -- inversion Hb; subst. exists before, after. split; [reflexivity|]. repeat split; first [assumption|apply Hrest].
Qed.

Lemma match_rules_none (l : list RouteRule) (context : RequestContext) :
  Forall (fun r => considered context r = true ->
                   _matchPattern host_exec (ctx_url context) (pattern r) = ExecNull) l ->
  match_rules host_exec l context = NoRoute.
Proof.
  unfold considered. induction 1 as [|r l Hr _ IH]; simpl; [reflexivity|].
  destruct (is_enabled r); simpl in *; [|exact IH].
  destruct (condition_fails r context); simpl in *; [exact IH|].
  rewrite Hr by reflexivity. exact IH.
Qed.

(** C9.  When a rule matches, [route] returns the context with its url
    replaced by the resolved target and with, in its metadata, the prior
    url under originalUrl, the winning rule's name under routeRule and its
    type under routeType (the string redirect, rewrite or proxy of that
    rule, or undefined for a rule held without a type), the other keys and
    the other fields being kept; when no rule that is enabled (and whose
    condition holds) matches the url, [route] returns the context as it
    was. *)
Theorem route_records_then_rewrites :
  forall (router : t) (context : RequestContext),
    (forall m, match_ host_exec router context = Route m ->
       exists context' md,
         route host_exec router context = Some context' /\
         ctx_url context' = targetUrl m /\
         ctx_metadata context' = Some md /\
         md !! "originalUrl" = Some (JsString (ctx_url context)) /\
         md !! "routeRule" = Some (JsString (name (rule m))) /\
         (type (rule m) = Some redirect -> md !! "routeType" = Some (JsString "redirect")) /\
         (type (rule m) = Some rewrite -> md !! "routeType" = Some (JsString "rewrite")) /\
         (type (rule m) = Some proxy -> md !! "routeType" = Some (JsString "proxy")) /\
         (type (rule m) = None -> md !! "routeType" = Some JsUndefined) /\
         (forall key, key <> "originalUrl" -> key <> "routeRule" -> key <> "routeType" ->
                      md !! key = bag context !! key) /\
         ctx_id context' = ctx_id context /\ ctx_type context' = ctx_type context /\
         ctx_timestamp context' = ctx_timestamp context /\
         ctx_method context' = ctx_method context /\
         ctx_headers context' = ctx_headers context) /\
    (Forall (fun r => considered context r = true ->
                      _matchPattern host_exec (ctx_url context) (pattern r) = ExecNull)
            (rules router) ->
     match_ host_exec router context = NoRoute /\
     route host_exec router context = Some context).
Proof.
  intros router context. split.
  - intros m Hm. unfold route. rewrite Hm. fold (bag context).
    eexists. eexists. split; [reflexivity|].
    cbn [ctx_url ctx_metadata ctx_id ctx_type ctx_timestamp ctx_method ctx_headers].
    split; [reflexivity|]. split; [reflexivity|].
    split.
    { rewrite lookup_insert_ne by discriminate.
      rewrite lookup_insert_ne by discriminate. apply lookup_insert_eq. }
    split.
    { rewrite lookup_insert_ne by discriminate. apply lookup_insert_eq. }
    split; [intros Hty; rewrite lookup_insert_eq; unfold type_value; rewrite Hty; reflexivity|].
    split; [intros Hty; rewrite lookup_insert_eq; unfold type_value; rewrite Hty; reflexivity|].
    split; [intros Hty; rewrite lookup_insert_eq; unfold type_value; rewrite Hty; reflexivity|].
    split; [intros Hty; rewrite lookup_insert_eq; unfold type_value; rewrite Hty; reflexivity|].
    split.
    { intros key H1 H2 H3. rewrite !lookup_insert_ne by congruence. reflexivity. }
    repeat split.
  - intros Hnone. assert (Hm : match_ host_exec router context = NoRoute)
      by (apply match_rules_none; exact Hnone).
    split; [exact Hm|]. unfold route. rewrite Hm. reflexivity.
Qed.

End AnyEngine.

(** ** Examples on the fragment engine *)

Definition request (u : string) : RequestContext :=
  {| ctx_id := "1"; ctx_type := FETCH; ctx_timestamp := 1; ctx_url := u;
     ctx_method := Some "GET"; ctx_headers := None; ctx_metadata := None |}.

(** [createRouter().apiVersion('v1', 'v2').build()] *)
Definition versionRouter : t := builder_apiVersion "v1" "v2" create.

(** The url a match resolves to. *)
Definition resolved (r : MatchResult) : option string :=
  match r with
  | Route m => Some (targetUrl m)
  | _ => None
  end.

Definition captured (r : MatchResult) : list (option string) :=
  match r with
  | Route m => matches m
  | _ => []
  end.

(** The rule of [versionRouter] as [addRule] stores it, and its match for
    "/api/v1/users". *)
Definition versionRule : RouteRule :=
  {| name := "api-migration-v1-to-v2"; pattern := PRegExp "/api/v1/(.*)";
     target := TString "/api/v2/$1"; weight := Some 1%Z; enabled := Some true;
     condition := None; type := Some rewrite |}.

Definition usersMatch : RouteMatch :=
  {| rule := versionRule; targetUrl := "/api/v2/users";
     matches := [Some "/api/v1/users"; Some "users"] |}.

(** A rule of the builder as [addRule] stores it. *)
Definition plainRuleStored (n : string) (p : Pattern) (tg : string) (ty : RouteType)
  : RouteRule :=
  {| name := n; pattern := p; target := TString tg; weight := Some 1%Z;
     enabled := Some true; condition := None; type := Some ty |}.

(** [createRouter().redirect('/health*', '/status').build()] *)
Definition healthRouter : t := builder_redirect "/health*" "/status" create.

(** [createRouter().proxy('/old/*', '/new').build()] *)
Definition proxyRouter : t := builder_proxy "/old/*" "/new" create.

Lemma route_witness :
  (exists context',
     route exec versionRouter (request "/api/v1/users") = Some context' /\
     ctx_url context' = "/api/v2/users" /\
     bag context' !! "originalUrl" = Some (JsString "/api/v1/users") /\
     bag context' !! "routeRule" = Some (JsString "api-migration-v1-to-v2") /\
     bag context' !! "routeType" = Some (JsString "rewrite")) /\
  (exists context',
     route exec proxyRouter (request "/old/users") = Some context' /\
     ctx_url context' = "/new" /\
     bag context' !! "originalUrl" = Some (JsString "/old/users") /\
     bag context' !! "routeRule" = Some (JsString "proxy-/old/*") /\
     bag context' !! "routeType" = Some (JsString "proxy")) /\
  route exec versionRouter (request "/api/v3/users") = Some (request "/api/v3/users").
Proof.
  split; [|split].
  - destruct (proj1 (route_records_then_rewrites exec versionRouter (request "/api/v1/users"))
                usersMatch eq_refl)
      as (context' & md & Hroute & Hurl & Hmd & Ho & Hr & _ & Ht & _).
    exists context'. unfold bag. rewrite Hmd.
    split; [exact Hroute|]. split; [exact Hurl|]. split; [exact Ho|].
    split; [exact Hr|exact (Ht eq_refl)].
  - destruct (proj1 (route_records_then_rewrites exec proxyRouter (request "/old/users"))
                {| rule := plainRuleStored "proxy-/old/*" (PString "/old/*") "/new" proxy;
                   targetUrl := "/new"; matches := [Some "/old/users"] |} eq_refl)
      as (context' & md & Hroute & Hurl & Hmd & Ho & Hr & _ & _ & Ht & _).
    exists context'. unfold bag. rewrite Hmd.
    split; [exact Hroute|]. split; [exact Hurl|]. split; [exact Ho|].
    split; [exact Hr|exact (Ht eq_refl)].
  - apply (proj2 (route_records_then_rewrites exec versionRouter (request "/api/v3/users"))).
    constructor; [|constructor]. intros _. reflexivity.
Defined.

(** C6, at its failing input.  The examples of the claim hold: the rule of
    [apiVersion('v1', 'v2')], whose pattern captures what follows
    "/api/v1/" in one group and whose target is "/api/v2/$1", rewrites
    "/api/v1/users" to "/api/v2/users", and the string pattern "/health*"
    matches "/health/check".  But for the url
    "/api/v1/a$$b" the group captures "a$$b" and the resolved target is
    "/api/v2/a$b": the captured text is handed to [replace] as a
    replacement template, in which "$$" stands for one dollar sign. *)
Theorem dollar_in_capture_is_expanded :
  resolved (match_ exec versionRouter (request "/api/v1/users")) = Some "/api/v2/users" /\
  captured (match_ exec healthRouter (request "/health/check")) = [Some "/health/check"] /\
  captured (match_ exec versionRouter (request "/api/v1/a$$b"))
    = [Some "/api/v1/a$$b"; Some "a$$b"] /\
  resolved (match_ exec versionRouter (request "/api/v1/a$$b")) = Some "/api/v2/a$b".
Proof. vm_compute. repeat split; reflexivity. Qed.

(** ** String patterns are anchored wildcard patterns *)

Local Arguments String.append : simpl nomatch.

(** A character that stands for itself in the source of an expression. *)
Definition plain (c : ascii) : bool := negb (is_syntax c) || Ascii.eqb c "/".

(** A character of a wildcard pattern: plain, or one of the two wildcards. *)
Definition wild (c : ascii) : bool := plain c || Ascii.eqb c "*" || Ascii.eqb c "?".

(** Wildcard matching of a whole text: "*" stands for any run of
    characters and "?" for exactly one, line terminators apart. *)
Inductive Glob : list ascii -> list ascii -> Prop :=
| Glob_end : Glob [] []
| Glob_star_none p u : Glob p u -> Glob ("*"%char :: p) u
| Glob_star_more p c u :
    is_line_terminator c = false -> Glob ("*"%char :: p) u -> Glob ("*"%char :: p) (c :: u)
| Glob_any p c u : is_line_terminator c = false -> Glob p u -> Glob ("?"%char :: p) (c :: u)
| Glob_char p c u : plain c = true -> Glob p u -> Glob (c :: p) (c :: u).

(** The text each character of a pattern is replaced by. *)
Fixpoint map_chars (f : ascii -> string) (s : string) : string :=
  match s with
  | EmptyString => EmptyString
  | String c rest => (f c ++ map_chars f rest)%string
  end.

Definition wild_text (c : ascii) : string :=
  if Ascii.eqb c "*" then ".*" else if Ascii.eqb c "?" then "." else String c EmptyString.

Definition wild_item (c : ascii) : Item :=
  if Ascii.eqb c "*" then Star AnyChar
  else if Ascii.eqb c "?" then One AnyChar
  else One (Lit c).

Lemma append_empty (s : string) : (s ++ "")%string = s.
Proof. induction s as [|c s IH]; simpl; [reflexivity|f_equal; exact IH]. Qed.

Lemma append_assoc (a b c : string) : ((a ++ b) ++ c)%string = (a ++ (b ++ c))%string.
Proof. induction a as [|x a IH]; simpl; [reflexivity|f_equal; exact IH]. Qed.

Lemma map_chars_append (f : ascii -> string) (a b : string) :
  map_chars f (a ++ b)%string = (map_chars f a ++ map_chars f b)%string.
Proof.
  induction a as [|x a IH]; simpl; [reflexivity|]. rewrite IH, append_assoc. reflexivity.
Qed.

(** Replacing every occurrence of one character by a template without
    dollar signs. *)
Lemma replace_all_single (c : ascii) (template : string) :
  (forall matched before after,
     JsString.get_substitution template matched before after = template) ->
  forall s,
    JsString.replace_all (String c EmptyString) template s =
    map_chars (fun x => if Ascii.eqb c x then template else String x EmptyString) s.
Proof.
  intros Htemplate s. unfold JsString.replace_all.
  assert (G : forall before,
            JsString.replace_from (String c EmptyString) template 0 before s =
            map_chars (fun x => if Ascii.eqb c x then template else String x EmptyString) s);
    [|apply G].
  induction s as [|x s IH]; intros before; [reflexivity|].
  simpl. destruct (ascii_dec c x) as [->|Hne].
  - rewrite Ascii.eqb_refl.
    assert (Hp : String.prefix "" s = true) by (destruct s; reflexivity).
    rewrite Hp, Htemplate, IH. reflexivity.
  - assert (Hx : Ascii.eqb c x = false) by (apply Ascii.eqb_neq; exact Hne).
    rewrite Hx, IH. reflexivity.
Qed.

(** The two replacements of [_matchPattern] turn each character of the
    pattern into its text. *)
Lemma wildcards_replaced (p : string) :
  JsString.replace_all "?" "." (JsString.replace_all "*" ".*" p) = map_chars wild_text p.
Proof.
  rewrite (replace_all_single "*" ".*") by reflexivity.
  rewrite (replace_all_single "?" ".") by reflexivity.
  set (stars := fun x => if Ascii.eqb "*" x then ".*" else String x EmptyString).
  set (marks := fun x => if Ascii.eqb "?" x then "." else String x EmptyString).
  induction p as [|c p IH]; [reflexivity|].
  change (map_chars stars (String c p)) with (stars c ++ map_chars stars p)%string.
  rewrite map_chars_append, IH.
  change (map_chars wild_text (String c p)) with (wild_text c ++ map_chars wild_text p)%string.
  f_equal. unfold stars, wild_text.
  destruct (Ascii.eqb_spec c "*") as [->|Hstar]; [reflexivity|].
  destruct (Ascii.eqb_spec c "?") as [->|Hmark]; [reflexivity|].
  assert (E1 : Ascii.eqb "*" c = false) by (apply Ascii.eqb_neq; congruence).
  assert (E2 : Ascii.eqb "?" c = false) by (apply Ascii.eqb_neq; congruence).
  rewrite E1.
  change (map_chars marks (String c EmptyString)) with (marks c ++ "")%string.
  unfold marks. rewrite E2. reflexivity.
Qed.

Lemma chars_append (a b : string) :
  list_ascii_of_string (a ++ b)%string = list_ascii_of_string a ++ list_ascii_of_string b.
Proof. induction a as [|x a IH]; simpl; [reflexivity|rewrite IH; reflexivity]. Qed.

Lemma parse_plain (c : ascii) (rest : list ascii) acc opened next :
  plain c = true ->
  parse_from (c :: rest) acc opened next = parse_from rest (One (Lit c) :: acc) opened next.
Proof.
  destruct c as [[] [] [] [] [] [] [] []]; intros Hp; try discriminate Hp; reflexivity.
Qed.

Lemma wild_cases (c : ascii) :
  wild c = true -> c = "*"%char \/ c = "?"%char \/ (plain c = true /\ wild_item c = One (Lit c)
                                                   /\ wild_text c = String c EmptyString).
Proof.
  destruct c as [[] [] [] [] [] [] [] []]; intros Hw; try discriminate Hw;
    first [left; reflexivity | right; left; reflexivity
          | right; right; repeat split; reflexivity].
Qed.

(** Parsing the text of a wildcard pattern yields its items. *)
Lemma parse_wild (p : list ascii) :
  Forall (fun c => wild c = true) p ->
  forall rest acc opened next,
    parse_from (list_ascii_of_string (map_chars wild_text (string_of_list_ascii p)) ++ rest)
      acc opened next =
    parse_from rest (rev (map wild_item p) ++ acc) opened next.
Proof.
  induction 1 as [|c p Hc _ IH]; intros rest acc opened next; [reflexivity|].
  simpl string_of_list_ascii. simpl map_chars. rewrite chars_append, <- app_assoc.
  simpl map. simpl rev. rewrite <- app_assoc. simpl app at 3.
  destruct (wild_cases c Hc) as [->|[->|(Hp & Hi & Ht)]].
  - simpl. apply IH.
  - simpl. apply IH.
  - rewrite Hi, Ht. simpl list_ascii_of_string. simpl app at 1.
    rewrite parse_plain by exact Hp. apply IH.
Qed.

(** The matcher on the items of a wildcard pattern, anchored at the end. *)
Definition wild_items (p : list ascii) : list Item := map wild_item p ++ [Eol].

Lemma run_star (a : Atom) (rest : list Item) (c : ascii) (s : list ascii) pos caps :
  run (Star a :: rest) (c :: s) pos caps =
  if atom_matches a c then
    match run (Star a :: rest) s (S pos) caps with
    | Some r => Some r
    | None => run rest (c :: s) pos caps
    end
  else run rest (c :: s) pos caps.
Proof. reflexivity. Qed.

Lemma run_star_end (a : Atom) (rest : list Item) pos caps :
  run (Star a :: rest) [] pos caps = run rest [] pos caps.
Proof. reflexivity. Qed.

Lemma wild_items_cons (c : ascii) (p : list ascii) :
  wild_items (c :: p) = wild_item c :: wild_items p.
Proof. reflexivity. Qed.

(** A successful run has matched the whole text. *)
Lemma run_wild_sound (p : list ascii) :
  Forall (fun c => wild c = true) p ->
  forall u pos caps r,
    run (wild_items p) u pos caps = Some r ->
    r = (pos + length u, caps) /\ Glob p u.
Proof.
  induction 1 as [|c p Hc _ IH].
  - intros u pos caps r. destruct u as [|d u]; simpl; [|discriminate].
    intros Hr. injection Hr as <-. rewrite Nat.add_0_r. split; [reflexivity|constructor].
  - rewrite wild_items_cons.
    destruct (wild_cases c Hc) as [->|[->|(Hp & Hi & _)]].
    + change (wild_item "*") with (Star AnyChar).
      induction u as [|d u IHu]; intros pos caps r.
      * rewrite run_star_end. intros Hr. destruct (IH [] pos caps r Hr) as [-> Hg].
        split; [reflexivity|]. apply Glob_star_none. exact Hg.
      * rewrite run_star. simpl atom_matches.
        destruct (is_line_terminator d) eqn:Hlt; simpl negb.
        -- intros Hr. destruct (IH (d :: u) pos caps r Hr) as [-> Hg].
           split; [reflexivity|]. apply Glob_star_none. exact Hg.
        -- destruct (run (Star AnyChar :: wild_items p) u (S pos) caps) as [r'|] eqn:Hmore.
           ++ intros Hr. injection Hr as <-.
              destruct (IHu (S pos) caps r' Hmore) as [-> Hg].
              split; [simpl; f_equal; lia|]. apply Glob_star_more; assumption.
           ++ intros Hr. destruct (IH (d :: u) pos caps r Hr) as [-> Hg].
              split; [reflexivity|]. apply Glob_star_none. exact Hg.
    + change (wild_item "?") with (One AnyChar).
      intros u pos caps r. destruct u as [|d u]; simpl; [discriminate|].
      destruct (is_line_terminator d) eqn:Hlt; simpl; [discriminate|].
      intros Hr. destruct (IH u (S pos) caps r Hr) as [-> Hg].
      split; [f_equal; lia|]. apply Glob_any; assumption.
    + rewrite Hi. intros u pos caps r. destruct u as [|d u]; simpl; [discriminate|].
      destruct (Ascii.eqb_spec c d) as [<-|Hne]; [|discriminate].
      intros Hr. destruct (IH u (S pos) caps r Hr) as [-> Hg].
      split; [f_equal; lia|]. apply Glob_char; assumption.
Qed.

(** A text the pattern stands for is matched. *)
Lemma run_wild_complete (p u : list ascii) :
  Forall (fun c => wild c = true) p ->
  Glob p u ->
  forall pos caps, run (wild_items p) u pos caps = Some (pos + length u, caps).
Proof.
  intros Hw Hg. induction Hg as [|p u Hg IH|p c u Hc Hg IH|p c u Hc Hg IH|p c u Hc Hg IH];
    intros pos caps.
  - simpl. rewrite Nat.add_0_r. reflexivity.
  - inversion Hw as [|? ? _ Hw']; subst. specialize (IH Hw').
    rewrite wild_items_cons. change (wild_item "*") with (Star AnyChar).
    destruct u as [|d u]; [rewrite run_star_end; apply IH|].
    rewrite run_star. destruct (atom_matches AnyChar d); [|apply IH].
    destruct (run (Star AnyChar :: wild_items p) u (S pos) caps) as [r|] eqn:Hmore; [|apply IH].
    destruct (run_wild_sound ("*"%char :: p) Hw u (S pos) caps r Hmore) as [-> _].
    simpl. f_equal. f_equal. lia.
  - specialize (IH Hw). rewrite wild_items_cons in *.
    change (wild_item "*") with (Star AnyChar) in *.
    rewrite run_star. simpl atom_matches. rewrite Hc. simpl negb.
    rewrite (IH (S pos) caps). simpl. f_equal. f_equal. lia.
  - inversion Hw as [|? ? _ Hw']; subst. specialize (IH Hw').
    rewrite wild_items_cons. change (wild_item "?") with (One AnyChar).
    simpl. rewrite Hc. simpl. rewrite (IH (S pos) caps). f_equal. f_equal. lia.
  - inversion Hw as [|? ? Hwc Hw']; subst. specialize (IH Hw').
    rewrite wild_items_cons.
    destruct (wild_cases c Hwc) as [->|[->|(_ & Hi & _)]]; try discriminate Hc.
    rewrite Hi. simpl. rewrite Ascii.eqb_refl. rewrite (IH (S pos) caps).
    f_equal. f_equal. lia.
Qed.

Lemma search_bol_later (its : list Item) (s : list ascii) :
  forall pos, search (Bol :: its) s (S pos) = None.
Proof. induction s as [|c s IH]; intros pos; simpl; [reflexivity|apply IH]. Qed.

Lemma search_bol (its : list Item) (s : list ascii) :
  search (Bol :: its) s 0 =
  match run its s 0 {| started := []; closed := [] |} with
  | Some r => Some (0, r)
  | None => None
  end.
Proof.
  destruct s as [|c s]; simpl.
  - destruct (run its [] 0 _); reflexivity.
  - destruct (run its (c :: s) 0 _); [reflexivity|apply search_bol_later].
Qed.

Lemma substring_all (s : string) : String.substring 0 (String.length s) s = s.
Proof. induction s as [|c s IH]; simpl; [reflexivity|f_equal; exact IH]. Qed.

Lemma chars_length (s : string) : length (list_ascii_of_string s) = String.length s.
Proof. induction s as [|c s IH]; simpl; [reflexivity|f_equal; exact IH]. Qed.

(** The expression a wildcard pattern is compiled to. *)
Lemma compile_wild (p : string) :
  Forall (fun c => wild c = true) (list_ascii_of_string p) ->
  compile ("^" ++ map_chars wild_text p ++ "$")%string =
  Some {| items := Bol :: wild_items (list_ascii_of_string p); groups := 0 |}.
Proof.
  intros Hw. unfold compile.
  change ("^" ++ map_chars wild_text p ++ "$")%string
    with (String "^" (map_chars wild_text p ++ "$"))%string.
  simpl list_ascii_of_string. rewrite chars_append.
  change (parse_from ("^"%char :: ?l) [] [] 1) with (parse_from l [Bol] [] 1).
  rewrite <- (string_of_list_ascii_of_string p) at 1.
  rewrite (parse_wild (list_ascii_of_string p) Hw).
  simpl. unfold wild_items. rewrite rev_app_distr, rev_involutive. reflexivity.
Qed.

(** X3.  A string pattern made of plain characters, "*" and "?" matches a
    url exactly when the url, as a whole, is what the pattern stands for
    with "*" read as any run of characters and "?" as exactly one (line
    terminators apart); the match array holds the url alone. *)
Theorem string_pattern_is_anchored_wildcard :
  forall (p url : string),
    Forall (fun c => wild c = true) (list_ascii_of_string p) ->
    (Glob (list_ascii_of_string p) (list_ascii_of_string url) ->
     _matchPattern exec url (PString p) = ExecArray [Some url]) /\
    (~ Glob (list_ascii_of_string p) (list_ascii_of_string url) ->
     _matchPattern exec url (PString p) = ExecNull).
Proof.
  intros p url Hw.
  assert (E : _matchPattern exec url (PString p) =
              match run (wild_items (list_ascii_of_string p)) (list_ascii_of_string url) 0
                      {| started := []; closed := [] |} with
              | Some (to, caps) =>
                  ExecArray (match_array {| items := Bol :: wild_items (list_ascii_of_string p);
                                            groups := 0 |} url 0 to caps)
              | None => ExecNull
              end).
  { unfold _matchPattern. cbv zeta. rewrite wildcards_replaced.
    unfold exec. rewrite (compile_wild p Hw). cbn [items]. rewrite search_bol.
    destruct (run _ _ 0 _) as [[to caps]|]; reflexivity. }
  rewrite E. split.
  - intros Hg. rewrite (run_wild_complete _ _ Hw Hg).
    unfold match_array, span. simpl. rewrite chars_length, Nat.sub_0_r, substring_all.
    reflexivity.
  - intros Hn. destruct (run _ _ 0 _) as [[to caps]|] eqn:Hrun; [|reflexivity].
    exfalso. apply Hn. eapply run_wild_sound; eassumption.
Qed.

Lemma string_pattern_witness :
  _matchPattern exec "/health/check" (PString "/health*") = ExecArray [Some "/health/check"] /\
  _matchPattern exec "/status" (PString "/health*") = ExecNull.
Proof.
  assert (Hw : Forall (fun c => wild c = true) (list_ascii_of_string "/health*"))
    by (repeat constructor).
  split.
  - apply (proj1 (string_pattern_is_anchored_wildcard "/health*" "/health/check" Hw)).
    simpl. repeat (apply Glob_char; [reflexivity|]).
    repeat (apply Glob_star_more; [reflexivity|]).
    apply Glob_star_none. constructor.
  - apply (proj2 (string_pattern_is_anchored_wildcard "/health*" "/status" Hw)).
    simpl. intros Hg.
    inversion Hg as [| | | |? ? ? _ Hg1]; subst.
    inversion Hg1.
Defined.

(** ** Changing the rules *)

Section RuleChanges.
Variable host_exec : string -> string -> ExecResult.

(** What a returned match is made of. *)
Lemma match_rules_route (l : list RouteRule) (context : RequestContext) (m : RouteMatch) :
  match_rules host_exec l context = Route m ->
  In (rule m) l /\ is_enabled (rule m) = true /\
  _matchPattern host_exec (ctx_url context) (pattern (rule m)) = ExecArray (matches m) /\
  targetUrl m = _resolveTarget (target (rule m)) context (matches m).
Proof.
  induction l as [|r l IH]; simpl; [discriminate|].
  destruct (is_enabled r) eqn:He; simpl.
  - destruct (condition_fails r context).
    + intros H. destruct (IH H) as (Hin & Hrest). split; [right; exact Hin|exact Hrest].
    + destruct (_matchPattern host_exec (ctx_url context) (pattern r)) as [| |l'] eqn:Hm.
      * discriminate.
      * intros H. destruct (IH H) as (Hin & Hrest). split; [right; exact Hin|exact Hrest].
      * intros H. injection H as <-. simpl. repeat split; try assumption. left. reflexivity.
  - intros H. destruct (IH H) as (Hin & Hrest). split; [right; exact Hin|exact Hrest].
Qed.

(** Matching over two lists of rules, one after the other. *)
Lemma match_rules_app (l1 l2 : list RouteRule) (context : RequestContext) :
  match_rules host_exec (l1 ++ l2) context =
  match match_rules host_exec l1 context with
  | NoRoute => match_rules host_exec l2 context
  | found => found
  end.
Proof.
  induction l1 as [|r l1 IH]; simpl; [reflexivity|].
  destruct (negb (is_enabled r)); [exact IH|].
  destruct (condition_fails r context); [exact IH|].
  destruct (_matchPattern host_exec (ctx_url context) (pattern r)); [reflexivity|exact IH|reflexivity].
Qed.

(** A rule as [addRule] stores it. *)
Definition stored_rule (r : RouteRule) : RouteRule :=
  {| name := name r; pattern := pattern r; target := target r;
     weight := match weight r with None => Some 1%Z | w => w end;
     enabled := match enabled r with None => Some true | e => e end;
     condition := condition r;
     type := match type r with None => Some rewrite | ty => ty end |}.

Lemma addRules_rules (l : list RouteRule) :
  forall router, rules (addRules l router) = rules router ++ map stored_rule l.
Proof.
  unfold addRules. induction l as [|r l IH]; intros router; simpl.
  - rewrite app_nil_r. reflexivity.
  - rewrite IH. simpl. rewrite <- app_assoc. reflexivity.
Qed.

(** X18.  Rules added later never take a request from the rules already
    there: after [addRules] (or [addRule]) [match] answers as before
    whenever it found a route or threw before, and otherwise as a router
    holding the new rules alone would. *)
Theorem added_rules_come_last :
  forall (router : t) (l : list RouteRule) (context : RequestContext),
    match_ host_exec (addRules l router) context =
      match match_ host_exec router context with
      | NoRoute => match_ host_exec (addRules l create) context
      | found => found
      end /\
    forall r, addRule r router = addRules [r] router.
Proof.
  intros router l context. split; [|reflexivity].
  unfold match_. rewrite !addRules_rules. simpl. apply match_rules_app.
Qed.

Lemma match_rules_skip_disabled (before after : list RouteRule) (r : RouteRule)
  (context : RequestContext) :
  is_enabled r = false ->
  match_rules host_exec (before ++ r :: after) context
  = match_rules host_exec (before ++ after) context.
Proof.
  intros Hr. rewrite !match_rules_app. simpl. rewrite Hr. reflexivity.
Qed.

Lemma set_enabled_split (n : string) (value : bool) (before after : list RouteRule)
  (r : RouteRule) :
  Forall (fun x => name x <> n) before -> name r = n ->
  set_enabled n value (before ++ r :: after) =
  before ++ {| name := name r; pattern := pattern r; target := target r; weight := weight r;
               enabled := Some value; condition := condition r; type := type r |} :: after.
Proof.
  intros Hb Hr. induction Hb as [|x before Hx _ IH]; simpl.
  - rewrite Hr, String.eqb_refl. reflexivity.
  - destruct (String.eqb_spec (name x) n); [contradiction|]. rewrite IH. reflexivity.
Qed.

Lemma set_enabled_absent (n : string) (value : bool) (l : list RouteRule) :
  Forall (fun x => name x <> n) l -> set_enabled n value l = l.
Proof.
  induction 1 as [|x l Hx _ IH]; simpl; [reflexivity|].
  destruct (String.eqb_spec (name x) n); [contradiction|]. rewrite IH. reflexivity.
Qed.

(** X19.  [disableRule(name)] takes the first rule of that name out of
    matching: [match] then answers as if the rule were not in the list.
    [enableRule(name)] after it puts a rule that was enabled back as it
    was, and with no rule of that name neither changes anything. *)
Theorem disabled_rule_is_passed_over :
  forall (router : t) (n : string),
    (forall before r after,
       rules router = before ++ r :: after ->
       Forall (fun x => name x <> n) before -> name r = n ->
       (forall context,
          match_ host_exec (disableRule n router) context
          = match_rules host_exec (before ++ after) context) /\
       (enabled r = Some true -> enableRule n (disableRule n router) = router)) /\
    (Forall (fun x => name x <> n) (rules router) ->
     disableRule n router = router /\ enableRule n router = router).
Proof.
  intros router n. split.
  - intros before r after Hrules Hb Hr. split.
    + intros context. unfold match_, disableRule. simpl.
      rewrite Hrules, (set_enabled_split n false before after r Hb Hr).
      apply match_rules_skip_disabled. reflexivity.
    + intros He. unfold enableRule, disableRule. simpl.
      rewrite Hrules, (set_enabled_split n false before after r Hb Hr).
      rewrite (set_enabled_split n true before after
                 {| name := name r; pattern := pattern r; target := target r;
                    weight := weight r; enabled := Some false; condition := condition r;
                    type := type r |} Hb Hr). simpl.
      destruct router as [l]. simpl in Hrules. subst l. f_equal. f_equal. f_equal.
      destruct r. simpl in *. subst. reflexivity.
  - intros Hnone. unfold disableRule, enableRule.
    rewrite !set_enabled_absent by exact Hnone. destruct router; split; reflexivity.
Qed.

(** X20.  After [removeRule(name)] no rule of that name is matched, and a
    request that was routed by a rule of another name is routed by it as
    before. *)
Theorem removed_rule_never_matches :
  forall (router : t) (n : string) (context : RequestContext),
    (forall m, match_ host_exec (removeRule n router) context = Route m -> name (rule m) <> n) /\
    (forall m, match_ host_exec router context = Route m -> name (rule m) <> n ->
               match_ host_exec (removeRule n router) context = Route m).
Proof.
  intros router n context. unfold match_, removeRule. simpl. split.
  - intros m Hm. apply match_rules_route in Hm. destruct Hm as (Hin & _).
    apply filter_In in Hin. destruct Hin as [_ Hne]. apply negb_true_iff in Hne.
    destruct (String.eqb_spec (name (rule m)) n); [discriminate|assumption].
  - intros m. induction (rules router) as [|r l IH]; simpl; [discriminate|].
    destruct (String.eqb_spec (name r) n) as [Heq|Hne]; simpl.
    + destruct (negb (is_enabled r)); [exact IH|].
      destruct (condition_fails r context); [exact IH|].
      destruct (_matchPattern host_exec (ctx_url context) (pattern r)); [discriminate|exact IH|].
      intros Hm Hname. injection Hm as <-. simpl in Hname. contradiction.
    + destruct (negb (is_enabled r)); [exact IH|].
      destruct (condition_fails r context); [exact IH|].
      destruct (_matchPattern host_exec (ctx_url context) (pattern r));
        [discriminate|exact IH|intros Hm _; exact Hm].
Qed.

(** ** Targets without references *)

(** No dollar sign occurs in the text. *)
Definition dollar_free (s : string) : Prop :=
  Forall (fun c => c <> "$"%char) (list_ascii_of_string s).

Lemma replace_from_dollar_free (digits template : string) :
  forall (s before : string),
    dollar_free s ->
    JsString.replace_from (String "$" digits) template 0 before s = s.
Proof.
  induction s as [|c s IH]; intros before Hs; [reflexivity|].
  inversion Hs as [|? ? Hc Hrest]; subst.
  cbn [JsString.replace_from].
  change (String.prefix (String "$" digits) (String c s))
    with (if ascii_dec "$" c then String.prefix digits s else false).
  destruct (ascii_dec "$" c) as [E|_]; [congruence|].
  rewrite IH by exact Hrest. reflexivity.
Qed.

Lemma substitute_dollar_free (l : list (option string)) :
  forall (index : nat) (s : string), dollar_free s -> substitute l index s = s.
Proof.
  induction l as [|m l IH]; intros index s Hs; simpl; [reflexivity|].
  unfold JsString.replace_all. simpl. rewrite replace_from_dollar_free by exact Hs.
  apply IH. exact Hs.
Qed.

(** X21.  A rule whose target is a text without a dollar sign sends every
    request it matches to that very text, whatever the pattern captured. *)
Theorem static_target_is_returned :
  forall (router : t) (context : RequestContext) (m : RouteMatch) (tg : string),
    match_ host_exec router context = Route m ->
    target (rule m) = TString tg ->
    dollar_free tg ->
    targetUrl m = tg /\
    exists context', route host_exec router context = Some context' /\ ctx_url context' = tg.
Proof.
  intros router context m tg Hm Htg Hfree.
  assert (Hurl : targetUrl m = tg).
  { apply match_rules_route in Hm. destruct Hm as (_ & _ & _ & Ht).
    rewrite Ht, Htg. simpl. apply substitute_dollar_free. exact Hfree. }
  split; [exact Hurl|].
  unfold route. rewrite Hm. eexists. split; [reflexivity|]. exact Hurl.
Qed.

End RuleChanges.

Lemma static_target_witness :
  exists context',
    route exec healthRouter (request "/health/check") = Some context' /\
    ctx_url context' = "/status".
Proof.
  assert (Hm : match_ exec healthRouter (request "/health/check")
               = Route {| rule := {| name := "redirect-/health*"; pattern := PString "/health*";
                                     target := TString "/status"; weight := Some 1%Z;
                                     enabled := Some true; condition := None;
                                     type := Some redirect |};
                          targetUrl := "/status";
                          matches := [Some "/health/check"] |})
    by (vm_compute; reflexivity).
  assert (Hfree : dollar_free "/status") by (repeat constructor; discriminate).
  exact (proj2 (static_target_is_returned exec healthRouter (request "/health/check") _
                  "/status" Hm eq_refl Hfree)).
Defined.

Lemma disabled_rule_witness :
  match_ exec (disableRule "redirect-/health*" healthRouter) (request "/health/check") = NoRoute.
Proof.
  assert (Hrules : rules healthRouter
                   = [] ++ {| name := "redirect-/health*"; pattern := PString "/health*";
                              target := TString "/status"; weight := Some 1%Z;
                              enabled := Some true; condition := None;
                              type := Some redirect |} :: []) by reflexivity.
  exact (proj1 (proj1 (disabled_rule_is_passed_over exec healthRouter "redirect-/health*")
                  [] _ [] Hrules (List.Forall_nil _) eq_refl) (request "/health/check")).
Defined.

Lemma removed_rule_witness :
  match_ exec (removeRule "other" versionRouter) (request "/api/v1/users") = Route usersMatch.
Proof.
  refine (proj2 (removed_rule_never_matches exec versionRouter "other"
                   (request "/api/v1/users")) usersMatch _ _).
  - vm_compute. reflexivity.
  - discriminate.
Defined.

(** ** Version migration *)

Definition literal (c : ascii) : Item := One (Lit c).

Lemma parse_literals (cs : list ascii) :
  Forall (fun c => plain c = true) cs ->
  forall rest acc opened next,
    parse_from (cs ++ rest) acc opened next =
    parse_from rest (rev (map literal cs) ++ acc) opened next.
Proof.
  induction 1 as [|c cs Hc _ IH]; intros rest acc opened next; [reflexivity|].
  change ((c :: cs) ++ rest) with (c :: (cs ++ rest)).
  rewrite (parse_plain c (cs ++ rest) acc opened next Hc), IH.
  simpl map. simpl rev. rewrite <- app_assoc. reflexivity.
Qed.

Lemma run_literals (cs : list ascii) (its : list Item) :
  forall (s : list ascii) (pos : nat) (caps : Captures),
    run (map literal cs ++ its) (cs ++ s) pos caps = run its s (pos + length cs) caps.
Proof.
  induction cs as [|c cs IH]; intros s pos caps.
  - simpl. rewrite Nat.add_0_r. reflexivity.
  - change (run (map literal (c :: cs) ++ its) ((c :: cs) ++ s) pos caps)
      with (if Ascii.eqb c c then run (map literal cs ++ its) (cs ++ s) (S pos) caps else None).
    rewrite Ascii.eqb_refl, IH. simpl length. f_equal. lia.
Qed.

(** The greedy ".*" followed by items that match the empty rest takes a
    whole line. *)
Lemma run_star_all (its : list Item) (r : nat * Captures) :
  forall (s : list ascii) (pos : nat) (caps : Captures),
    Forall (fun c => is_line_terminator c = false) s ->
    run its [] (pos + length s) caps = Some r ->
    run (Star AnyChar :: its) s pos caps = Some r.
Proof.
  induction s as [|c s IH]; intros pos caps Hs Hr.
  - rewrite run_star_end. simpl in Hr. rewrite Nat.add_0_r in Hr. exact Hr.
  - inversion Hs as [|? ? Hc Hrest]; subst.
    rewrite run_star. simpl atom_matches. rewrite Hc. simpl negb.
    rewrite (IH (S pos) caps Hrest); [reflexivity|].
    simpl length in Hr. rewrite Nat.add_succ_r in Hr. exact Hr.
Qed.

Lemma substring_after (a b : string) :
  String.substring (String.length a) (String.length b) (a ++ b)%string = b.
Proof.
  induction a as [|c a IH]; simpl; [apply substring_all|exact IH].
Qed.

Lemma length_append (a b : string) :
  String.length (a ++ b)%string = String.length a + String.length b.
Proof. induction a as [|c a IH]; simpl; [reflexivity|rewrite IH; reflexivity]. Qed.

(** The expression of [apiVersion] and its match on an url under the old
    version. *)
Lemma exec_version (version rest : string) :
  Forall (fun c => plain c = true) (list_ascii_of_string version) ->
  Forall (fun c => is_line_terminator c = false) (list_ascii_of_string rest) ->
  exec ("/api/" ++ version ++ "/(.*)")%string ("/api/" ++ version ++ "/" ++ rest)%string
  = ExecArray [Some ("/api/" ++ version ++ "/" ++ rest)%string; Some rest].
Proof.
  intros Hv Hrest.
  set (prefix := ("/api/" ++ version ++ "/")%string).
  assert (Hsource : ("/api/" ++ version ++ "/(.*)")%string = (prefix ++ "(.*)")%string).
  { unfold prefix. rewrite !append_assoc. reflexivity. }
  assert (Hurl : ("/api/" ++ version ++ "/" ++ rest)%string = (prefix ++ rest)%string).
  { unfold prefix. rewrite !append_assoc. reflexivity. }
  assert (Hplain : Forall (fun c => plain c = true) (list_ascii_of_string prefix)).
  { unfold prefix. rewrite !chars_append. apply Forall_app. split; [repeat constructor|].
    apply Forall_app. split; [exact Hv|repeat constructor]. }
  rewrite Hsource, Hurl. clearbody prefix. clear Hsource Hurl Hv.
  set (lits := list_ascii_of_string prefix) in *.
  assert (Hcompile : compile (prefix ++ "(.*)")%string
                     = Some {| items := map literal lits ++ [Open 1; Star AnyChar; Close 1];
                               groups := 1 |}).
  { unfold compile. rewrite chars_append. fold lits.
    rewrite (parse_literals lits Hplain). simpl.
    rewrite app_nil_r, rev_involutive, <- !app_assoc. reflexivity. }
  assert (Hrun : run (map literal lits ++ [Open 1; Star AnyChar; Close 1])
                   (list_ascii_of_string (prefix ++ rest)%string) 0
                   {| started := []; closed := [] |}
                 = Some (length lits + length (list_ascii_of_string rest),
                         {| started := [(1, length lits)];
                            closed := [(1, (length lits,
                                            length lits + length (list_ascii_of_string rest)))] |})).
  { rewrite chars_append. fold lits. rewrite run_literals. simpl Nat.add.
    change (run (Open 1 :: ?its) ?s ?pos ?caps)
      with (run its s pos {| started := (1, pos) :: started caps; closed := closed caps |}).
    apply run_star_all; [exact Hrest|]. reflexivity. }
  unfold exec. rewrite Hcompile. cbn [items].
  assert (Hsearch : search (map literal lits ++ [Open 1; Star AnyChar; Close 1])
                      (list_ascii_of_string (prefix ++ rest)%string) 0
                    = Some (0, (length lits + length (list_ascii_of_string rest),
                                {| started := [(1, length lits)];
                                   closed := [(1, (length lits,
                                                   length lits
                                                   + length (list_ascii_of_string rest)))] |}))).
  { destruct (list_ascii_of_string (prefix ++ rest)%string) as [|c s];
      simpl search; rewrite Hrun; reflexivity. }
  rewrite Hsearch. unfold match_array, span. cbn [groups seq map lookup closed Nat.eqb].
  unfold lits. rewrite !chars_length, Nat.sub_0_r, <- length_append, substring_all.
  rewrite length_append.
  replace (String.length prefix + String.length rest - String.length prefix)
    with (String.length rest) by lia.
  rewrite substring_after. reflexivity.
Qed.

Lemma get_substitution_dollar_free (template matched before after : string) :
  dollar_free template ->
  JsString.get_substitution template matched before after = template.
Proof.
  induction template as [|c template IH]; intros Hfree; [reflexivity|].
  inversion Hfree as [|? ? Hc Hrest]; subst.
  destruct c as [b0 b1 b2 b3 b4 b5 b6 b7].
  destruct b0, b1, b2, b3, b4, b5, b6, b7;
    try (simpl; rewrite IH by exact Hrest; reflexivity).
  exfalso. apply Hc. reflexivity.
Qed.

Lemma replace_from_prefix (digits template : string) :
  forall (a before tail : string),
    dollar_free a ->
    JsString.replace_from (String "$" digits) template 0 before (a ++ tail)%string
    = (a ++ JsString.replace_from (String "$" digits) template 0 (before ++ a)%string tail)%string.
Proof.
  induction a as [|c a IH]; intros before tail Ha.
  - simpl. rewrite append_empty. reflexivity.
  - inversion Ha as [|? ? Hc Hrest]; subst.
    change (String c a ++ tail)%string with (String c (a ++ tail)%string).
    cbn [JsString.replace_from].
    change (String.prefix (String "$" digits) (String c (a ++ tail)%string))
      with (if ascii_dec "$" c then String.prefix digits (a ++ tail)%string else false).
    destruct (ascii_dec "$" c) as [E|_]; [congruence|].
    rewrite (IH _ tail Hrest), append_assoc. reflexivity.
Qed.

Lemma resolve_version (toVersion url rest : string) :
  dollar_free toVersion -> dollar_free rest ->
  substitute [Some url; Some rest] 0 ("/api/" ++ toVersion ++ "/$1")%string
  = ("/api/" ++ toVersion ++ "/" ++ rest)%string.
Proof.
  intros Hto Hrest.
  set (head := ("/api/" ++ toVersion ++ "/")%string).
  assert (Htarget : ("/api/" ++ toVersion ++ "/$1")%string = (head ++ "$1")%string).
  { unfold head. rewrite !append_assoc. reflexivity. }
  assert (Hresult : ("/api/" ++ toVersion ++ "/" ++ rest)%string = (head ++ rest)%string).
  { unfold head. rewrite !append_assoc. reflexivity. }
  assert (Hhead : dollar_free head).
  { unfold head, dollar_free. rewrite !chars_append. apply Forall_app.
    split; [repeat constructor; discriminate|].
    apply Forall_app. split; [exact Hto|repeat constructor; discriminate]. }
  rewrite Htarget, Hresult. clearbody head. clear Htarget Hresult.
  unfold substitute.
  change (JsString.show_nat 0) with "0"%string. change (JsString.show_nat 1) with "1"%string.
  change ("$" ++ "0")%string with (String "$" "0"). change ("$" ++ "1")%string with (String "$" "1").
  unfold JsString.replace_all, to_text.
  rewrite (replace_from_prefix "0" url head EmptyString "$1" Hhead).
  change (JsString.replace_from (String "$" "0") url 0 ("" ++ head)%string "$1") with "$1"%string.
  rewrite (replace_from_prefix "1" rest head EmptyString "$1" Hhead).
  change (JsString.replace_from (String "$" "1") rest 0 ("" ++ head)%string "$1")
    with (JsString.get_substitution rest (String "$" "1") ("" ++ head)%string "" ++ "")%string.
  rewrite get_substitution_dollar_free by exact Hrest.
  rewrite append_empty. reflexivity.
Qed.

(** X27.  [apiVersion(fromVersion, toVersion)] moves a request for
    /api/fromVersion/rest to /api/toVersion/rest, when fromVersion is made
    of characters without a meaning in a regular expression, toVersion and
    rest hold no dollar sign and rest no line terminator: the rule matches,
    its group captures rest, and [route] sets the url. *)
Theorem apiVersion_moves_plain_paths :
  forall (fromVersion toVersion rest : string) (context : RequestContext),
    Forall (fun c => plain c = true) (list_ascii_of_string fromVersion) ->
    dollar_free toVersion -> dollar_free rest ->
    Forall (fun c => is_line_terminator c = false) (list_ascii_of_string rest) ->
    ctx_url context = ("/api/" ++ fromVersion ++ "/" ++ rest)%string ->
    captured (match_ exec (builder_apiVersion fromVersion toVersion create) context)
      = [Some (ctx_url context); Some rest] /\
    exists context',
      route exec (builder_apiVersion fromVersion toVersion create) context = Some context' /\
      ctx_url context' = ("/api/" ++ toVersion ++ "/" ++ rest)%string.
Proof.
  intros fromVersion toVersion rest context Hfrom Hto Hrest Hline Hurl.
  set (r := stored_rule
              (plainRule ("api-migration-" ++ fromVersion ++ "-to-" ++ toVersion)%string
                 (PRegExp ("/api/" ++ fromVersion ++ "/(.*)")%string)
                 ("/api/" ++ toVersion ++ "/$1")%string rewrite)).
  assert (Hm : match_ exec (builder_apiVersion fromVersion toVersion create) context
               = Route {| rule := r;
                          targetUrl := ("/api/" ++ toVersion ++ "/" ++ rest)%string;
                          matches := [Some (ctx_url context); Some rest] |}).
  { assert (Hrules : rules (builder_apiVersion fromVersion toVersion create) = [r])
      by reflexivity.
    unfold match_. rewrite Hrules. cbn [match_rules].
    change (is_enabled r) with true. change (condition_fails r context) with false.
    cbn [negb].
    change (pattern r) with (PRegExp ("/api/" ++ fromVersion ++ "/(.*)")%string).
    cbn [_matchPattern]. rewrite Hurl, (exec_version fromVersion rest Hfrom Hline).
    change (target r) with (TString ("/api/" ++ toVersion ++ "/$1")%string).
    cbn [_resolveTarget]. rewrite (resolve_version toVersion _ rest Hto Hrest).
    reflexivity. }
  split; [rewrite Hm; reflexivity|].
  unfold route. rewrite Hm. eexists. split; reflexivity.
Qed.

Lemma apiVersion_witness :
  exists context',
    route exec versionRouter (request "/api/v1/users?page=2") = Some context' /\
    ctx_url context' = "/api/v2/users?page=2".
Proof.
  refine (proj2 (apiVersion_moves_plain_paths "v1" "v2" "users?page=2"
                   (request "/api/v1/users?page=2") _ _ _ _ eq_refl)).
  - repeat constructor.
  - repeat constructor; discriminate.
  - repeat constructor; discriminate.
  - repeat constructor.
Defined.

End RouterFacts.

(** ** Properties of the decorators *)
Module DecoratorsFacts.
Import Decorators.
Local Open Scope string_scope.
Local Open Scope list_scope.

(** The decorators of the library, as data. *)
Inductive BuiltIn :=
| Tracing (traceId : option string) (requestTime : string)
| Compression
| SecurityHeaders
| Cors (origin : string).

Definition decorator (b : BuiltIn) : RequestDecorator :=
  match b with
  | Tracing traceId requestTime => TracingDecorator traceId requestTime
  | Compression => CompressionDecorator
  | SecurityHeaders => SecurityHeadersDecorator
  | Cors origin => CorsDecorator origin
  end.

Definition chain_of (l : list BuiltIn) : DecoratorChain :=
  fold_left (fun chain b => add (decorator b) chain) l create.

Definition same_kind (a b : BuiltIn) : bool :=
  match a, b with
  | Tracing _ _, Tracing _ _ | Compression, Compression
  | SecurityHeaders, SecurityHeaders | Cors _, Cors _ => true
  | _, _ => false
  end.

(** The request headers the decorators write. *)
Definition written_headers : list string :=
  ["x-trace-id"; "x-request-time"; "accept-encoding"; "x-content-type-options";
   "x-frame-options"; "x-xss-protection"; "origin"].

(** The headers a decorator writes into a request of the given id. *)
Definition header_writes (b : BuiltIn) (id : string) : gmap string string :=
  match b with
  | Tracing traceId requestTime =>
      <["x-request-time" := requestTime]>
        (<["x-trace-id" := match traceId with
                           | Some s => if String.eqb s "" then id else s
                           | None => id
                           end]> ∅)
  | Compression => <["accept-encoding" := "gzip, deflate, br"]> ∅
  | SecurityHeaders =>
      <["x-xss-protection" := "1; mode=block"]>
        (<["x-frame-options" := "DENY"]> (<["x-content-type-options" := "nosniff"]> ∅))
  | Cors origin => <["origin" := origin]> ∅
  end.

(** The metadata a decorator leaves in a request. *)
Definition metadata_after (b : BuiltIn) (context : RequestContext)
  : option (gmap string JsValue) :=
  match b with
  | Tracing traceId _ =>
      Some (<["traceId" := JsString (traceId_or_id traceId context)]>
              (metadata_or_empty context))
  | _ => ctx_metadata context
  end.

Lemma chain_of_decorators (l : list BuiltIn) :
  decorators (chain_of l) = map decorator l.
Proof.
  unfold chain_of.
  assert (G : forall chain,
            decorators (fold_left (fun chain b => add (decorator b) chain) l chain)
            = decorators chain ++ map decorator l).
  { induction l as [|b l IH]; intros chain; simpl.
    - rewrite app_nil_r. reflexivity.
    - rewrite IH. simpl. rewrite <- app_assoc. reflexivity. }
  apply G.
Qed.

(** What a decorator does to a request, in one go. *)
Lemma request_effect (b : BuiltIn) (context : RequestContext) :
  decorateRequest (decorator b) context =
  {| ctx_id := ctx_id context; ctx_type := ctx_type context;
     ctx_timestamp := ctx_timestamp context; ctx_url := ctx_url context;
     ctx_method := ctx_method context;
     ctx_headers := Some (header_writes b (ctx_id context) ∪ headers_or_empty context);
     ctx_metadata := metadata_after b context |}.
Proof.
  destruct b; unfold decorator, header_writes, metadata_after; simpl;
    unfold set_headers, set_metadata, traceId_or_id; simpl;
    rewrite <- ?insert_union_l, (left_id_L ∅ (∪)); reflexivity.
Qed.

Lemma header_writes_disjoint (a b : BuiltIn) (id1 id2 : string) :
  same_kind a b = false -> header_writes a id1 ##ₘ header_writes b id2.
Proof.
  intros Hk.
  destruct a, b; try discriminate Hk; simpl;
    repeat (apply map_disjoint_insert_l_2;
            [rewrite ?lookup_insert_ne by discriminate; apply lookup_empty|]);
    apply map_disjoint_empty_l.
Qed.

Lemma header_writes_keys (b : BuiltIn) (id : string) (key : string) :
  ~ In key written_headers -> header_writes b id !! key = None.
Proof.
  intros Hkey. unfold written_headers in Hkey. simpl in Hkey.
  destruct b; simpl; rewrite ?lookup_insert_ne by (intros E; apply Hkey; rewrite <- E; tauto);
    apply lookup_empty.
Qed.

Lemma union_swap (A B m : gmap string string) : A ##ₘ B -> A ∪ (B ∪ m) = B ∪ (A ∪ m).
Proof.
  intros H. rewrite !(assoc_L (∪)). rewrite (map_union_comm A B H). reflexivity.
Qed.

Lemma union_twice (A m : gmap string string) : A ∪ (A ∪ m) = A ∪ m.
Proof. rewrite (assoc_L (∪)), (idemp_L (∪)). reflexivity. Qed.

(** Two decorators of different kinds, or the same decorator twice, may be
    applied to a request in either order. *)
Lemma decorateRequest_commute (a b : BuiltIn) (context : RequestContext) :
  (same_kind a b = true -> a = b) ->
  decorateRequest (decorator a) (decorateRequest (decorator b) context)
  = decorateRequest (decorator b) (decorateRequest (decorator a) context).
Proof.
  intros Hab. destruct (same_kind a b) eqn:Hk; [rewrite (Hab eq_refl); reflexivity|].
  rewrite (request_effect b context), (request_effect a context).
  rewrite !request_effect. cbn [ctx_id ctx_type ctx_timestamp ctx_url ctx_method].
  f_equal.
  - f_equal. unfold headers_or_empty. cbn [ctx_headers].
    apply union_swap. apply header_writes_disjoint. exact Hk.
  - destruct a, b; try discriminate Hk; reflexivity.
Qed.

Lemma fold_requests_perm (l1 l2 : list BuiltIn) :
  Permutation l1 l2 ->
  (forall a b, In a l1 -> In b l1 -> same_kind a b = true -> a = b) ->
  forall context,
    fold_left (fun result d => decorateRequest d result) (map decorator l1) context
    = fold_left (fun result d => decorateRequest d result) (map decorator l2) context.
Proof.
  induction 1 as [|x l1 l2 Hperm IH|x y l|l1 l2 l3 H12 IH12 H23 IH23]; intros Hkinds context.
  - reflexivity.
  - simpl. apply IH. intros a b Ha Hb. apply Hkinds; right; assumption.
  - simpl. rewrite (decorateRequest_commute x y context); [reflexivity|].
    apply Hkinds; [right; left; reflexivity|left; reflexivity].
  - rewrite (IH12 Hkinds). apply IH23.
    intros a b Ha Hb. apply Hkinds; eapply Permutation_in; try eassumption;
      apply Permutation_sym; assumption.
Qed.

(** A decorated request keeps what the decorators do not write. *)
Lemma decorateRequest_frame (b : BuiltIn) (context : RequestContext) :
  let context' := decorateRequest (decorator b) context in
  ctx_id context' = ctx_id context /\ ctx_type context' = ctx_type context /\
  ctx_timestamp context' = ctx_timestamp context /\ ctx_url context' = ctx_url context /\
  ctx_method context' = ctx_method context /\
  (forall key, ~ In key written_headers ->
     headers_or_empty context' !! key = headers_or_empty context !! key) /\
  (forall key, key <> "traceId" ->
     metadata_or_empty context' !! key = metadata_or_empty context !! key).
Proof.
  cbv zeta. rewrite request_effect. cbn [ctx_id ctx_type ctx_timestamp ctx_url ctx_method].
  repeat split.
  - intros key Hkey. unfold headers_or_empty at 1. cbn [ctx_headers].
    rewrite lookup_union_r; [reflexivity|]. apply header_writes_keys. exact Hkey.
  - intros key Hkey. unfold metadata_or_empty at 1. cbn [ctx_metadata].
    destruct b; try reflexivity. simpl. rewrite lookup_insert_ne by congruence. reflexivity.
Qed.

(** The headers of fixed value: a decorator either does not write them or
    writes that value. *)
Lemma security_headers_fixed (b : BuiltIn) (id : string) :
  (header_writes b id !! "x-content-type-options" = None \/
   header_writes b id !! "x-content-type-options" = Some "nosniff") /\
  (header_writes b id !! "x-frame-options" = None \/
   header_writes b id !! "x-frame-options" = Some "DENY") /\
  (header_writes b id !! "x-xss-protection" = None \/
   header_writes b id !! "x-xss-protection" = Some "1; mode=block").
Proof.
  destruct b; simpl; repeat split;
    (left; reflexivity) || (right; reflexivity).
Qed.

Lemma compression_header_fixed (b : BuiltIn) (id : string) :
  header_writes b id !! "accept-encoding" = None \/
  header_writes b id !! "accept-encoding" = Some "gzip, deflate, br".
Proof. destruct b; simpl; (left; reflexivity) || (right; reflexivity). Qed.

Lemma constant_header_kept (A m : gmap string string) (key value : string) :
  A !! key = None \/ A !! key = Some value ->
  m !! key = Some value -> (A ∪ m) !! key = Some value.
Proof.
  intros [HA|HA] Hm.
  - rewrite lookup_union_r by exact HA. exact Hm.
  - apply lookup_union_Some_l. exact HA.
Qed.

(** X28.  A chain of the library's decorators (tracing, compression,
    security headers, CORS) leaves the id, type, timestamp, url and method
    of a request as they are, and so every header other than the seven
    the decorators write and every metadata key other than traceId.  When
    the security-headers decorator is in the chain the request carries its
    three headers, and with the compression decorator the accept-encoding
    header, whatever else is in the chain and in whatever order. *)
Theorem decorators_only_write_their_headers :
  forall (l : list BuiltIn) (context : RequestContext),
    let context' := applyToRequest (chain_of l) context in
    ctx_id context' = ctx_id context /\ ctx_type context' = ctx_type context /\
    ctx_timestamp context' = ctx_timestamp context /\ ctx_url context' = ctx_url context /\
    ctx_method context' = ctx_method context /\
    (forall key, ~ In key written_headers ->
       headers_or_empty context' !! key = headers_or_empty context !! key) /\
    (forall key, key <> "traceId" ->
       metadata_or_empty context' !! key = metadata_or_empty context !! key) /\
    (In SecurityHeaders l ->
       headers_or_empty context' !! "x-content-type-options" = Some "nosniff" /\
       headers_or_empty context' !! "x-frame-options" = Some "DENY" /\
       headers_or_empty context' !! "x-xss-protection" = Some "1; mode=block") /\
    (In Compression l ->
       headers_or_empty context' !! "accept-encoding" = Some "gzip, deflate, br").
Proof.
  intros l context. cbv zeta. unfold applyToRequest. rewrite chain_of_decorators.
  revert context. induction l as [|b l IH] using rev_ind; intros context.
  - simpl. do 5 (split; [reflexivity|]).
    split; [intros key _; reflexivity|]. split; [intros key _; reflexivity|].
    split; intros [].
  - rewrite map_app, fold_left_app. simpl.
    destruct (IH context) as (Hid & Hty & Hts & Hurl & Hm & Hh & Hmd & Hsec & Hcomp).
    set (mid := fold_left (fun result d => decorateRequest d result) (map decorator l) context)
      in *.
    destruct (decorateRequest_frame b mid) as (Hid' & Hty' & Hts' & Hurl' & Hm' & Hh' & Hmd').
    split; [congruence|]. split; [congruence|]. split; [congruence|].
    split; [congruence|]. split; [congruence|].
    split; [intros key Hkey; rewrite (Hh' key Hkey); apply Hh; exact Hkey|].
    split; [intros key Hkey; rewrite (Hmd' key Hkey); apply Hmd; exact Hkey|].
    assert (Hheaders : headers_or_empty (decorateRequest (decorator b) mid)
                       = header_writes b (ctx_id mid) ∪ headers_or_empty mid)
      by (rewrite request_effect; reflexivity).
    rewrite Hheaders. split.
    + intros Hin. apply in_app_or in Hin. destruct Hin as [Hin|[->|[]]].
      * destruct (Hsec Hin) as (H1 & H2 & H3).
        split; [|split]; apply constant_header_kept; assumption || (apply security_headers_fixed).
      * repeat split; apply lookup_union_Some_l; reflexivity.
    + intros Hin. apply in_app_or in Hin. destruct Hin as [Hin|[->|[]]].
      * apply constant_header_kept; [apply compression_header_fixed|exact (Hcomp Hin)].
      * apply lookup_union_Some_l. reflexivity.
Qed.

(** X29.  The order of the library's decorators in a chain does not matter
    for a request, as long as the chain holds no two different decorators
    of one kind (two CORS decorators of different origins, say): chains
    that are permutations of each other decorate every request alike.  A
    tracing decorator is taken with the time it reads from the clock, so
    it stamps the same x-request-time in both chains. *)
Theorem decorator_order_does_not_matter :
  forall (l1 l2 : list BuiltIn) (context : RequestContext),
    Permutation l1 l2 ->
    (forall a b, In a l1 -> In b l1 -> same_kind a b = true -> a = b) ->
    applyToRequest (chain_of l1) context = applyToRequest (chain_of l2) context.
Proof.
  intros l1 l2 context Hperm Hkinds. unfold applyToRequest.
  rewrite !chain_of_decorators. apply fold_requests_perm; assumption.
Qed.

Lemma decorator_order_witness :
  applyToRequest (chain_of [Cors "https://app.example"; SecurityHeaders; Compression])
    LoadBalancerFacts.sampleContext
  = applyToRequest (chain_of [Compression; Cors "https://app.example"; SecurityHeaders])
      LoadBalancerFacts.sampleContext.
Proof.
  apply decorator_order_does_not_matter.
  - apply Permutation_sym. apply (Permutation_cons_app [Cors "https://app.example";
                                                        SecurityHeaders] [] Compression).
    rewrite app_nil_r. apply Permutation_refl.
  - intros a b [<-|[<-|[<-|[]]]] [<-|[<-|[<-|[]]]] Hk; try discriminate Hk; reflexivity.
Defined.

Lemma decorators_witness :
  headers_or_empty (applyToRequest (chain_of [SecurityHeaders; Cors "*"])
                      LoadBalancerFacts.sampleContext) !! "x-frame-options" = Some "DENY".
Proof.
  exact (proj1 (proj2 (proj1 (proj2 (proj2 (proj2 (proj2 (proj2 (proj2 (proj2
           (decorators_only_write_their_headers [SecurityHeaders; Cors "*"]
              LoadBalancerFacts.sampleContext)))))))) (or_introl eq_refl)))).
Defined.

(** ** Responses *)

Lemma fold_requests_id (l : list BuiltIn) (context : RequestContext) :
  ctx_id (fold_left (fun result d => decorateRequest d result) (map decorator l) context)
  = ctx_id context.
Proof.
  revert context. induction l as [|b l IH]; intros context; simpl; [reflexivity|].
  rewrite IH, request_effect. reflexivity.
Qed.

(** Behind a tracing decorator the x-trace-id header and the traceId of the
    metadata hold the same string, which is empty only when the id of the
    request is. *)
Lemma request_trace (l : list BuiltIn) (context : RequestContext) :
  (exists traceId requestTime, In (Tracing traceId requestTime) l) ->
  let context' :=
    fold_left (fun result d => decorateRequest d result) (map decorator l) context in
  exists tid,
    headers_or_empty context' !! "x-trace-id" = Some tid /\
    metadata_or_empty context' !! "traceId" = Some (JsString tid) /\
    (String.eqb tid "" = true -> tid = ctx_id context).
Proof.
  cbv zeta. induction l as [|b l IH] using rev_ind; intros (tr & tm & Hin).
  - destruct Hin.
  - rewrite map_app, fold_left_app. cbn [map fold_left].
    pose proof (fold_requests_id l context) as Hid.
    set (mid := fold_left (fun result d => decorateRequest d result) (map decorator l) context)
      in *.
    rewrite request_effect. unfold headers_or_empty at 1, metadata_or_empty at 1.
    cbn [ctx_headers ctx_metadata].
    apply in_app_or in Hin.
    destruct b as [tr' tm'| | |origin].
    + exists (traceId_or_id tr' mid). split; [|split].
      * apply lookup_union_Some_l. reflexivity.
      * cbn [metadata_after]. apply lookup_insert_eq.
      * unfold traceId_or_id. destruct tr' as [s|]; [|intros _; exact Hid].
        destruct (String.eqb s "") eqn:Hs; intros He; [exact Hid|congruence].
    + destruct IH as (tid & Hh & Hm & He).
      { exists tr, tm. destruct Hin as [Hin|[Hin|[]]]; [exact Hin|discriminate Hin]. }
      exists tid. split; [|split; [exact Hm|exact He]].
      rewrite lookup_union_r by reflexivity. exact Hh.
    + destruct IH as (tid & Hh & Hm & He).
      { exists tr, tm. destruct Hin as [Hin|[Hin|[]]]; [exact Hin|discriminate Hin]. }
      exists tid. split; [|split; [exact Hm|exact He]].
      rewrite lookup_union_r by reflexivity. exact Hh.
    + destruct IH as (tid & Hh & Hm & He).
      { exists tr, tm. destruct Hin as [Hin|[Hin|[]]]; [exact Hin|discriminate Hin]. }
      exists tid. split; [|split; [exact Hm|exact He]].
      rewrite lookup_union_r by reflexivity. exact Hh.
Qed.

(** A chain with a tracing decorator stamps the traceId of the request's
    metadata on the response. *)
Lemma response_trace (l : list BuiltIn) (context : RequestContext)
    (response : ResponseContext) (tid : string) :
  metadata_or_empty context !! "traceId" = Some (JsString tid) ->
  (String.eqb tid "" = true -> tid = ctx_id context) ->
  (exists traceId requestTime, In (Tracing traceId requestTime) l) ->
  response_headers_or_empty
    (fold_left (fun result decorator =>
                  match decorateResponse decorator with
                  | Some decorate => decorate context result
                  | None => result
                  end) (map decorator l) response) !! "x-trace-id"
  = Some (JsString tid).
Proof.
  intros Hm He. induction l as [|b l IH] using rev_ind; intros (tr & tm & Hin).
  - destruct Hin.
  - rewrite map_app, fold_left_app. cbn [map fold_left].
    set (mid := fold_left (fun result decorator =>
                  match decorateResponse decorator with
                  | Some decorate => decorate context result
                  | None => result
                  end) (map decorator l) response) in *.
    apply in_app_or in Hin.
    destruct b as [tr' tm'| | |origin].
    + cbn [decorator TracingDecorator decorateResponse].
      unfold response_headers_or_empty at 1. cbn [set_response_headers res_headers].
      rewrite Hm, lookup_insert_eq. cbn [js_truthy].
      destruct (String.eqb tid "") eqn:Hs; cbn [negb]; [|reflexivity].
      rewrite <- (He eq_refl). reflexivity.
    + assert (Hl : exists traceId requestTime, In (Tracing traceId requestTime) l).
      { exists tr, tm. destruct Hin as [Hin|[Hin|[]]]; [exact Hin|discriminate Hin]. }
      cbn [decorator CompressionDecorator decorateResponse].
      destruct (response_headers_or_empty mid !! "content-encoding") as [encoding|];
        [destruct (js_truthy encoding)|]; exact (IH Hl).
    + assert (Hl : exists traceId requestTime, In (Tracing traceId requestTime) l).
      { exists tr, tm. destruct Hin as [Hin|[Hin|[]]]; [exact Hin|discriminate Hin]. }
      exact (IH Hl).
    + assert (Hl : exists traceId requestTime, In (Tracing traceId requestTime) l).
      { exists tr, tm. destruct Hin as [Hin|[Hin|[]]]; [exact Hin|discriminate Hin]. }
      cbn [decorator CorsDecorator decorateResponse].
      unfold response_headers_or_empty at 1. cbn [set_response_headers res_headers].
      rewrite lookup_insert_ne by discriminate. exact (IH Hl).
Qed.

(** X30.  With a tracing decorator anywhere in a chain of the library's
    decorators, the response decorated for a request that went through the
    chain carries in its x-trace-id header the trace id that the chain put
    into the x-trace-id header of the request. *)
Theorem response_carries_request_trace_id :
  forall (l : list BuiltIn) (context : RequestContext) (response : ResponseContext),
    (exists traceId requestTime, In (Tracing traceId requestTime) l) ->
    let context' := applyToRequest (chain_of l) context in
    exists tid,
      headers_or_empty context' !! "x-trace-id" = Some tid /\
      response_headers_or_empty (applyToResponse (chain_of l) context' response)
        !! "x-trace-id" = Some (JsString tid).
Proof.
  intros l context response Hl. cbv zeta. unfold applyToRequest, applyToResponse.
  rewrite chain_of_decorators.
  destruct (request_trace l context Hl) as (tid & Hh & Hm & He).
  exists tid. split; [exact Hh|].
  apply response_trace; [exact Hm| |exact Hl].
  intros Hs. rewrite fold_requests_id. exact (He Hs).
Qed.

Definition sampleResponse : ResponseContext :=
  {| res_id := "req-1"; res_status := Some 200%Z; res_statusText := Some "OK";
     res_headers := None; res_data := None; res_error := None;
     res_timestamp := 1700000000250%Z; res_duration := 250%Z; res_metadata := None |}.

Lemma response_trace_witness :
  exists tid,
    headers_or_empty
      (applyToRequest (chain_of [Tracing (Some "trace-7") "2026-01-01T00:00:00.000Z";
                                 Cors "*"]) LoadBalancerFacts.sampleContext)
      !! "x-trace-id" = Some tid /\
    response_headers_or_empty
      (applyToResponse (chain_of [Tracing (Some "trace-7") "2026-01-01T00:00:00.000Z";
                                  Cors "*"])
         (applyToRequest (chain_of [Tracing (Some "trace-7") "2026-01-01T00:00:00.000Z";
                                    Cors "*"]) LoadBalancerFacts.sampleContext)
         sampleResponse) !! "x-trace-id" = Some (JsString tid).
Proof.
  apply (response_carries_request_trace_id
           [Tracing (Some "trace-7") "2026-01-01T00:00:00.000Z"; Cors "*"]
           LoadBalancerFacts.sampleContext sampleResponse).
  exists (Some "trace-7"), "2026-01-01T00:00:00.000Z". left. reflexivity.
Defined.

End DecoratorsFacts.
